(** * The Brain Food quotes synchroniser: model and verified properties

    A shallow embedding of the Node.js script that crawls the Brain Food
    index, scrapes the "Tiny Thoughts" section of each new article and
    merges the quotes into [quotes.json].

    JavaScript strings are sequences of UTF-16 code units; every string
    operation of the script (length, indexOf, regular expressions without
    the [u] flag, the default [sort]) works on code units, so a string is
    modelled as a list of code units. *)

From Stdlib Require Import String Ascii.
From Stdlib Require Import List NArith ZArith Lia Bool Arith.
From Stdlib Require Import Sorted Permutation.
Import ListNotations.

Set Implicit Arguments.

(** ** JavaScript strings *)

Module JS.

Definition jsstring : Type := list N.

(** An ASCII literal of the source as code units. *)
Definition str (s : string) : jsstring :=
  map N_of_ascii (list_ascii_of_string s).
Arguments str s%_string.

Definition jsstring_eq_dec (a b : jsstring) : {a = b} + {a <> b} :=
  list_eq_dec N.eq_dec a b.

Definition streq (a b : jsstring) : bool :=
  if jsstring_eq_dec a b then true else false.

(** [s.startsWith(p)] *)
Fixpoint startsWith (s p : jsstring) : bool :=
  match p, s with
  | [], _ => true
  | _ :: _, [] => false
  | x :: p', y :: s' => N.eqb x y && startsWith s' p'
  end.

(** [s.indexOf(p, from)], [-1] when [p] does not occur at or after [from];
    the position is clamped to the string as in the language. *)
Fixpoint indexOf_aux (s p : jsstring) (pos : Z) : Z :=
  if startsWith s p then pos
  else match s with
       | [] => (-1)%Z
       | _ :: s' => indexOf_aux s' p (pos + 1)
       end.

Definition indexOf (s p : jsstring) (from : Z) : Z :=
  let k := Z.to_nat (Z.min (Z.max from 0) (Z.of_nat (length s))) in
  indexOf_aux (skipn k s) p (Z.of_nat k).

(** [s.slice(a, b)]; a negative index counts from the end. *)
Definition slice_index (len i : Z) : Z :=
  if (i <? 0)%Z then Z.max (len + i) 0 else Z.min i len.

Definition slice {A : Type} (l : list A) (a b : Z) : list A :=
  let len := Z.of_nat (length l) in
  let from := slice_index len a in
  let to := slice_index len b in
  firstn (Z.to_nat (to - from)) (skipn (Z.to_nat from) l).

(** [l.slice(a)] *)
Definition slice_from {A : Type} (l : list A) (a : Z) : list A :=
  slice l a (Z.of_nat (length l)).

(** [parts.join(sep)] *)
Fixpoint join (sep : jsstring) (parts : list jsstring) : jsstring :=
  match parts with
  | [] => []
  | [p] => p
  | p :: rest => p ++ sep ++ join sep rest
  end.

(** [s.split(c)] for a one-unit separator: never returns the empty list. *)
Fixpoint split_char (c : N) (s : jsstring) : list jsstring :=
  match s with
  | [] => [[]]
  | x :: s' =>
      if N.eqb x c then [] :: split_char c s'
      else match split_char c s' with
           | [] => [[x]]
           | p :: ps => (x :: p) :: ps
           end
  end.

(** Character classes. [\s] (and [trim]) is WhiteSpace plus
    LineTerminator. *)
Definition is_digit (c : N) : bool := (48 <=? c)%N && (c <=? 57)%N.
Definition is_lower (c : N) : bool := (97 <=? c)%N && (c <=? 122)%N.
Definition is_space (c : N) : bool :=
  ((9 <=? c)%N && (c <=? 13)%N) || N.eqb c 32 || N.eqb c 160
  || N.eqb c 5760 || ((8192 <=? c)%N && (c <=? 8202)%N)
  || N.eqb c 8232 || N.eqb c 8233 || N.eqb c 8239 || N.eqb c 8287
  || N.eqb c 12288 || N.eqb c 65279.

Fixpoint dropWhile (f : N -> bool) (s : jsstring) : jsstring :=
  match s with
  | [] => []
  | c :: s' => if f c then dropWhile f s' else s
  end.

(** [s.trimEnd()] and [s.trim()] *)
Fixpoint trimEnd (s : jsstring) : jsstring :=
  match s with
  | [] => []
  | c :: s' =>
      match trimEnd s' with
      | [] => if is_space c then [] else [c]
      | t => c :: t
      end
  end.

Definition trim (s : jsstring) : jsstring :=
  trimEnd (dropWhile is_space s).

(** [String(n)] for a non-negative integer. *)
Fixpoint digits_fuel (fuel : nat) (n : N) (acc : jsstring) : jsstring :=
  match fuel with
  | O => acc
  | S f =>
      let acc' := (48 + n mod 10)%N :: acc in
      if (n <? 10)%N then acc' else digits_fuel f (n / 10)%N acc'
  end.

Definition String_of_N (n : N) : jsstring :=
  digits_fuel (S (N.to_nat (N.log2 n))) n [].

(** [parseInt(s)] on a string of decimal digits. *)
Definition parseInt_digits (s : jsstring) : N :=
  fold_left (fun acc c => (10 * acc + (c - 48))%N) s 0%N.

(** [s.padStart(n, '0')] *)
Definition padStart0 (n : nat) (s : jsstring) : jsstring :=
  repeat 48%N (n - length s) ++ s.

(** [c.toUpperCase()] on one code unit; exact on ASCII, which is all the
    script applies it to (the first letter of a month name). *)
Definition toUpperCase_unit (c : N) : N :=
  if is_lower c then (c - 32)%N else c.

(** The default comparison of [Array.prototype.sort]: code units,
    lexicographically. *)
Fixpoint str_compare (a b : jsstring) : comparison :=
  match a, b with
  | [], [] => Eq
  | [], _ :: _ => Lt
  | _ :: _, [] => Gt
  | x :: a', y :: b' =>
      match N.compare x y with
      | Eq => str_compare a' b'
      | c => c
      end
  end.

Definition str_leb (a b : jsstring) : bool :=
  match str_compare a b with Gt => false | _ => true end.

Definition str_ltb (a b : jsstring) : bool :=
  match str_compare a b with Lt => true | _ => false end.

End JS.

Import JS.

(** ** Regular expressions

    The fragment of the regular-expression language the script uses, as a
    backtracking matcher in continuation style: a matcher is given the rest
    of the input, the number of code units consumed since the start of the
    match and the bounds of capture group 1, and answers with the end of
    the first match in priority order.  Greedy quantifiers try the longer
    match first and give units back when the continuation fails; the lazy
    one tries the continuation first. *)

Module Regex.

Definition caps : Type := (option nat * option nat)%type.
Definition matcher : Type := jsstring -> nat -> caps -> option (nat * caps).

Definition done : matcher := fun _ pos c => Some (pos, c).

(** A literal run of characters. *)
Definition lit (p : jsstring) (k : matcher) : matcher :=
  fun s pos c =>
    if startsWith s p then k (skipn (length p) s) (pos + length p) c
    else None.

(** One character of a class. *)
Definition chr (f : N -> bool) (k : matcher) : matcher :=
  fun s pos c =>
    match s with
    | x :: s' => if f x then k s' (S pos) c else None
    | [] => None
    end.

(** [[class]*], greedy. *)
Fixpoint star (f : N -> bool) (k : matcher) (s : jsstring) (pos : nat)
    (c : caps) {struct s} : option (nat * caps) :=
  match s with
  | x :: s' =>
      if f x then
        match star f k s' (S pos) c with
        | Some r => Some r
        | None => k s pos c
        end
      else k s pos c
  | [] => k s pos c
  end.

(** [[class]+], greedy. *)
Definition plus (f : N -> bool) (k : matcher) : matcher := chr f (star f k).

(** [[class]?], greedy. *)
Definition opt (f : N -> bool) (k : matcher) : matcher :=
  fun s pos c =>
    match chr f k s pos c with
    | Some r => Some r
    | None => k s pos c
    end.

(** [[class]*?], lazy. *)
Fixpoint lazy_star (f : N -> bool) (k : matcher) (s : jsstring) (pos : nat)
    (c : caps) {struct s} : option (nat * caps) :=
  match k s pos c with
  | Some r => Some r
  | None =>
      match s with
      | x :: s' => if f x then lazy_star f k s' (S pos) c else None
      | [] => None
      end
  end.

(** [a|b] *)
Definition alt (a b : matcher) : matcher :=
  fun s pos c =>
    match a s pos c with
    | Some r => Some r
    | None => b s pos c
    end.

(** The parentheses of capture group 1. *)
Definition gopen (k : matcher) : matcher :=
  fun s pos c => k s pos (Some pos, snd c).
Definition gclose (k : matcher) : matcher :=
  fun s pos c => k s pos (fst c, Some pos).

(** [$] without the [m] flag: the end of the input. *)
Definition eos (k : matcher) : matcher :=
  fun s pos c => match s with [] => k s pos c | _ :: _ => None end.

(** A match attempt at the start of [s]: the length of the match and the
    text of capture group 1. *)
Definition exec_at (m : matcher) (s : jsstring)
    : option (nat * option jsstring) :=
  match m s 0 (None, None) with
  | Some (n, (Some a, Some b)) => Some (n, Some (firstn (b - a) (skipn a s)))
  | Some (n, _) => Some (n, None)
  | None => None
  end.

(** One left-to-right pass of a [g] regular expression over a string: the
    code units outside the matches and, for each match, its capture.
    [skip] counts the units of the current match still to be passed over.
    None of the script's patterns matches the empty string. *)
Inductive token : Type :=
| TUnit (c : N)
| TMatch (capture : option jsstring).

Fixpoint scan (m : matcher) (skip : nat) (s : jsstring) : list token :=
  match s with
  | [] => []
  | c :: s' =>
      match skip with
      | S k => scan m k s'
      | O =>
          match exec_at m s with
          | Some (n, cap) => TMatch cap :: scan m (n - 1) s'
          | None => TUnit c :: scan m 0 s'
          end
      end
  end.

(** [s.replace(/re/g, rep)] with a replacement free of [$] patterns. *)
Definition replace_all (m : matcher) (rep : jsstring) (s : jsstring)
    : jsstring :=
  flat_map (fun t => match t with TUnit c => [c] | TMatch _ => rep end)
           (scan m 0 s).

(** [s.split(/re/)] for a pattern without capture groups. *)
Fixpoint split_tokens (ts : list token) : list jsstring :=
  match ts with
  | [] => [[]]
  | TMatch _ :: ts' => [] :: split_tokens ts'
  | TUnit c :: ts' =>
      match split_tokens ts' with
      | p :: ps => (c :: p) :: ps
      | [] => [[c]]
      end
  end.

Definition split (m : matcher) (s : jsstring) : list jsstring :=
  split_tokens (scan m 0 s).

(** The loop [while ((m = re.exec(s)) !== null) ... m[1] ...] over a [g]
    regular expression: capture group 1 of the successive matches. *)
Fixpoint captures (ts : list token) : list jsstring :=
  match ts with
  | [] => []
  | TMatch (Some cap) :: ts' => cap :: captures ts'
  | TMatch None :: ts' => [] :: captures ts'
  | TUnit _ :: ts' => captures ts'
  end.

Definition exec_all (m : matcher) (s : jsstring) : list jsstring :=
  captures (scan m 0 s).

(** [s.replace(pattern, rep)] without the [g] flag, and with a string
    pattern: the leftmost match only. *)
Fixpoint replace_first (m : matcher) (rep : jsstring) (s : jsstring)
    : jsstring :=
  match exec_at m s with
  | Some (n, _) => rep ++ skipn n s
  | None =>
      match s with
      | [] => []
      | c :: s' => c :: replace_first m rep s'
      end
  end.

(** [/^.../.test(s)]: with [^] and no [m] flag only the start of the input
    is tried. *)
Definition test_anchored (m : matcher) (s : jsstring) : bool :=
  match exec_at m s with Some _ => true | None => false end.

End Regex.

Import Regex.

(** ** Data of the script *)

Module Quote.
Record t : Type := mk { text : jsstring; edition : jsstring; date : jsstring }.
End Quote.

Module Article.
Record t : Type := mk { url : jsstring; date : jsstring; slug : jsstring }.
End Article.

Module Store.
Record t : Type := mk { lastUpdated : jsstring; quotes : list Quote.t }.
End Store.

(** ** The text normaliser, [stripHtml] *)

Definition not_gt (c : N) : bool := negb (N.eqb c 62).
Definition any_unit (c : N) : bool := true.

(** [/<[^>]+>/] *)
Definition re_tag : matcher := lit (str "<") (plus not_gt (lit (str ">") done)).
(** [/&#\d+;/] *)
Definition re_numeric : matcher :=
  lit (str "&#") (plus is_digit (lit (str ";") done)).
(** [/&[a-z]+;/] *)
Definition re_named : matcher :=
  lit (str "&") (plus is_lower (lit (str ";") done)).
(** [/\s+/] *)
Definition re_spaces : matcher := plus is_space done.
(** [/&#NNNN;|&name;/] *)
Definition re_either (a b : jsstring) : matcher := alt (lit a done) (lit b done).

Definition stripHtml (s : jsstring) : jsstring :=
  let s := replace_all re_tag [] s in
  let s := replace_all (lit (str "&amp;") done) (str "&") s in
  let s := replace_all (lit (str "&lt;") done) (str "<") s in
  let s := replace_all (lit (str "&gt;") done) (str ">") s in
  let s := replace_all (lit (str "&quot;") done) [34%N] s in
  let s := replace_all (re_either (str "&#8220;") (str "&ldquo;")) [8220%N] s in
  let s := replace_all (re_either (str "&#8221;") (str "&rdquo;")) [8221%N] s in
  let s := replace_all (re_either (str "&#8216;") (str "&lsquo;")) [8216%N] s in
  let s := replace_all (re_either (str "&#8217;") (str "&rsquo;")) [8217%N] s in
  let s := replace_all (re_either (str "&#8212;") (str "&mdash;")) [8212%N] s in
  let s := replace_all (re_either (str "&#8211;") (str "&ndash;")) [8211%N] s in
  let s := replace_all (lit (str "&nbsp;") done) (str " ") s in
  let s := replace_all re_numeric [] s in
  let s := replace_all re_named [] s in
  let s := replace_all re_spaces (str " ") s in
  trim s.

(** ** The slug date parser, [parseDateFromSlug] *)

(** What a property read on [MONTHS] can yield.  [MONTHS] is an object
    literal, so a key that is not one of its own twelve is looked up on
    [Object.prototype]. *)
Inductive jsvalue : Type :=
| JUndefined
| JNumber (n : N)
| JFunction (name : jsstring)
| JObjectPrototype.

Definition MONTHS_own : list (jsstring * N) :=
  [ (str "january", 1%N); (str "february", 2%N); (str "march", 3%N);
    (str "april", 4%N); (str "may", 5%N); (str "june", 6%N);
    (str "july", 7%N); (str "august", 8%N); (str "september", 9%N);
    (str "october", 10%N); (str "november", 11%N); (str "december", 12%N) ].

Fixpoint own_property (table : list (jsstring * N)) (key : jsstring)
    : option N :=
  match table with
  | [] => None
  | (k, v) :: rest => if streq k key then Some v else own_property rest key
  end.

(** The function-valued properties of [Object.prototype]; [constructor] is
    the function [Object], the others are named after their key. *)
Definition Object_prototype_methods : list jsstring :=
  [ str "__defineGetter__"; str "__defineSetter__"; str "hasOwnProperty";
    str "__lookupGetter__"; str "__lookupSetter__"; str "isPrototypeOf";
    str "propertyIsEnumerable"; str "toString"; str "valueOf";
    str "toLocaleString" ].

Definition Object_prototype_get (key : jsstring) : jsvalue :=
  if streq key (str "constructor") then JFunction (str "Object")
  else if existsb (streq key) Object_prototype_methods then JFunction key
  else if streq key (str "__proto__") then JObjectPrototype
  else JUndefined.

(** [MONTHS[key]] *)
Definition MONTHS_get (key : jsstring) : jsvalue :=
  match own_property MONTHS_own key with
  | Some n => JNumber n
  | None => Object_prototype_get key
  end.

(** [!v] is false on: *)
Definition truthy (v : jsvalue) : bool :=
  match v with
  | JUndefined => false
  | JNumber n => negb (N.eqb n 0)
  | JFunction _ | JObjectPrototype => true
  end.

(** [String(v)] *)
Definition String_of_value (v : jsvalue) : jsstring :=
  match v with
  | JUndefined => str "undefined"
  | JNumber n => String_of_N n
  | JFunction name => str "function " ++ name ++ str "() { [native code] }"
  | JObjectPrototype => str "[object Object]"
  end.

(** [/^\d{4}$/] and [/^\d{1,2}$/], tried at the start of the input. *)
Definition re_year : matcher :=
  chr is_digit (chr is_digit (chr is_digit (chr is_digit (eos done)))).
Definition re_day : matcher := chr is_digit (opt is_digit (eos done)).

Definition parseDateFromSlug (slug : jsstring) : option jsstring :=
  let parts := split_char 45 slug in
  if length parts <? 3 then None
  else
    let year := nth (length parts - 1) parts [] in
    let day := nth (length parts - 2) parts [] in
    let monthName :=
      join (str "-") (slice parts 0 (Z.of_nat (length parts) - 2)) in
    let month := MONTHS_get monthName in
    if negb (truthy month) || negb (test_anchored re_year year)
       || negb (test_anchored re_day day)
    then None
    else Some (year ++ str "-" ++ padStart0 2 (String_of_value month)
                    ++ str "-"
                    ++ padStart0 2 (String_of_N (parseInt_digits day))).

(** ** The section extractor, the part of [scrapeArticle] after the fetch *)

(** [/<hr[^>]*\/?>/] *)
Definition re_hr : matcher :=
  lit (str "<hr")
      (star not_gt (opt (N.eqb 47) (lit (str ">") done))).

(** [/<p[^>]*>([\s\S]*?)<\/p>/g] *)
Definition pRegex : matcher :=
  lit (str "<p")
      (star not_gt
            (lit (str ">")
                 (gopen (lazy_star any_unit
                                   (gclose (lit (str "</p>") done)))))).

(** The inner [while] loop: the normalised paragraphs of a group that are
    longer than 5 code units. *)
Definition group_parts (group : jsstring) : list jsstring :=
  filter (fun text => 5 <? length text) (map stripHtml (exec_all pRegex group)).

(** The [for] loop over the groups, with its [break]. *)
Fixpoint scrape_groups (date edition : jsstring) (groups : list jsstring)
    (quotes : list Quote.t) : list Quote.t :=
  match groups with
  | [] => quotes
  | group :: rest =>
      if 3 <=? length quotes then quotes
      else
        let parts := group_parts group in
        if 0 <? length parts
        then scrape_groups date edition rest
               (quotes ++ [Quote.mk (join (str " ") parts) edition date])
        else scrape_groups date edition rest quotes
  end.

(** The attribute [id="h-tiny-thoughts"]. *)
Definition anchor_attribute : jsstring :=
  str "id=" ++ [34%N] ++ str "h-tiny-thoughts" ++ [34%N].

(** The text between the heading of the section and the next [<h2]. *)
Definition tiny_thoughts_section (html : jsstring) : option jsstring :=
  let anchorIdx := indexOf html anchor_attribute 0 in
  if (anchorIdx =? -1)%Z then None
  else
    let h2EndIdx := (indexOf html (str "</h2>") anchorIdx + 5)%Z in
    let nextH2Idx := indexOf html (str "<h2") h2EndIdx in
    Some (if negb (nextH2Idx =? -1)%Z
          then slice html h2EndIdx nextH2Idx
          else slice html h2EndIdx (h2EndIdx + 8000)).

Definition scrape_html (html date edition : jsstring) : list Quote.t :=
  match tiny_thoughts_section html with
  | None => []
  | Some section => scrape_groups date edition (split re_hr section) []
  end.

(** ** Merge and retention, the end of [main] *)

(** [new Set(xs)] spread back into an array: first occurrences, in
    insertion order. *)
Definition Set_add (seen : list jsstring) (x : jsstring) : list jsstring :=
  if existsb (streq x) seen then seen else seen ++ [x].

Definition Set_of (xs : list jsstring) : list jsstring :=
  fold_left Set_add xs [].

(** [set.has(x)] *)
Definition Set_has (s : list jsstring) (x : jsstring) : bool :=
  existsb (streq x) s.

(** [Array.prototype.sort] is stable; with a consistent comparison its
    result is the one of a stable insertion sort. *)
Section Sorting.
Variable A : Type.
Variable le : A -> A -> bool.

Fixpoint insert_sorted (x : A) (l : list A) : list A :=
  match l with
  | [] => [x]
  | y :: l' => if le x y then x :: l else y :: insert_sorted x l'
  end.

Fixpoint sort (l : list A) : list A :=
  match l with
  | [] => []
  | x :: l' => insert_sorted x (sort l')
  end.
End Sorting.

(** Lines 164-173 of the script. *)
Definition merge (existing : Store.t) (newQuotes : list Quote.t) : Store.t :=
  let allQuotes := Store.quotes existing ++ newQuotes in
  let uniqueDates := sort str_leb (Set_of (map Quote.date allQuotes)) in
  let recentDates := slice_from uniqueDates (-12) in
  let trimmedQuotes :=
    filter (fun q => Set_has recentDates (Quote.date q)) allQuotes in
  let latestDate :=
    if 0 <? length uniqueDates
    then nth (length uniqueDates - 1) uniqueDates []
    else Store.lastUpdated existing in
  Store.mk latestDate trimmedQuotes.

(** ** The fetcher and the orchestrator *)

Inductive error : Type :=
| TooManyRedirects            (* [new Error('Too many redirects')] *)
| NetworkError (msg : jsstring) (* an ['error'] event of the request or response *)
| JSONSyntaxError.            (* thrown by [JSON.parse] *)

(** What one [https.get] ends in: an ['error'] event, or a response read to
    its ['end']. *)
Inductive outcome : Type :=
| Errored (msg : jsstring)
| Response (statusCode : Z) (location : option jsstring) (data : jsstring).

(** [res.headers.location] as a condition: present and not empty. *)
Definition header_truthy (h : option jsstring) : bool :=
  match h with
  | Some (_ :: _) => true
  | _ => false
  end.

Definition default_state : Store.t := Store.mk (str "2025-12-01") [].

Definition index_url : jsstring := str "https://fs.blog/brain-food/".

(** [/href="(https:\/\/fs\.blog\/brain-food\/[a-z][a-z0-9-]+-\d{4}\/)"/g] *)
Definition is_slug_unit (c : N) : bool :=
  is_lower c || is_digit c || N.eqb c 45.

Definition linkRegex : matcher :=
  lit (str "href=" ++ [34%N])
    (gopen
       (lit (str "https://fs.blog/brain-food/")
          (chr is_lower
             (plus is_slug_unit
                (lit (str "-")
                   (chr is_digit
                      (chr is_digit
                         (chr is_digit
                            (chr is_digit
                               (lit (str "/")
                                  (gclose (lit [34%N] done)))))))))))).

(** [/\/$/] *)
Definition re_trailing_slash : matcher := lit (str "/") (eos done).

Definition slug_of_url (url : jsstring) : jsstring :=
  replace_first re_trailing_slash []
    (replace_first (lit (str "https://fs.blog/brain-food/") done) [] url).

(** The edition label of an article, lines 141-145. *)
Definition edition_of_slug (slug : jsstring) : jsstring :=
  let parts := split_char 45 slug in
  let year := nth (length parts - 1) parts [] in
  let day := parseInt_digits (nth (length parts - 2) parts []) in
  let monthName :=
    join (str " ") (slice parts 0 (Z.of_nat (length parts) - 2)) in
  str "Brain Food " ++ [8211%N] ++ str " "
    ++ map toUpperCase_unit (firstn 1 monthName) ++ skipn 1 monthName
    ++ str " " ++ String_of_N day ++ str ", " ++ year.

(** [a > b] on two [Date] objects: on their time values, false when either
    is an Invalid Date. *)
Definition Date_gt (a b : option Z) : bool :=
  match a, b with
  | Some x, Some y => (y <? x)%Z
  | _, _ => false
  end.

Section Program.

(** The network: a request changes its state and ends in an outcome. *)
Variable World : Type.
Variable https_get : jsstring -> World -> outcome * World.
(** [new Date(s)]: the time value, [None] for an Invalid Date. *)
Variable Date_parse : jsstring -> option Z.
(** [JSON.parse] of the state file, [None] when it throws, and
    [JSON.stringify(output, null, 2)]. *)
Variable JSON_parse : jsstring -> option Store.t.
Variable JSON_stringify : Store.t -> jsstring.

(** Promises that reject or resolve, over the network state. *)
Definition promise (A : Type) : Type := World -> (error + A) * World.

Definition resolve {A : Type} (a : A) : promise A := fun w => (inr a, w).
Definition reject {A : Type} (e : error) : promise A := fun w => (inl e, w).
Definition await {A B : Type} (p : promise A) (k : A -> promise B)
    : promise B :=
  fun w =>
    match p w with
    | (inr a, w') => k a w'
    | (inl e, w') => (inl e, w')
    end.

(** [fetchUrl(url, redirects)].  The recursion is on [budget], an upper
    bound of the calls still possible, [6 - redirects]; its exhaustion
    coincides with the first test. *)
Fixpoint fetchUrl_rec (budget : nat) (url : jsstring) (redirects : nat)
    : promise jsstring :=
  if 5 <? redirects then reject TooManyRedirects
  else
    match budget with
    | O => reject TooManyRedirects
    | S budget' =>
        fun w =>
          match https_get url w with
          | (Errored msg, w') => (inl (NetworkError msg), w')
          | (Response statusCode location data, w') =>
              if (300 <=? statusCode)%Z && (statusCode <? 400)%Z
                 && header_truthy location
              then
                let loc := match location with Some l => l | None => [] end in
                let next :=
                  if startsWith loc (str "http") then loc
                  else str "https://fs.blog" ++ loc in
                fetchUrl_rec budget' next (redirects + 1) w'
              else (inr data, w')
          end
    end.

Definition fetchUrl (url : jsstring) (redirects : nat) : promise jsstring :=
  fetchUrl_rec (6 - redirects) url redirects.

Definition scrapeArticle (url date edition : jsstring)
    : promise (list Quote.t) :=
  await (fetchUrl url 0) (fun html => resolve (scrape_html html date edition)).

(** Lines 110-115: the set of article links of the index page. *)
Definition article_links (indexHtml : jsstring) : list jsstring :=
  Set_of (exec_all linkRegex indexHtml).

(** Lines 122-130: the candidates newer than the watermark. *)
Fixpoint newer_articles (lastUpdatedDate : option Z) (urls : list jsstring)
    : list Article.t :=
  match urls with
  | [] => []
  | url :: rest =>
      let slug := slug_of_url url in
      match parseDateFromSlug slug with
      | None => newer_articles lastUpdatedDate rest
      | Some date =>
          if Date_gt (Date_parse date) lastUpdatedDate
          then Article.mk url date slug :: newer_articles lastUpdatedDate rest
          else newer_articles lastUpdatedDate rest
      end
  end.

(** [a.date.localeCompare(b.date) <= 0].  The dates compared are ISO
    dates, digits with hyphens at fixed places, on which the collation
    order is the order of the code units. *)
Definition article_le (a b : Article.t) : bool :=
  str_leb (Article.date a) (Article.date b).

Definition articles_to_process (lastUpdated : jsstring)
    (urlSet : list jsstring) : list Article.t :=
  sort article_le (newer_articles (Date_parse lastUpdated) urlSet).

(** Lines 138-162: a failed fetch and a page without quotes are skipped. *)
Fixpoint scrape_all (articles : list Article.t) (newQuotes : list Quote.t)
    (w : World) : list Quote.t * World :=
  match articles with
  | [] => (newQuotes, w)
  | a :: rest =>
      let edition := edition_of_slug (Article.slug a) in
      match scrapeArticle (Article.url a) (Article.date a) edition w with
      | (inl _, w') => scrape_all rest newQuotes w'
      | (inr quotes, w') =>
          if length quotes =? 0 then scrape_all rest newQuotes w'
          else scrape_all rest (newQuotes ++ quotes) w'
      end
  end.

(** Lines 99-102: [file] is the content of [quotes.json], [None] when it
    does not exist. *)
Definition load_state (file : option jsstring) : promise Store.t :=
  match file with
  | None => resolve default_state
  | Some content =>
      match JSON_parse content with
      | Some existing => resolve existing
      | None => reject JSONSyntaxError
      end
  end.

(** The run from a loaded state on: it resolves to the text written to
    [quotes.json].  The console output is left out, and the write is
    taken to succeed. *)
Definition main_from (existing : Store.t) : promise jsstring :=
  await (fetchUrl index_url 0) (fun indexHtml =>
    let urlSet := article_links indexHtml in
    let articles := articles_to_process (Store.lastUpdated existing) urlSet in
    fun w =>
      let (newQuotes, w') := scrape_all articles [] w in
      resolve (JSON_stringify (merge existing newQuotes)) w').

Definition main (file : option jsstring) : promise jsstring :=
  await (load_state file) main_from.

(** The process: [main().catch(err => process.exit(1))].  It yields the
    exit status and the content of [quotes.json] afterwards. *)
Definition run (file : option jsstring) (w : World)
    : (Z * option jsstring) * World :=
  match main file w with
  | (inr written, w') => ((0%Z, Some written), w')
  | (inl _, w') => ((1%Z, file), w')
  end.

End Program.

(** ** A host for examples

    [new Date(s)] on the date-only form [YYYY-MM-DD] of a real calendar
    day is fixed by the language: midnight UTC of that day, in
    milliseconds since 1970-01-01.  [Date_parse_iso] is that function and
    an Invalid Date elsewhere. *)

Definition is_leap_year (y : Z) : bool :=
  ((y mod 4 =? 0) && (negb (y mod 100 =? 0) || (y mod 400 =? 0)))%Z.

Definition DayFromYear (y : Z) : Z :=
  (365 * (y - 1970) + (y - 1969) / 4 - (y - 1901) / 100 + (y - 1601) / 400)%Z.

Definition days_in_month (y m : Z) : Z :=
  (if (m =? 2) then (if is_leap_year y then 29 else 28)
   else if (m =? 4) || (m =? 6) || (m =? 9) || (m =? 11) then 30
   else 31)%Z.

Fixpoint days_before_month (y : Z) (m : nat) : Z :=
  match m with
  | O => 0%Z
  | S m' => (days_before_month y m' + days_in_month y (Z.of_nat (S m')))%Z
  end.

Definition digit_value (c : N) : Z := Z.of_N c - 48.

(** The number of the day [y]-[m]-[d], counted from 1970-01-01. *)
Definition day_number (y m d : Z) : Z :=
  (DayFromYear y + days_before_month y (Z.to_nat m - 1) + d - 1)%Z.

Definition Date_parse_iso (s : jsstring) : option Z :=
  match s with
  | [y1; y2; y3; y4; h1; m1; m2; h2; d1; d2] =>
      if forallb is_digit [y1; y2; y3; y4; m1; m2; d1; d2]
         && N.eqb h1 45 && N.eqb h2 45
      then
        let y := (1000 * digit_value y1 + 100 * digit_value y2
                  + 10 * digit_value y3 + digit_value y4)%Z in
        let m := (10 * digit_value m1 + digit_value m2)%Z in
        let d := (10 * digit_value d1 + digit_value d2)%Z in
        if ((1 <=? m) && (m <=? 12) && (1 <=? d)
            && (d <=? days_in_month y m))%Z
        then Some (day_number y m d * 86400000)%Z
        else None
      else None
  | _ => None
  end.

(** ** Vocabulary of the specification *)

(** The address a redirect leads to. *)
Definition redirect_target (loc : jsstring) : jsstring :=
  if startsWith loc (str "http") then loc else str "https://fs.blog" ++ loc.

Section Chains.
Variable World : Type.
Variable https_get : jsstring -> World -> outcome * World.

(** [redirects_through n url w url' w']: starting in state [w], the
    request of [url] and the [n - 1] that follow are each answered by a
    3xx response with a [Location] header, and lead to [url'] in state
    [w']. *)
Inductive redirects_through
    : nat -> jsstring -> World -> jsstring -> World -> Prop :=
| through_none : forall url w, redirects_through 0 url w url w
| through_hop : forall n url w statusCode loc data w1 url' w',
    https_get url w = (Response statusCode (Some loc) data, w1) ->
    (300 <= statusCode < 400)%Z ->
    loc <> [] ->
    redirects_through n (redirect_target loc) w1 url' w' ->
    redirects_through (S n) url w url' w'.
End Chains.

(** The dates of a sequence of quotes, and the distinct ones. *)
Definition dates (qs : list Quote.t) : list jsstring := map Quote.date qs.

Definition distinct_dates (qs : list Quote.t) : list jsstring :=
  nodup jsstring_eq_dec (dates qs).

(** Dates are ISO strings, ordered as strings. [latest_date d qs]: [d] is
    the maximum date of [qs]. *)
Definition latest_date (d : jsstring) (qs : list Quote.t) : Prop :=
  In d (dates qs) /\ forall d', In d' (dates qs) -> str_leb d' d = true.

(** [among_latest n d qs]: [d] is one of the [n] largest distinct dates of
    [qs], that is, a date of [qs] with fewer than [n] distinct dates of
    [qs] after it. *)
Definition later_dates (d : jsstring) (qs : list Quote.t) : list jsstring :=
  filter (str_ltb d) (distinct_dates qs).

Definition among_latest (n : nat) (d : jsstring) (qs : list Quote.t) : Prop :=
  In d (dates qs) /\ length (later_dates d qs) < n.

(** The invariant of the store. *)
Definition store_invariant (st : Store.t) : Prop :=
  (Store.quotes st <> [] ->
   latest_date (Store.lastUpdated st) (Store.quotes st))
  /\ length (distinct_dates (Store.quotes st)) <= 12.

(** What a group of the section yields: one quote whose text is its
    surviving paragraphs joined by spaces, when it has any. *)
Definition contributes (group : jsstring) : bool :=
  0 <? length (group_parts group).

Definition quote_of_group (date edition group : jsstring) : Quote.t :=
  Quote.mk (join (str " ") (group_parts group)) edition date.

(** The candidates the orchestrator is to keep: the slug of the address
    parses to a date, and that date, as a [Date], is strictly after the
    watermark.  An Invalid Date is after nothing. *)
Definition newer_than_watermark (Date_parse : jsstring -> option Z)
    (lastUpdated url : jsstring) : bool :=
  match parseDateFromSlug (slug_of_url url) with
  | Some date => Date_gt (Date_parse date) (Date_parse lastUpdated)
  | None => false
  end.

(** The article of a kept candidate. *)
Definition article_of_url (url : jsstring) : Article.t :=
  Article.mk url
    (match parseDateFromSlug (slug_of_url url) with
     | Some date => date
     | None => []
     end)
    (slug_of_url url).

(** A text whose white space is collapsed: every white-space unit is a
    space and is not followed by another. *)
Fixpoint collapsed (s : jsstring) : Prop :=
  match s with
  | [] => True
  | c :: s' =>
      (is_space c = true ->
       c = 32%N /\ match s' with
                   | [] => True
                   | c' :: _ => is_space c' = false
                   end)
      /\ collapsed s'
  end.

(** A pattern that starts with the literal unit [c0]: it matches nowhere
    in a text without [c0]. *)
Definition starts_with_unit (c0 : N) (m : matcher) : Prop :=
  forall c rest pos cs, c <> c0 -> m (c :: rest) pos cs = None.

(** Strings of decimal digits. *)
Definition all_digits (s : jsstring) : Prop :=
  Forall (fun c => is_digit c = true) s.

(** ** Examples

    A small instance of everything the run depends on: a server that
    counts the requests it has answered, a page, an index, and a state
    file. *)

Module Example.

Definition quot : jsstring := [34%N].

Definition thought (date : jsstring) : Quote.t :=
  Quote.mk (str "Small habits compound.")
           (str "Brain Food " ++ [8211%N] ++ str " " ++ date) date.

(** A store of two editions, and a new quote of a third. *)
Definition state : Store.t :=
  Store.mk (str "2026-02-15")
           [thought (str "2026-02-08"); thought (str "2026-02-15")].

Definition newQuotes : list Quote.t := [thought (str "2026-02-22")].

(** The groups of a section and a page around them. *)
Definition group1 : jsstring :=
  str "<p>What you avoid <em>grows</em>.</p><p>Face it early.</p>".
Definition group2 : jsstring := str "<p class='q'>Patience is a form of action.</p>".
Definition group3 : jsstring := str "<p>Read less, reread more.</p>".
Definition group4 : jsstring := str "<p>Never reached by the extractor.</p>".
Definition short_group : jsstring := str "<p> &nbsp;ok </p><p>tiny</p>".

Definition section : jsstring :=
  group1 ++ str "<hr>" ++ group2 ++ str "<hr class='wp-block-separator'/>"
         ++ group3 ++ str "<hr />" ++ group4.

Definition page : jsstring :=
  str "<h1>Brain Food</h1><h2 class='wp-block-heading' "
    ++ anchor_attribute ++ str ">Tiny Thoughts</h2>" ++ section
    ++ str "<h2>Insights</h2><p>Something else entirely.</p>".

Definition link (slug : jsstring) : jsstring :=
  str "<a href=" ++ quot ++ str "https://fs.blog/brain-food/" ++ slug
    ++ str "/" ++ quot ++ str ">" ++ slug ++ str "</a>".

Definition index : jsstring :=
  str "<ul>" ++ link (str "february-22-2026") ++ link (str "february-15-2026")
    ++ link (str "february-22-2026") ++ link (str "february-8-2026")
    ++ str "</ul>".

(** The server: the index, one article, and an error page for the rest.
    Its state is the number of requests answered. *)
Definition https_get (url : jsstring) (w : nat) : outcome * nat :=
  (if streq url index_url then Response 200 None index
   else if streq url (str "https://fs.blog/brain-food/february-22-2026/")
        then Response 200 None page
        else Response 404 None (str "<h1>Not found</h1>"),
   S w).

(** A server that redirects the first [n] requests and then answers, and
    one that redirects every address to itself. *)
Definition redirecting (n : nat) (url : jsstring) (w : nat) : outcome * nat :=
  (if w <? n then Response 301 (Some (str "/brain-food/")) []
   else Response 200 None (str "<html>Brain Food</html>"),
   S w).

Definition looping (url : jsstring) (w : nat) : outcome * nat :=
  (Response 302 (Some url) [], S w).

(** A serialiser in the layout of [JSON.stringify(output, null, 2)], exact
    on strings that need no escape, and a parser that reads back the two
    files of the examples. *)
Definition json_string (s : jsstring) : jsstring := quot ++ s ++ quot.

Definition json_quote (q : Quote.t) : jsstring :=
  str "    {" ++ [10%N]
    ++ str "      " ++ json_string (str "text") ++ str ": "
    ++ json_string (Quote.text q) ++ str "," ++ [10%N]
    ++ str "      " ++ json_string (str "edition") ++ str ": "
    ++ json_string (Quote.edition q) ++ str "," ++ [10%N]
    ++ str "      " ++ json_string (str "date") ++ str ": "
    ++ json_string (Quote.date q) ++ [10%N]
    ++ str "    }".

Definition JSON_stringify (st : Store.t) : jsstring :=
  str "{" ++ [10%N]
    ++ str "  " ++ json_string (str "lastUpdated") ++ str ": "
    ++ json_string (Store.lastUpdated st) ++ str "," ++ [10%N]
    ++ str "  " ++ json_string (str "quotes") ++ str ": "
    ++ match Store.quotes st with
       | [] => str "[]"
       | qs => str "[" ++ [10%N]
                 ++ join (str "," ++ [10%N]) (map json_quote qs)
                 ++ [10%N] ++ str "  ]"
       end
    ++ [10%N] ++ str "}".

(** The state after the article of 2026-02-22 has been merged. *)
Definition state_after : Store.t :=
  Store.mk (str "2026-02-22")
           (Store.quotes state ++ [thought (str "2026-02-22")]).

Definition JSON_parse (content : jsstring) : option Store.t :=
  if streq content (JSON_stringify state) then Some state
  else if streq content (JSON_stringify state_after) then Some state_after
  else None.

(** What a first run, without a state file, writes. *)
Definition first_written : jsstring :=
  match main https_get Date_parse_iso JSON_parse JSON_stringify None 0 with
  | (inr written, _) => written
  | (inl _, _) => []
  end.

(** An index page that lists nothing after 2026-02-22. *)
Definition old_index : jsstring :=
  str "<ul>" ++ link (str "february-22-2026") ++ link (str "february-15-2026")
    ++ str "</ul>".

Definition quiet_get (url : jsstring) (w : nat) : outcome * nat :=
  (if streq url index_url then Response 200 None old_index
   else Response 404 None (str "<h1>Not found</h1>"),
   S w).

End Example.

(** A word with its first letter in upper case. *)
Definition capitalised (s : jsstring) : jsstring :=
  match s with
  | [] => []
  | c :: rest => toUpperCase_unit c :: rest
  end.

(** [p] occurs in [s]. *)
Definition occurs_in (p s : jsstring) : Prop :=
  exists a b, s = a ++ p ++ b.

(** A network that counts the requests made to it. *)
Definition counting {World : Type}
    (get : jsstring -> World -> outcome * World)
    (url : jsstring) (s : World * nat) : outcome * (World * nat) :=
  let (o, w') := get url (fst s) in (o, (w', S (snd s))).

(** The slugs the link pattern lets through: a lower-case letter, at least
    one more letter, digit or hyphen, a hyphen and four digits. *)
Definition link_slug (slug : jsstring) : Prop :=
  exists first body year,
    slug = first :: body ++ str "-" ++ year
    /\ is_lower first = true
    /\ body <> []
    /\ Forall (fun c => is_slug_unit c = true) body
    /\ all_digits year /\ length year = 4.

(** ** The reader of the Goodreads feeds

    The second script of the repository reads two RSS feeds and lists the
    books in them.  [getTag] builds its pattern from the name of the tag;
    the script passes the names [title], [author_name], [book_id] and
    [user_rating], which hold no character with a meaning in a pattern,
    so the name stands for itself. *)

Module Books.

(** [(?:literal)?], greedy: with the literal first, without it when the
    rest fails. *)
Definition opt_lit (p : jsstring) (k : matcher) : matcher :=
  fun s pos c =>
    match lit p k s pos c with
    | Some r => Some r
    | None => k s pos c
    end.

(** [s.match(re)] without the [g] flag: capture group 1 of the leftmost
    match, [None] when nothing matches. *)
Fixpoint match_first (m : matcher) (s : jsstring) : option (option jsstring) :=
  match exec_at m s with
  | Some (_, cap) => Some cap
  | None =>
      match s with
      | [] => None
      | _ :: s' => match_first m s'
      end
  end.

(** The names [getTag] is called with are made of letters, digits and
    underscores.  Such a name stands for itself in the source of a
    pattern, so that the pattern built from it matches the tags as they
    are written. *)
Definition is_name_unit (c : N) : bool :=
  is_lower c || ((65 <=? c)%N && (c <=? 90)%N) || is_digit c || N.eqb c 95.

Definition tag_name (tag : jsstring) : Prop :=
  Forall (fun c => is_name_unit c = true) tag.

Definition open_tag (tag : jsstring) : jsstring := str "<" ++ tag ++ str ">".
Definition close_tag (tag : jsstring) : jsstring := str "</" ++ tag ++ str ">".
Definition cdata_open : jsstring := str "<![CDATA[".
Definition cdata_close : jsstring := str "]]>".

(** [<tag>(?:<!\[CDATA\[)?([\s\S]*?)(?:\]\]>)?<\/tag>], for a [tag_name]. *)
Definition tag_pattern (tag : jsstring) : matcher :=
  lit (open_tag tag)
    (opt_lit cdata_open
       (gopen
          (lazy_star any_unit
             (gclose (opt_lit cdata_close (lit (close_tag tag) done)))))).

Definition getTag (xml tag : jsstring) : jsstring :=
  match match_first (tag_pattern tag) xml with
  | Some (Some text) => trim text
  | _ => []
  end.

(** [/<item>[\s\S]*?<\/item>/g]; the group stands for the whole match,
    which is what [xml.match] returns with the [g] flag. *)
Definition item_pattern : matcher :=
  gopen (lit (str "<item>")
           (lazy_star any_unit (lit (str "</item>") (gclose done)))).

Record Item (number : Type) : Type := mkItem {
  title : jsstring;
  author : jsstring;
  url : jsstring;
  rating : number
}.

Definition book_url (bookId : jsstring) : jsstring :=
  str "https://www.goodreads.com/book/show/" ++ bookId.

(** A string as a condition: not empty. *)
Definition nonempty (s : jsstring) : bool :=
  match s with [] => false | _ :: _ => true end.

Section ParseItems.
(** [parseInt] yields a number; which, for which string, is left to the
    language: the script only tests it, with [||]. *)
Variable number : Type.
Variable parseInt : jsstring -> number.
(** [!n]: true on [NaN] and on zero. *)
Variable falsy : number -> bool.
Variable zero : number.

(** The body of the loop of [parseItems] on one block. *)
Definition parseItem (block : jsstring) : list (Item number) :=
  let title := getTag block (str "title") in
  let author := getTag block (str "author_name") in
  let bookId := getTag block (str "book_id") in
  let rating :=
    let n := parseInt (getTag block (str "user_rating")) in
    if falsy n then zero else n in
  if nonempty title && nonempty author && nonempty bookId
  then [mkItem title author (book_url bookId) rating]
  else [].

Definition parseItems (xml : jsstring) : list (Item number) :=
  flat_map parseItem (exec_all item_pattern xml).

End ParseItems.

End Books.

(** Further examples: a page without the section, and an entry of a
    feed. *)
Module Example2.

Definition plain_page : jsstring :=
  str "<h1>Brain Food</h1><h2>Insights</h2><p>No thoughts this week.</p>".

Definition feed_item : jsstring :=
  str "<item><guid>1</guid><title><![CDATA[East of <Eden>]]></title>"
    ++ str "<author_name>John Steinbeck</author_name>"
    ++ str "<book_id> 4406 </book_id><user_rating>5</user_rating></item>".

Definition feed_before_title : jsstring := str "<item><guid>1</guid>".

Definition feed_after_title : jsstring :=
  str "<author_name>John Steinbeck</author_name>"
    ++ str "<book_id> 4406 </book_id><user_rating>5</user_rating></item>".

Definition feed_before_id : jsstring :=
  str "<item><guid>1</guid><title><![CDATA[East of <Eden>]]></title>"
    ++ str "<author_name>John Steinbeck</author_name>".

Definition feed_after_id : jsstring :=
  str "<user_rating>5</user_rating></item>".

End Example2.

(** The pattern [m] matches somewhere in [s]. *)
Fixpoint has_match (m : matcher) (s : jsstring) : bool :=
  match exec_at m s with
  | Some _ => true
  | None =>
      match s with
      | [] => false
      | _ :: s' => has_match m s'
      end
  end.

(** A text without markup: it holds no tag, no numeric entity and no named
    entity. *)
Definition markup_free (s : jsstring) : Prop :=
  has_match re_tag s = false
  /\ has_match re_numeric s = false
  /\ has_match re_named s = false.

(** The replacements of lines 29-42, in their order, and their
    application one after the other. *)
Definition markup_replacements : list (matcher * jsstring) :=
  [ (re_tag, []);
    (lit (str "&amp;") done, str "&");
    (lit (str "&lt;") done, str "<");
    (lit (str "&gt;") done, str ">");
    (lit (str "&quot;") done, [34%N]);
    (re_either (str "&#8220;") (str "&ldquo;"), [8220%N]);
    (re_either (str "&#8221;") (str "&rdquo;"), [8221%N]);
    (re_either (str "&#8216;") (str "&lsquo;"), [8216%N]);
    (re_either (str "&#8217;") (str "&rsquo;"), [8217%N]);
    (re_either (str "&#8212;") (str "&mdash;"), [8212%N]);
    (re_either (str "&#8211;") (str "&ndash;"), [8211%N]);
    (lit (str "&nbsp;") done, str " ");
    (re_numeric, []);
    (re_named, []) ].

Definition replace_each (steps : list (matcher * jsstring)) (s : jsstring)
    : jsstring :=
  fold_left (fun s step => replace_all (fst step) (snd step) s) steps s.

(** A replacement that shortens the text: every match is longer than what
    replaces it. *)
Definition shortening (step : matcher * jsstring) : Prop :=
  length (snd step) <= 1
  /\ forall s n cap,
       exec_at (fst step) s = Some (n, cap) ->
       length (snd step) < n <= length s.

(** The outcomes of fetching the pages of the articles, one after the
    other. *)
Fixpoint fetch_each {World : Type}
    (get : jsstring -> World -> outcome * World)
    (articles : list Article.t) (w : World)
    : list (Article.t * (error + jsstring)) * World :=
  match articles with
  | [] => ([], w)
  | a :: rest =>
      let (page, w1) := fetchUrl get (Article.url a) 0 w in
      let (pages, w2) := fetch_each get rest w1 in
      ((a, page) :: pages, w2)
  end.

(** * Verified properties *)

(** ** The fetcher *)

Section FetcherFacts.
Variable World : Type.
Variable https_get : jsstring -> World -> outcome * World.

Local Abbreviation fetch := (fetchUrl https_get).
Local Abbreviation fetch_rec := (fetchUrl_rec https_get).

Lemma fetchUrl_rec_0 url redirects w :
  fetch_rec 0 url redirects w = (inl TooManyRedirects, w).
Proof. simpl. destruct (5 <? redirects); reflexivity. Qed.

Lemma fetchUrl_rec_S budget url redirects w :
  fetch_rec (S budget) url redirects w =
    if 5 <? redirects then (inl TooManyRedirects, w)
    else
      match https_get url w with
      | (Errored msg, w') => (inl (NetworkError msg), w')
      | (Response statusCode location data, w') =>
          if (300 <=? statusCode)%Z && (statusCode <? 400)%Z
             && header_truthy location
          then fetch_rec budget
                 (redirect_target
                    match location with Some l => l | None => [] end)
                 (redirects + 1) w'
          else (inr data, w')
      end.
Proof. simpl. destruct (5 <? redirects); reflexivity. Qed.

(** Any budget of at least [6 - redirects] gives the result of
    [fetchUrl]: the recursion never runs out before the test
    [redirects > 5] fires. *)
Lemma fetchUrl_rec_enough (budget : nat) :
  forall url redirects w,
    6 - redirects <= budget ->
    fetch_rec budget url redirects w = fetch url redirects w.
Proof.
  unfold fetchUrl.
  induction budget as [|b IH]; intros url r w Hb.
  - replace (6 - r) with 0 by lia. reflexivity.
  - destruct (Nat.ltb_spec 5 r) as [Hr|Hr].
    + replace (6 - r) with 0 by lia.
      rewrite fetchUrl_rec_0, fetchUrl_rec_S.
      apply Nat.ltb_lt in Hr. rewrite Hr. reflexivity.
    + replace (6 - r) with (S (5 - r)) by lia.
      rewrite !fetchUrl_rec_S.
      destruct (5 <? r); [reflexivity|].
      destruct (https_get url w) as [[msg|st loc data] w1]; [reflexivity|].
      destruct ((300 <=? st)%Z && (st <? 400)%Z && header_truthy loc);
        [|reflexivity].
      rewrite IH by lia.
      replace (5 - r) with (6 - (r + 1)) by lia. reflexivity.
Qed.

(** One call of [fetchUrl] within the budget, as the source reads. *)
Lemma fetchUrl_step url redirects w :
  redirects <= 5 ->
  fetch url redirects w =
    match https_get url w with
    | (Errored msg, w') => (inl (NetworkError msg), w')
    | (Response statusCode location data, w') =>
        if (300 <=? statusCode)%Z && (statusCode <? 400)%Z
           && header_truthy location
        then fetch
               (redirect_target
                  match location with Some l => l | None => [] end)
               (redirects + 1) w'
        else (inr data, w')
    end.
Proof.
  intros Hr. unfold fetchUrl at 1.
  replace (6 - redirects) with (S (5 - redirects)) by lia.
  rewrite fetchUrl_rec_S.
  apply Nat.ltb_ge in Hr. rewrite Hr.
  destruct (https_get url w) as [[msg|st loc data] w1]; [reflexivity|].
  destruct ((300 <=? st)%Z && (st <? 400)%Z && header_truthy loc);
    [|reflexivity].
  apply Nat.ltb_ge in Hr.
  rewrite fetchUrl_rec_enough by lia. reflexivity.
Qed.

Lemma fetchUrl_over_budget url redirects w :
  5 < redirects -> fetch url redirects w = (inl TooManyRedirects, w).
Proof.
  intros Hr. unfold fetchUrl.
  replace (6 - redirects) with 0 by lia. apply fetchUrl_rec_0.
Qed.

(** A run of [n] redirects moves the call [n] levels down. *)
Lemma fetchUrl_through n :
  forall url w url' w' redirects,
    redirects_through https_get n url w url' w' ->
    redirects + n <= 6 ->
    fetch url redirects w = fetch url' (redirects + n) w'.
Proof.
  induction n as [|n IH]; intros url w url' w' r Hch Hle.
  - inversion Hch; subst. rewrite Nat.add_0_r. reflexivity.
  - inversion Hch as [|n0 u0 w0 st loc data w1 u1 w2 Hget Hst Hloc Hrest];
      subst.
    rewrite fetchUrl_step by lia. rewrite Hget.
    replace ((300 <=? st)%Z && (st <? 400)%Z && header_truthy (Some loc))
      with true.
    + rewrite (IH _ _ _ _ (r + 1) Hrest) by lia.
      f_equal. lia.
    + symmetry. rewrite !andb_true_iff. repeat split.
      * apply Z.leb_le; lia.
      * apply Z.ltb_lt; lia.
      * destruct loc; [congruence|reflexivity].
Qed.

(** C7. The fetcher follows up to 5 redirects: after at most five (so
    after four) 3xx responses with a Location header, a 200 response
    resolves the fetch with its body; six redirects in a row reject it
    with the redirect-budget error, on a cycle too, after exactly six
    requests. *)
Theorem fetchUrl_redirect_budget :
  (forall n url w url' w' location data w'',
      n <= 5 ->
      redirects_through https_get n url w url' w' ->
      https_get url' w' = (Response 200 location data, w'') ->
      fetch url 0 w = (inr data, w''))
  /\ (forall url w url6 w6,
         redirects_through https_get 6 url w url6 w6 ->
         fetch url 0 w = (inl TooManyRedirects, w6)).
Proof.
  split.
  - intros n url w url' w' location data w'' Hn Hch Hget.
    rewrite (@fetchUrl_through n _ _ _ _ 0 Hch) by lia.
    rewrite fetchUrl_step by lia. rewrite Hget. reflexivity.
  - intros url w url6 w6 Hch.
    rewrite (@fetchUrl_through 6 _ _ _ _ 0 Hch) by lia.
    apply fetchUrl_over_budget. lia.
Qed.

(** C10. A response that is not a 3xx with a Location header resolves
    the fetch with its body, whatever its status: a 4xx or 5xx error
    page reaches the caller as page content. *)
Theorem fetchUrl_resolves_any_status :
  forall url redirects w statusCode location data w',
    redirects <= 5 ->
    https_get url w = (Response statusCode location data, w') ->
    ~ ((300 <= statusCode < 400)%Z /\ header_truthy location = true) ->
    fetch url redirects w = (inr data, w').
Proof.
  intros url r w st loc data w' Hr Hget Hnot.
  rewrite fetchUrl_step by exact Hr. rewrite Hget.
  destruct ((300 <=? st)%Z && (st <? 400)%Z && header_truthy loc) eqn:E;
    [|reflexivity].
  exfalso. apply Hnot.
  rewrite !andb_true_iff in E. destruct E as [[H1 H2] H3].
  apply Z.leb_le in H1. apply Z.ltb_lt in H2. auto.
Qed.

End FetcherFacts.

(** ** The order of strings *)

Lemma str_compare_refl a : str_compare a a = Eq.
Proof.
  induction a as [|x a IH]; simpl; [reflexivity|].
  rewrite N.compare_refl. exact IH.
Qed.

Lemma str_compare_eq a : forall b, str_compare a b = Eq -> a = b.
Proof.
  induction a as [|x a IH]; intros [|y b] H; simpl in H;
    try discriminate; [reflexivity|].
  destruct (N.compare_spec x y) as [E|E|E]; try discriminate.
  subst. f_equal. apply IH, H.
Qed.

Lemma str_compare_antisym a :
  forall b, str_compare b a = CompOpp (str_compare a b).
Proof.
  induction a as [|x a IH]; intros [|y b]; simpl; try reflexivity.
  rewrite (N.compare_antisym x y).
  destruct (N.compare x y); simpl; auto.
Qed.

Lemma str_compare_lt_trans a :
  forall b c, str_compare a b = Lt -> str_compare b c = Lt ->
              str_compare a c = Lt.
Proof.
  induction a as [|x a IH]; intros [|y b] [|z c] H1 H2; simpl in *;
    try discriminate; try reflexivity.
  destruct (N.compare_spec x y) as [E1|E1|E1]; try discriminate;
    destruct (N.compare_spec y z) as [E2|E2|E2]; try discriminate; subst.
  - rewrite N.compare_refl. eapply IH; eassumption.
  - apply N.compare_lt_iff in E2. rewrite E2. reflexivity.
  - apply N.compare_lt_iff in E1. rewrite E1. reflexivity.
  - assert (E : (x < z)%N) by lia.
    apply N.compare_lt_iff in E. rewrite E. reflexivity.
Qed.

Lemma str_ltb_trans a b c :
  str_ltb a b = true -> str_ltb b c = true -> str_ltb a c = true.
Proof.
  unfold str_ltb. intros H1 H2.
  destruct (str_compare a b) eqn:E1; try discriminate.
  destruct (str_compare b c) eqn:E2; try discriminate.
  rewrite (str_compare_lt_trans _ _ _ E1 E2). reflexivity.
Qed.

Lemma str_ltb_irrefl a : str_ltb a a = false.
Proof. unfold str_ltb. rewrite str_compare_refl. reflexivity. Qed.

Lemma str_leb_refl a : str_leb a a = true.
Proof. unfold str_leb. rewrite str_compare_refl. reflexivity. Qed.

Lemma str_leb_total a b : str_leb a b = true \/ str_leb b a = true.
Proof.
  unfold str_leb. rewrite (str_compare_antisym a b).
  destruct (str_compare a b); simpl; auto.
Qed.

Lemma str_leb_antisym a b :
  str_leb a b = true -> str_leb b a = true -> a = b.
Proof.
  unfold str_leb. rewrite (str_compare_antisym a b).
  destruct (str_compare a b) eqn:E; simpl; try discriminate.
  intros _ _. apply str_compare_eq, E.
Qed.

Lemma str_leb_cases a b :
  str_leb a b = true <-> a = b \/ str_ltb a b = true.
Proof.
  unfold str_leb, str_ltb. split.
  - destruct (str_compare a b) eqn:E; try discriminate; intros _.
    + left. apply str_compare_eq, E.
    + right. reflexivity.
  - intros [-> |H].
    + rewrite str_compare_refl. reflexivity.
    + destruct (str_compare a b); try discriminate. reflexivity.
Qed.

Lemma str_ltb_leb a b : str_ltb a b = true -> str_leb a b = true.
Proof. intros H. apply str_leb_cases. auto. Qed.

Lemma str_ltb_not_leb a b : str_ltb a b = true -> str_leb b a = false.
Proof.
  unfold str_ltb, str_leb. rewrite (str_compare_antisym a b).
  destruct (str_compare a b); simpl; congruence.
Qed.

Lemma str_leb_trans a b c :
  str_leb a b = true -> str_leb b c = true -> str_leb a c = true.
Proof.
  rewrite !str_leb_cases. intros [-> |H1] [-> |H2]; auto.
  right. eapply str_ltb_trans; eassumption.
Qed.

Lemma streq_true a b : streq a b = true <-> a = b.
Proof.
  unfold streq. destruct (jsstring_eq_dec a b); split; congruence.
Qed.

(** ** Sets and sorting *)

Lemma Set_has_In s x : Set_has s x = true <-> In x s.
Proof.
  unfold Set_has. rewrite existsb_exists. split.
  - intros [y [Hy E]]. apply streq_true in E. subst. exact Hy.
  - intros H. exists x. split; [exact H|]. apply streq_true. reflexivity.
Qed.

Lemma Set_add_In seen x y : In y (Set_add seen x) <-> In y seen \/ y = x.
Proof.
  unfold Set_add. destruct (existsb (streq x) seen) eqn:E.
  - apply (Set_has_In seen x) in E. split; [auto|].
    intros [H| ->]; assumption.
  - rewrite in_app_iff. simpl. intuition congruence.
Qed.

Lemma Set_add_NoDup seen x : NoDup seen -> NoDup (Set_add seen x).
Proof.
  intros H. unfold Set_add. destruct (existsb (streq x) seen) eqn:E.
  - exact H.
  - apply NoDup_rev in H. rewrite <- (rev_involutive (seen ++ [x])).
    apply NoDup_rev. rewrite rev_app_distr. simpl. constructor; [|exact H].
    rewrite <- in_rev. intros Hin. apply (Set_has_In seen x) in Hin.
    unfold Set_has in Hin. congruence.
Qed.

Lemma Set_of_fold_spec xs :
  forall seen,
    NoDup seen ->
    NoDup (fold_left Set_add xs seen)
    /\ forall y, In y (fold_left Set_add xs seen) <-> In y seen \/ In y xs.
Proof.
  induction xs as [|x xs IH]; intros seen Hnd; simpl.
  - split; [exact Hnd|]. intuition.
  - destruct (IH (Set_add seen x) (Set_add_NoDup x Hnd)) as [H1 H2].
    split; [exact H1|]. intros y. rewrite H2, Set_add_In. intuition.
Qed.

Lemma Set_of_NoDup xs : NoDup (Set_of xs).
Proof. apply (Set_of_fold_spec xs (seen := [])). constructor. Qed.

Lemma Set_of_In xs y : In y (Set_of xs) <-> In y xs.
Proof.
  unfold Set_of.
  destruct (Set_of_fold_spec xs (seen := []) (NoDup_nil _)) as [_ H].
  rewrite H. simpl. intuition.
Qed.

Section SortingFacts.
Variable A : Type.
Variable le : A -> A -> bool.
Hypothesis le_total : forall a b, le a b = true \/ le b a = true.
Hypothesis le_trans :
  forall a b c, le a b = true -> le b c = true -> le a c = true.

Lemma insert_sorted_perm x l : Permutation (insert_sorted le x l) (x :: l).
Proof.
  induction l as [|y l IH]; simpl; [reflexivity|].
  destruct (le x y); [reflexivity|].
  rewrite IH. apply perm_swap.
Qed.

Lemma sort_perm l : Permutation (sort le l) l.
Proof.
  induction l as [|x l IH]; simpl; [reflexivity|].
  rewrite insert_sorted_perm. constructor. exact IH.
Qed.

Lemma insert_sorted_sorted x l :
  StronglySorted (fun a b => le a b = true) l ->
  StronglySorted (fun a b => le a b = true) (insert_sorted le x l).
Proof.
  induction l as [|y l IH]; intros Hs; simpl.
  - repeat constructor.
  - apply StronglySorted_inv in Hs. destruct Hs as [Hl Hy].
    destruct (le x y) eqn:E.
    + constructor; [constructor; assumption|].
      constructor; [exact E|].
      rewrite Forall_forall in *. intros z Hz.
      apply le_trans with y; auto.
    + constructor; [apply IH, Hl|].
      rewrite Forall_forall in *. intros z Hz.
      apply (Permutation_in _ (insert_sorted_perm x l)) in Hz.
      destruct Hz as [<-|Hz]; [|auto].
      destruct (le_total x y) as [H|H]; congruence.
Qed.

Lemma sort_sorted l : StronglySorted (fun a b => le a b = true) (sort le l).
Proof.
  induction l as [|x l IH]; simpl; [constructor|].
  apply insert_sorted_sorted, IH.
Qed.
End SortingFacts.

(** ** Merge and retention *)

Lemma sorted_strict (l : list jsstring) :
  StronglySorted (fun a b => str_leb a b = true) l ->
  NoDup l ->
  StronglySorted (fun a b => str_ltb a b = true) l.
Proof.
  induction l as [|x l IH]; intros Hs Hnd; [constructor|].
  apply StronglySorted_inv in Hs. destruct Hs as [Hl Hx].
  inversion Hnd as [|x0 l0 Hnin Hnd']; subst.
  constructor; [apply IH; assumption|].
  rewrite Forall_forall in *. intros y Hy.
  destruct (proj1 (str_leb_cases x y) (Hx y Hy)) as [E|E]; [|exact E].
  subst. contradiction.
Qed.

Lemma slice_from_last {A : Type} (l : list A) (n : nat) :
  0 < n -> slice_from l (- Z.of_nat n) = skipn (length l - n) l.
Proof.
  intros Hn. unfold slice_from, slice, slice_index.
  destruct (Z.ltb_spec (- Z.of_nat n) 0) as [_|H]; [|lia].
  destruct (Z.ltb_spec (Z.of_nat (length l)) 0) as [H|_]; [lia|].
  rewrite Z.min_id.
  replace (Z.to_nat (Z.max (Z.of_nat (length l) + - Z.of_nat n) 0))
    with (length l - n) by lia.
  apply firstn_all2. rewrite length_skipn. lia.
Qed.

(** In a strictly increasing list, the last [n] elements are those with
    fewer than [n] elements after them. *)
Lemma strict_sorted_last_iff (n : nat) (l : list jsstring) :
  StronglySorted (fun a b => str_ltb a b = true) l ->
  forall d,
    In d (skipn (length l - n) l)
    <-> In d l /\ length (filter (str_ltb d) l) < n.
Proof.
  induction l as [|x l IH]; intros Hs d.
  - simpl. intuition.
  - apply StronglySorted_inv in Hs. destruct Hs as [Hl Hx].
    rewrite Forall_forall in Hx. specialize (IH Hl d).
    assert (Hlen : length (filter (str_ltb d) l) <= length l)
      by apply filter_length_le.
    assert (Hxd : In d l -> str_ltb d x = false).
    { intros Hd. pose proof (str_ltb_not_leb _ _ (Hx d Hd)) as Hf.
      unfold str_leb in Hf. unfold str_ltb.
      destruct (str_compare d x); congruence. }
    assert (Hall : filter (str_ltb x) l = l).
    { clear -Hx. induction l as [|y l IHl]; [reflexivity|]. simpl.
      rewrite (Hx y) by (left; reflexivity). f_equal.
      apply IHl. intros z Hz. apply Hx. right. exact Hz. }
    assert (Hnx : ~ In x l).
    { intros Hin. specialize (Hx x Hin). rewrite str_ltb_irrefl in Hx.
      discriminate. }
    simpl length at 1.
    destruct (Nat.le_gt_cases (S (length l)) n) as [Hle|Hgt].
    + replace (S (length l) - n) with 0 by lia.
      replace (length l - n) with 0 in IH by lia. simpl skipn in *.
      split; [|tauto]. intros Hin. split; [exact Hin|].
      simpl. destruct Hin as [E|Hd];
        [subst d; rewrite str_ltb_irrefl | rewrite (Hxd Hd)]; lia.
    + replace (S (length l) - n) with (S (length l - n)) by lia.
      simpl skipn. rewrite IH. simpl In. split.
      * intros [Hd Hc]. split; [auto|]. simpl.
        rewrite (Hxd Hd). exact Hc.
      * intros [[E|Hd] Hc].
        -- subst d. simpl in Hc. rewrite str_ltb_irrefl, Hall in Hc. lia.
        -- split; [exact Hd|]. simpl in Hc. rewrite (Hxd Hd) in Hc. exact Hc.
Qed.

(** The last element of an increasing list is its maximum. *)
Lemma sorted_last_max (l : list jsstring) :
  StronglySorted (fun a b => str_leb a b = true) l ->
  l <> [] ->
  In (nth (length l - 1) l []) l
  /\ forall d, In d l -> str_leb d (nth (length l - 1) l []) = true.
Proof.
  induction l as [|x l IH]; intros Hs Hne; [congruence|].
  apply StronglySorted_inv in Hs. destruct Hs as [Hl Hx].
  rewrite Forall_forall in Hx.
  destruct l as [|y l].
  - simpl. split; [auto|]. intros d [<-|[]]. apply str_leb_refl.
  - destruct (IH Hl) as [Hin Hmax]; [discriminate|].
    replace (length (x :: y :: l) - 1) with (S (length (y :: l) - 1))
      by (simpl; lia).
    change (nth (S (length (y :: l) - 1)) (x :: y :: l) [])
      with (nth (length (y :: l) - 1) (y :: l) []).
    split; [right; exact Hin|].
    intros d [<-|Hd]; [|apply Hmax, Hd].
    apply Hx, Hin.
Qed.

Lemma slice_last_12 {A : Type} (l : list A) :
  slice_from l (-12) = skipn (length l - 12) l.
Proof.
  change (-12)%Z with (- Z.of_nat 12)%Z. apply slice_from_last. lia.
Qed.

Lemma filter_perm {A : Type} (f : A -> bool) (l l' : list A) :
  Permutation l l' -> Permutation (filter f l) (filter f l').
Proof.
  induction 1 as [|x l l' _ IH|x y l|l l' l'' _ IH1 _ IH2]; simpl.
  - constructor.
  - destruct (f x); [constructor|]; exact IH.
  - destruct (f x), (f y); try reflexivity. apply perm_swap.
  - etransitivity; eassumption.
Qed.

Section MergeFacts.
Variable existing : Store.t.
Variable newQuotes : list Quote.t.

Local Abbreviation allQuotes := (Store.quotes existing ++ newQuotes).
Local Abbreviation uniqueDates :=
  (sort str_leb (Set_of (map Quote.date allQuotes))).

Lemma uniqueDates_In d : In d uniqueDates <-> In d (dates allQuotes).
Proof.
  unfold dates. split; intros H.
  - apply Set_of_In. eapply Permutation_in; [apply sort_perm|exact H].
  - eapply Permutation_in; [symmetry; apply sort_perm|].
    apply Set_of_In, H.
Qed.

Lemma uniqueDates_NoDup : NoDup uniqueDates.
Proof.
  eapply Permutation_NoDup; [symmetry; apply sort_perm|].
  apply Set_of_NoDup.
Qed.

Lemma uniqueDates_sorted :
  StronglySorted (fun a b => str_leb a b = true) uniqueDates.
Proof. apply sort_sorted; [apply str_leb_total|apply str_leb_trans]. Qed.

Lemma uniqueDates_distinct :
  Permutation uniqueDates (distinct_dates allQuotes).
Proof.
  apply NoDup_Permutation.
  - apply uniqueDates_NoDup.
  - apply NoDup_nodup.
  - intros d. unfold distinct_dates. rewrite nodup_In.
    apply uniqueDates_In.
Qed.

Lemma uniqueDates_empty : uniqueDates = [] <-> allQuotes = [].
Proof.
  split; intros H.
  - destruct allQuotes as [|q l] eqn:E; [reflexivity|]. exfalso.
    assert (Hin : In (Quote.date q)
                     (sort str_leb (Set_of (map Quote.date (q :: l))))).
    { eapply Permutation_in; [symmetry; apply sort_perm|].
      apply Set_of_In. left. reflexivity. }
    rewrite H in Hin. destruct Hin.
  - rewrite H. reflexivity.
Qed.

(** The quotes kept are those of the twelve latest dates. *)
Lemma merge_quotes_iff q :
  In q (Store.quotes (merge existing newQuotes))
  <-> In q allQuotes /\ among_latest 12 (Quote.date q) allQuotes.
Proof.
  unfold merge. cbv zeta. simpl Store.quotes at 1.
  rewrite filter_In, Set_has_In.
  rewrite slice_last_12.
  rewrite (strict_sorted_last_iff 12
             (sorted_strict uniqueDates_sorted uniqueDates_NoDup)).
  rewrite uniqueDates_In. unfold among_latest, later_dates.
  rewrite (Permutation_length
             (filter_perm (str_ltb (Quote.date q))
                                 uniqueDates_distinct)).
  tauto.
Qed.

Lemma merge_lastUpdated_empty :
  allQuotes = [] ->
  Store.lastUpdated (merge existing newQuotes) = Store.lastUpdated existing.
Proof.
  intros H. unfold merge. cbv zeta. simpl Store.lastUpdated at 1.
  rewrite (proj2 uniqueDates_empty H). reflexivity.
Qed.

Lemma merge_lastUpdated_latest :
  allQuotes <> [] ->
  latest_date (Store.lastUpdated (merge existing newQuotes)) allQuotes.
Proof.
  intros H. unfold merge. cbv zeta. simpl Store.lastUpdated at 1.
  assert (Hne : uniqueDates <> []).
  { intros E. apply H, uniqueDates_empty, E. }
  destruct (sorted_last_max uniqueDates_sorted Hne) as [Hin Hmax].
  destruct uniqueDates as [|d0 l0] eqn:E; [congruence|].
  change (0 <? length (d0 :: l0)) with true. cbv iota.
  split.
  - apply uniqueDates_In. rewrite E. exact Hin.
  - intros d' Hd'. apply Hmax. rewrite <- E. apply uniqueDates_In, Hd'.
Qed.

Lemma merge_distinct_bound :
  length (distinct_dates (Store.quotes (merge existing newQuotes))) <= 12.
Proof.
  transitivity (length (skipn (length uniqueDates - 12) uniqueDates)).
  - apply NoDup_incl_length; [apply NoDup_nodup|].
    intros d Hd. unfold distinct_dates in Hd. rewrite nodup_In in Hd.
    unfold dates in Hd. apply in_map_iff in Hd.
    destruct Hd as [q [<- Hq]].
    unfold merge in Hq. cbv zeta in Hq. simpl Store.quotes in Hq.
    rewrite filter_In, Set_has_In in Hq.
    rewrite slice_last_12 in Hq.
    apply Hq.
  - rewrite length_skipn. lia.
Qed.

End MergeFacts.

(** C1. The merge step keeps at most 12 distinct dates, every quote it
    keeps has one of the 12 largest distinct dates of the combined
    sequence of old and new quotes, and the new watermark is the maximum
    date of that combined sequence, or the previous watermark when the
    sequence is empty. *)
Theorem merge_retention_and_watermark :
  forall (existing : Store.t) (newQuotes : list Quote.t),
    let allQuotes := Store.quotes existing ++ newQuotes in
    let output := merge existing newQuotes in
    length (distinct_dates (Store.quotes output)) <= 12
    /\ (forall q, In q (Store.quotes output) ->
                  In q allQuotes /\ among_latest 12 (Quote.date q) allQuotes)
    /\ (allQuotes <> [] -> latest_date (Store.lastUpdated output) allQuotes)
    /\ (allQuotes = [] ->
        Store.lastUpdated output = Store.lastUpdated existing).
Proof.
  intros existing newQuotes allQuotes output.
  split; [apply merge_distinct_bound|].
  split; [intros q Hq; apply merge_quotes_iff, Hq|].
  split; [apply merge_lastUpdated_latest|apply merge_lastUpdated_empty].
Qed.

(** No date comes after a maximum date. *)
Lemma latest_date_no_later d qs :
  latest_date d qs -> later_dates d qs = [].
Proof.
  intros [_ Hmax]. unfold later_dates.
  rewrite (filter_ext_in (str_ltb d) (fun _ => false)).
  - apply filter_false.
  - intros d' Hd'. unfold distinct_dates in Hd'. rewrite nodup_In in Hd'.
    specialize (Hmax d' Hd').
    destruct (str_ltb d d') eqn:E; [|reflexivity].
    apply str_ltb_not_leb in E. congruence.
Qed.

Lemma latest_date_unique d d' qs :
  latest_date d qs -> latest_date d' qs -> d = d'.
Proof.
  intros [Hin Hmax] [Hin' Hmax']. apply str_leb_antisym; auto.
Qed.

(** The state a merge produces satisfies the invariant of the store; its
    watermark is the previous one when it holds no quote. *)
Lemma merge_invariant existing newQuotes :
  store_invariant (merge existing newQuotes)
  /\ (Store.quotes (merge existing newQuotes) = [] ->
      Store.lastUpdated (merge existing newQuotes)
      = Store.lastUpdated existing).
Proof.
  set (allQuotes := Store.quotes existing ++ newQuotes).
  set (output := merge existing newQuotes).
  assert (Hkeep : allQuotes <> [] ->
                  exists q, In q (Store.quotes output)
                            /\ Quote.date q = Store.lastUpdated output).
  { intros Hne.
    pose proof (merge_lastUpdated_latest existing newQuotes Hne) as Hl.
    destruct Hl as [Hin Hmax] eqn:El. clear El.
    unfold dates in Hin. apply in_map_iff in Hin.
    destruct Hin as [q [Hq Hqin]].
    exists q. split; [|exact Hq].
    apply merge_quotes_iff. split; [exact Hqin|].
    split; [apply in_map, Hqin|].
    rewrite Hq.
    rewrite (@latest_date_no_later _ allQuotes); [simpl; lia|].
    apply merge_lastUpdated_latest, Hne. }
  split; [split|].
  - intros Hne.
    assert (Hall : allQuotes <> []).
    { intros E. apply Hne.
      destruct (Store.quotes output) as [|q l] eqn:Eq; [reflexivity|].
      assert (Hq : In q allQuotes).
      { apply (merge_quotes_iff existing newQuotes q).
        fold output. rewrite Eq. left. reflexivity. }
      rewrite E in Hq. destruct Hq. }
    destruct (Hkeep Hall) as [q [Hq Hd]].
    split.
    + rewrite <- Hd. apply in_map, Hq.
    + intros d' Hd'. unfold dates in Hd'. apply in_map_iff in Hd'.
      destruct Hd' as [q' [<- Hq']].
      apply (merge_lastUpdated_latest existing newQuotes Hall).
      apply in_map. apply (merge_quotes_iff existing newQuotes q'), Hq'.
  - apply merge_distinct_bound.
  - intros Hemp. apply merge_lastUpdated_empty. fold allQuotes.
    assert (Hdec : allQuotes = [] \/ allQuotes <> []).
    { destruct allQuotes; [left; reflexivity|right; discriminate]. }
    destruct Hdec as [E|Hne]; [exact E|]. exfalso.
    destruct (Hkeep Hne) as [q [Hq _]].
    rewrite Hemp in Hq. destruct Hq.
Qed.

(** Merging nothing into a state that satisfies the invariant gives the
    same state. *)
Lemma merge_nothing (st : Store.t) :
  store_invariant st -> merge st [] = st.
Proof.
  intros [Hlatest Hbound].
  assert (Hq : Store.quotes (merge st []) = Store.quotes st).
  { unfold merge. cbv zeta. simpl Store.quotes at 1.
    rewrite app_nil_r. rewrite slice_last_12.
    set (U := sort str_leb (Set_of (map Quote.date (Store.quotes st)))).
    assert (HU : Permutation U (distinct_dates (Store.quotes st))).
    { pose proof (uniqueDates_distinct st []) as H.
      rewrite app_nil_r in H. exact H. }
    replace (length U - 12) with 0
      by (rewrite (Permutation_length HU); lia).
    simpl skipn.
    rewrite (filter_ext_in _ (fun _ => true)); [apply filter_true|].
    intros q Hin. apply Set_has_In.
    apply (Permutation_in _ (Permutation_sym HU)).
    unfold distinct_dates. rewrite nodup_In. apply in_map, Hin. }
  assert (Hl : Store.lastUpdated (merge st []) = Store.lastUpdated st).
  { destruct (Store.quotes st) as [|q l] eqn:E.
    - apply merge_lastUpdated_empty. rewrite E. reflexivity.
    - apply latest_date_unique with (qs := Store.quotes st).
      + pose proof (@merge_lastUpdated_latest st []) as H.
        rewrite app_nil_r in H. apply H. rewrite E. discriminate.
      + rewrite E. apply Hlatest. discriminate. }
  destruct st as [lu qs]. destruct (merge (Store.mk lu qs) []) as [lu' qs'].
  simpl in *. congruence.
Qed.

(** ** The orchestrator *)

Section RunFacts.
Variable World : Type.
Variable https_get : jsstring -> World -> outcome * World.
Variable Date_parse : jsstring -> option Z.
Variable JSON_parse : jsstring -> option Store.t.
Variable JSON_stringify : Store.t -> jsstring.

Local Abbreviation main_of :=
  (main https_get Date_parse JSON_parse JSON_stringify).
Local Abbreviation run_of :=
  (run https_get Date_parse JSON_parse JSON_stringify).
Local Abbreviation main_from_of :=
  (main_from https_get Date_parse JSON_stringify).

(** A run that resolves has loaded a state and written a merge. *)
Lemma main_resolved file w written w' :
  main_of file w = (inr written, w') ->
  exists existing newQuotes,
    load_state JSON_parse file w = (inr existing, w)
    /\ written = JSON_stringify (merge existing newQuotes).
Proof.
  unfold main, await. intros H.
  destruct (load_state JSON_parse file w) as [[e|existing] w0] eqn:El;
    [discriminate|].
  assert (w0 = w).
  { unfold load_state, resolve, reject in El.
    destruct file as [content|]; [destruct (JSON_parse content)|];
      congruence. }
  subst w0. unfold main_from, await in H.
  destruct (fetchUrl https_get index_url 0 w) as [[e|indexHtml] w1];
    [discriminate|].
  destruct (scrape_all https_get _ [] w1) as [newQuotes w2].
  unfold resolve in H. exists existing, newQuotes.
  split; [reflexivity|congruence].
Qed.

(** C2. Every successful run writes a state that satisfies the store
    invariant: its watermark is the maximum date of its quotes (the
    watermark it started from when it holds no quote), its quotes have
    at most 12 distinct dates, and none of them has a date outside the
    12 latest of the old and new quotes together. *)
Theorem run_preserves_invariant :
  forall file w written w',
    main_of file w = (inr written, w') ->
    exists existing newQuotes output,
      load_state JSON_parse file w = (inr existing, w)
      /\ output = merge existing newQuotes
      /\ written = JSON_stringify output
      /\ (Store.quotes output <> [] ->
          latest_date (Store.lastUpdated output) (Store.quotes output))
      /\ (Store.quotes output = [] ->
          Store.lastUpdated output = Store.lastUpdated existing)
      /\ length (distinct_dates (Store.quotes output)) <= 12
      /\ (forall q, In q (Store.quotes output) ->
                    among_latest 12 (Quote.date q)
                                 (Store.quotes existing ++ newQuotes)).
Proof.
  intros file w written w' H.
  destruct (main_resolved _ _ H) as [existing [newQuotes [Hl Hw]]].
  exists existing, newQuotes, (merge existing newQuotes).
  destruct (merge_invariant existing newQuotes) as [[Hmax Hbound] Hempty].
  repeat (split; [assumption || reflexivity|]).
  intros q Hq. apply merge_quotes_iff, Hq.
Qed.

(** C5. A second run that finds no article newer than the watermark
    leaves the store as it is: merging nothing into a state that
    satisfies the invariant gives that state, the run writes its
    serialisation, and the file, when it was written by an earlier run,
    is unchanged. *)
Theorem rerun_without_new_articles :
  forall content st indexHtml w w1,
    JSON_parse content = Some st ->
    store_invariant st ->
    fetchUrl https_get index_url 0 w = (inr indexHtml, w1) ->
    articles_to_process Date_parse (Store.lastUpdated st)
                        (article_links indexHtml) = [] ->
    merge st [] = st
    /\ main_of (Some content) w = (inr (JSON_stringify st), w1)
    /\ (content = JSON_stringify st ->
        run_of (Some content) w = ((0%Z, Some content), w1)).
Proof.
  intros content st indexHtml w w1 Hparse Hinv Hfetch Hnone.
  pose proof (merge_nothing Hinv) as Hm.
  assert (Hmain : main_of (Some content) w = (inr (JSON_stringify st), w1)).
  { unfold main, await, load_state. rewrite Hparse. unfold resolve at 1.
    unfold main_from, await. rewrite Hfetch, Hnone. simpl.
    unfold resolve. rewrite Hm. reflexivity. }
  split; [exact Hm|]. split; [exact Hmain|].
  intros Hc. unfold run. rewrite Hmain, <- Hc. reflexivity.
Qed.

(** C9. Loading the state file tells its two failure shapes apart: with
    no file the run goes on from the default state; with a file that
    [JSON.parse] rejects, [main] rejects before any request, and the
    process exits with status 1 and leaves the file as it was. *)
Theorem load_failure_shapes :
  (forall w,
      load_state JSON_parse None w = (inr default_state, w)
      /\ main_of None w = main_from_of default_state w)
  /\ (forall content w,
         JSON_parse content = None ->
         main_of (Some content) w = (inl JSONSyntaxError, w)
         /\ run_of (Some content) w = ((1%Z, Some content), w)).
Proof.
  split.
  - intros w. split; reflexivity.
  - intros content w Hparse.
    assert (Hmain : main_of (Some content) w = (inl JSONSyntaxError, w)).
    { unfold main, await, load_state. rewrite Hparse. reflexivity. }
    split; [exact Hmain|]. unfold run. rewrite Hmain. reflexivity.
Qed.

End RunFacts.

(** ** The section extractor *)

Lemma scrape_groups_take date edition groups :
  forall quotes,
    scrape_groups date edition groups quotes
    = quotes ++ firstn (3 - length quotes)
                       (map (quote_of_group date edition)
                            (filter contributes groups)).
Proof.
  induction groups as [|g rest IH]; intros quotes.
  - simpl. rewrite firstn_nil, app_nil_r. reflexivity.
  - cbn [scrape_groups filter].
    destruct (Nat.leb_spec 3 (length quotes)) as [Hfull|Hroom].
    + replace (3 - length quotes) with 0 by lia.
      rewrite firstn_0, app_nil_r. reflexivity.
    + unfold contributes at 1.
      destruct (0 <? length (group_parts g)) eqn:E.
      * rewrite IH. rewrite length_app. cbn [length map].
        replace (3 - length quotes) with (S (3 - (length quotes + 1)))
          by lia.
        rewrite firstn_cons, <- app_assoc. reflexivity.
      * apply IH.
Qed.

(** C6. The extractor returns at most 3 items; the items are, in document
    order, those of the first three groups of the section that have a
    surviving paragraph, each with the surviving paragraphs of its group
    joined by spaces as text; so three such groups followed by a fourth
    give exactly their three items, and a group whose normalised
    paragraphs all have length at most 5 gives none. *)
Theorem scrape_html_items :
  forall date edition : jsstring,
    (forall html, length (scrape_html html date edition) <= 3)
    /\ (forall html section,
           tiny_thoughts_section html = Some section ->
           scrape_html html date edition
           = firstn 3 (map (quote_of_group date edition)
                           (filter contributes (split re_hr section))))
    /\ (forall html section g1 g2 g3 g4 more,
           tiny_thoughts_section html = Some section ->
           split re_hr section = g1 :: g2 :: g3 :: g4 :: more ->
           group_parts g1 <> [] -> group_parts g2 <> [] ->
           group_parts g3 <> [] ->
           scrape_html html date edition
           = [quote_of_group date edition g1;
              quote_of_group date edition g2;
              quote_of_group date edition g3])
    /\ (forall group,
           (forall fragment,
               In fragment (map stripHtml (exec_all pRegex group)) ->
               length fragment <= 5) ->
           contributes group = false)
    /\ (forall group,
           Quote.text (quote_of_group date edition group)
           = join (str " ")
                  (filter (fun text => 5 <? length text)
                          (map stripHtml (exec_all pRegex group)))).
Proof.
  intros date edition.
  assert (Hsec : forall html section,
             tiny_thoughts_section html = Some section ->
             scrape_html html date edition
             = firstn 3 (map (quote_of_group date edition)
                             (filter contributes (split re_hr section)))).
  { intros html section Hs. unfold scrape_html. rewrite Hs.
    apply (scrape_groups_take date edition (split re_hr section) []). }
  assert (Hyes : forall g, group_parts g <> [] -> contributes g = true).
  { intros g Hg. unfold contributes. destruct (group_parts g); [congruence|].
    reflexivity. }
  split; [|split; [exact Hsec|split; [|split]]].
  - intros html. destruct (tiny_thoughts_section html) as [section|] eqn:Hs.
    + rewrite (Hsec _ _ Hs). rewrite length_firstn. lia.
    + unfold scrape_html. rewrite Hs. simpl. lia.
  - intros html section g1 g2 g3 g4 more Hs Hsplit H1 H2 H3.
    rewrite (Hsec _ _ Hs), Hsplit. simpl.
    rewrite (Hyes _ H1), (Hyes _ H2), (Hyes _ H3). reflexivity.
  - intros group Hshort. unfold contributes, group_parts.
    rewrite (filter_ext_in _ (fun _ => false)).
    + rewrite filter_false. reflexivity.
    + intros fragment Hin. apply Nat.ltb_ge. apply Hshort, Hin.
  - intros group. reflexivity.
Qed.

(** ** Selection and order of the candidates *)

Section CandidateFacts.
Variable Date_parse : jsstring -> option Z.

Lemma newer_articles_filter lastUpdated urls :
  newer_articles Date_parse (Date_parse lastUpdated) urls
  = map article_of_url
        (filter (newer_than_watermark Date_parse lastUpdated) urls).
Proof.
  induction urls as [|url rest IH]; [reflexivity|].
  cbn [newer_articles filter]. unfold newer_than_watermark at 1.
  destruct (parseDateFromSlug (slug_of_url url)) as [date|] eqn:E;
    [|exact IH].
  destruct (Date_gt (Date_parse date) (Date_parse lastUpdated));
    [|exact IH].
  cbn [map]. unfold article_of_url at 1.
  rewrite E, IH. reflexivity.
Qed.

(** C8. The orchestrator keeps exactly the candidates whose slug parses
    to a date strictly after the watermark, each once per occurrence,
    and hands them on sorted by ascending date. *)
Theorem articles_to_process_spec :
  forall (lastUpdated : jsstring) (urlSet : list jsstring),
    let articles := articles_to_process Date_parse lastUpdated urlSet in
    Permutation articles
      (map article_of_url
           (filter (newer_than_watermark Date_parse lastUpdated) urlSet))
    /\ (forall a,
           In a articles <->
           In (Article.url a) urlSet
           /\ Article.slug a = slug_of_url (Article.url a)
           /\ parseDateFromSlug (Article.slug a) = Some (Article.date a)
           /\ Date_gt (Date_parse (Article.date a))
                      (Date_parse lastUpdated) = true)
    /\ StronglySorted
         (fun a b => str_leb (Article.date a) (Article.date b) = true)
         articles.
Proof.
  intros lastUpdated urlSet articles.
  assert (Hperm : Permutation articles
            (map article_of_url
               (filter (newer_than_watermark Date_parse lastUpdated)
                       urlSet))).
  { unfold articles, articles_to_process.
    rewrite <- newer_articles_filter. apply sort_perm. }
  split; [exact Hperm|]. split.
  - intros a. split.
    + intros Hin. apply (Permutation_in _ Hperm) in Hin.
      apply in_map_iff in Hin. destruct Hin as [url [<- Hurl]].
      apply filter_In in Hurl. destruct Hurl as [Hurl Hkeep].
      unfold newer_than_watermark in Hkeep. unfold article_of_url. simpl.
      destruct (parseDateFromSlug (slug_of_url url)) as [date|];
        [|discriminate].
      auto.
    + intros [Hurl [Hslug [Hdate Hgt]]].
      apply (Permutation_in _ (Permutation_sym Hperm)).
      apply in_map_iff. exists (Article.url a). split.
      * unfold article_of_url. rewrite <- Hslug, Hdate.
        destruct a; reflexivity.
      * apply filter_In. split; [exact Hurl|].
        unfold newer_than_watermark. rewrite <- Hslug, Hdate. exact Hgt.
  - unfold articles, articles_to_process, article_le.
    apply (@sort_sorted _
             (fun a b => str_leb (Article.date a) (Article.date b))).
    + intros a b. apply str_leb_total.
    + intros a b c. apply str_leb_trans.
Qed.

End CandidateFacts.

(** ** The text normaliser *)

Lemma scan_skip m :
  forall s k, scan m k s = scan m 0 (skipn k s).
Proof.
  induction s as [|c s IH]; intros k.
  - destruct k; reflexivity.
  - destruct k as [|k]; [reflexivity|]. simpl. apply IH.
Qed.

Lemma lit_starts_with_unit c0 p k : starts_with_unit c0 (lit (c0 :: p) k).
Proof.
  intros c rest pos cs Hc. unfold lit. simpl.
  destruct (N.eqb_spec c0 c) as [E|_]; [congruence|reflexivity].
Qed.

Lemma alt_starts_with_unit c0 a b :
  starts_with_unit c0 a -> starts_with_unit c0 b ->
  starts_with_unit c0 (alt a b).
Proof.
  intros Ha Hb c rest pos cs Hc. unfold alt.
  rewrite (Ha _ _ _ _ Hc). apply Hb, Hc.
Qed.

Lemma replace_all_without_unit c0 m rep s :
  starts_with_unit c0 m -> ~ In c0 s -> replace_all m rep s = s.
Proof.
  intros Hm. unfold replace_all.
  induction s as [|c s IH]; intros Hnot; [reflexivity|].
  assert (Hc : c <> c0) by (intros E; apply Hnot; left; exact E).
  cbn [scan]. unfold exec_at. rewrite (Hm _ _ _ _ Hc).
  cbn [flat_map app]. f_equal. apply IH.
  intros Hin. apply Hnot. right. exact Hin.
Qed.

Lemma dropWhile_length f s : length (dropWhile f s) <= length s.
Proof.
  induction s as [|c s IH]; simpl; [lia|].
  destruct (f c); simpl; lia.
Qed.

Lemma skipn_dropWhile f s :
  skipn (length s - length (dropWhile f s)) s = dropWhile f s.
Proof.
  induction s as [|c s IH]; [reflexivity|]. simpl dropWhile.
  destruct (f c).
  - pose proof (dropWhile_length f s).
    cbn [length]. rewrite Nat.sub_succ_l by assumption.
    cbn [skipn]. exact IH.
  - rewrite Nat.sub_diag. reflexivity.
Qed.

Lemma star_done f s :
  forall pos cs,
    star f done s pos cs
    = Some (pos + (length s - length (dropWhile f s)), cs).
Proof.
  induction s as [|c s IH]; intros pos cs.
  - cbn [star dropWhile length]. unfold done. do 2 f_equal. lia.
  - cbn [star dropWhile]. destruct (f c).
    + rewrite IH. pose proof (dropWhile_length f s).
      cbn [length]. do 2 f_equal. lia.
    + unfold done. do 2 f_equal. lia.
Qed.

(** The replacement of [/\s+/g] by one space, unit by unit. *)
Lemma collapse_space c s :
  is_space c = true ->
  replace_all re_spaces (str " ") (c :: s)
  = 32%N :: replace_all re_spaces (str " ") (dropWhile is_space s).
Proof.
  intros Hc. unfold replace_all. cbn [scan].
  unfold exec_at, re_spaces, plus, chr. rewrite Hc, star_done.
  rewrite scan_skip.
  replace (1 + (length s - length (dropWhile is_space s)) - 1)
    with (length s - length (dropWhile is_space s)) by lia.
  rewrite skipn_dropWhile. reflexivity.
Qed.

Lemma collapse_other c s :
  is_space c = false ->
  replace_all re_spaces (str " ") (c :: s)
  = c :: replace_all re_spaces (str " ") s.
Proof.
  intros Hc. unfold replace_all. cbn [scan].
  unfold exec_at, re_spaces, plus, chr. rewrite Hc. reflexivity.
Qed.

Lemma dropWhile_head f s :
  match dropWhile f s with [] => True | c :: _ => f c = false end.
Proof.
  induction s as [|c s IH]; simpl; [exact I|].
  destruct (f c) eqn:E; [exact IH|exact E].
Qed.

Lemma dropWhile_fixed f s :
  match s with [] => True | c :: _ => f c = false end ->
  dropWhile f s = s.
Proof. destruct s as [|c s]; simpl; [reflexivity|]. intros ->. reflexivity. Qed.

Lemma collapse_head s :
  match s with [] => True | c :: _ => is_space c = false end ->
  match replace_all re_spaces (str " ") s with
  | [] => True
  | c :: _ => is_space c = false
  end.
Proof.
  destruct s as [|c s]; [intros _; exact I|]. intros Hc.
  rewrite (@collapse_other _ _ Hc). exact Hc.
Qed.

Lemma collapse_collapsed_aux n :
  forall s, length s <= n -> collapsed (replace_all re_spaces (str " ") s).
Proof.
  induction n as [|n IH]; intros s Hn.
  - destruct s; [exact I|simpl in Hn; lia].
  - destruct s as [|c s]; [exact I|]. simpl in Hn.
    destruct (is_space c) eqn:Hc.
    + rewrite (@collapse_space _ _ Hc). split.
      * intros _. split; [reflexivity|].
        apply collapse_head, dropWhile_head.
      * apply IH. pose proof (dropWhile_length is_space s). lia.
    + rewrite (@collapse_other _ _ Hc). split.
      * congruence.
      * apply IH. lia.
Qed.

Lemma collapse_collapsed s :
  collapsed (replace_all re_spaces (str " ") s).
Proof. apply (collapse_collapsed_aux (n := length s)). lia. Qed.

Lemma collapse_fixed s :
  collapsed s -> replace_all re_spaces (str " ") s = s.
Proof.
  induction s as [|c s IH]; intros Hs; [reflexivity|].
  destruct Hs as [Hc Hs]. destruct (is_space c) eqn:E.
  - destruct (Hc eq_refl) as [-> Hnext].
    rewrite (@collapse_space _ _ E), (@dropWhile_fixed _ _ Hnext).
    f_equal. apply IH, Hs.
  - rewrite (@collapse_other _ _ E). f_equal. apply IH, Hs.
Qed.

Lemma collapsed_dropWhile s : collapsed s -> collapsed (dropWhile is_space s).
Proof.
  induction s as [|c s IH]; intros Hs; [exact I|]. simpl dropWhile.
  destruct (is_space c); [apply IH, Hs|exact Hs].
Qed.

Lemma trimEnd_head c s :
  is_space c = false -> trimEnd (c :: s) = c :: trimEnd s.
Proof. intros Hc. simpl. rewrite Hc. destruct (trimEnd s); reflexivity. Qed.

Lemma trimEnd_nonempty s : trimEnd s <> [] -> s <> [].
Proof. destruct s; [simpl; congruence|discriminate]. Qed.

Lemma collapsed_trimEnd s : collapsed s -> collapsed (trimEnd s).
Proof.
  induction s as [|c s IH]; intros Hs; [exact I|].
  destruct Hs as [Hc Hs]. specialize (IH Hs). simpl.
  destruct (trimEnd s) as [|c' t] eqn:E.
  - destruct (is_space c) eqn:Ec; [exact I|].
    split; [congruence|exact I].
  - split; [|exact IH]. intros Ec. destruct (Hc Ec) as [-> Hnext].
    split; [reflexivity|].
    destruct s as [|c1 s1]; [discriminate|].
    rewrite (@trimEnd_head _ _ Hnext) in E. congruence.
Qed.

Lemma trimEnd_idempotent s : trimEnd (trimEnd s) = trimEnd s.
Proof.
  induction s as [|c s IH]; [reflexivity|]. simpl.
  destruct (trimEnd s) as [|c' t] eqn:E.
  - destruct (is_space c) eqn:Ec; [reflexivity|]. simpl. rewrite Ec.
    reflexivity.
  - change (trimEnd (c :: c' :: t))
      with (match trimEnd (c' :: t) with
            | [] => if is_space c then [] else [c]
            | t0 => c :: t0
            end).
    rewrite IH. reflexivity.
Qed.

Lemma trim_idempotent s : trim (trim s) = trim s.
Proof.
  unfold trim.
  rewrite (@dropWhile_fixed is_space (trimEnd (dropWhile is_space s))).
  - apply trimEnd_idempotent.
  - pose proof (dropWhile_head is_space s) as H.
    destruct (dropWhile is_space s) as [|c u]; [exact I|].
    rewrite (@trimEnd_head _ _ H). exact H.
Qed.

Lemma collapsed_trim s : collapsed s -> collapsed (trim s).
Proof. intros H. apply collapsed_trimEnd, collapsed_dropWhile, H. Qed.

(** The output of the normaliser is trimmed and collapsed. *)
Lemma stripHtml_collapsed x :
  collapsed (stripHtml x) /\ trim (stripHtml x) = stripHtml x.
Proof.
  unfold stripHtml. cbv zeta. split.
  - apply collapsed_trim, collapse_collapsed.
  - apply trim_idempotent.
Qed.

(** On a text without [<] and [&] only the treatment of white space
    acts. *)
Lemma stripHtml_plain y :
  ~ In 60%N y -> ~ In 38%N y ->
  stripHtml y = trim (replace_all re_spaces (str " ") y).
Proof.
  intros Hlt Hamp. unfold stripHtml. cbv zeta.
  rewrite (@replace_all_without_unit 60%N re_tag [] y);
    [|apply lit_starts_with_unit|exact Hlt].
  repeat (rewrite (@replace_all_without_unit 38%N _ _ y);
          [|first [apply lit_starts_with_unit
                  |apply alt_starts_with_unit; apply lit_starts_with_unit]
           |exact Hamp]).
  reflexivity.
Qed.

(** ** Idempotence of the normaliser *)

Lemma startsWith_iff s p : startsWith s p = true <-> exists b, s = p ++ b.
Proof.
  revert s. induction p as [|x p IH]; intros s.
  - destruct s; simpl; split; eauto.
  - destruct s as [|y s]; simpl.
    + split; [discriminate|]. intros [b Hb]. discriminate.
    + rewrite andb_true_iff, IH. split.
      * intros [Hxy [b ->]]. apply N.eqb_eq in Hxy. subst. eauto.
      * intros [b Hb]. injection Hb as -> ->. split; [apply N.eqb_refl|eauto].
Qed.

(** What a match of the parts of a pattern consumes. *)
Lemma lit_inv p k s pos c r :
  lit p k s pos c = Some r ->
  exists s', s = p ++ s' /\ k s' (pos + length p) c = Some r.
Proof.
  unfold lit. destruct (startsWith s p) eqn:E; [|discriminate].
  apply startsWith_iff in E. destruct E as [s' ->]. intros H.
  exists s'. split; [reflexivity|].
  rewrite skipn_app, skipn_all, Nat.sub_diag in H. exact H.
Qed.

Lemma chr_inv f k s pos c r :
  chr f k s pos c = Some r ->
  exists x s', s = x :: s' /\ f x = true /\ k s' (S pos) c = Some r.
Proof.
  unfold chr. destruct s as [|x s']; [discriminate|].
  destruct (f x) eqn:E; [|discriminate]. intros H.
  exists x, s'. auto.
Qed.

Lemma star_inv f k s :
  forall pos c r,
    star f k s pos c = Some r ->
    exists u s',
      s = u ++ s' /\ Forall (fun x => f x = true) u
      /\ k s' (pos + length u) c = Some r.
Proof.
  induction s as [|x s IH]; intros pos c r H.
  - exists [], []. cbn [star] in H. rewrite Nat.add_0_r.
    repeat split; [constructor|exact H].
  - cbn [star] in H. destruct (f x) eqn:E.
    + destruct (star f k s (S pos) c) as [r'|] eqn:Es.
      * injection H as <-.
        destruct (IH _ _ _ Es) as [u [s' [-> [Hu Hk]]]].
        exists (x :: u), s'. split; [reflexivity|].
        split; [constructor; assumption|].
        cbn [length]. rewrite <- Hk. f_equal. lia.
      * exists [], (x :: s). rewrite Nat.add_0_r.
        repeat split; [constructor|exact H].
    + exists [], (x :: s). rewrite Nat.add_0_r.
      repeat split; [constructor|exact H].
Qed.

Lemma scan_replace_length m rep s :
  length rep <= 1 ->
  forall k,
    length (flat_map (fun t => match t with TUnit c => [c] | TMatch _ => rep end)
                     (scan m k s))
    <= length s - k.
Proof.
  intros Hrep. induction s as [|c s IH]; intros k; [simpl; lia|].
  destruct k as [|k].
  - cbn [scan]. destruct (exec_at m (c :: s)) as [[n cap]|].
    + cbn [flat_map]. rewrite length_app. specialize (IH (n - 1)).
      cbn [length]. lia.
    + cbn [flat_map app length]. specialize (IH 0). lia.
  - cbn [scan length]. specialize (IH k). lia.
Qed.

Lemma replace_all_length m rep s :
  length rep <= 1 -> length (replace_all m rep s) <= length s.
Proof.
  intros Hrep. unfold replace_all.
  pose proof (@scan_replace_length m rep s Hrep 0). lia.
Qed.

Lemma trimEnd_length s : length (trimEnd s) <= length s.
Proof.
  induction s as [|c s IH]; simpl; [lia|].
  destruct (trimEnd s); [destruct (is_space c)|]; simpl in *; lia.
Qed.

Lemma stripHtml_replacements s :
  stripHtml s
  = trim (replace_all re_spaces (str " ")
            (replace_each markup_replacements s)).
Proof. reflexivity. Qed.

Lemma replace_all_no_match m rep s :
  has_match m s = false -> replace_all m rep s = s.
Proof.
  unfold replace_all. induction s as [|c s IH]; intros H; [reflexivity|].
  cbn [has_match] in H. cbn [scan].
  destruct (exec_at m (c :: s)) as [r|]; [discriminate|].
  cbn [flat_map app]. f_equal. apply IH, H.
Qed.

Lemma replace_all_shorter step s :
  shortening step -> has_match (fst step) s = true ->
  length (replace_all (fst step) (snd step) s) < length s.
Proof.
  destruct step as [m rep]. cbn [fst snd]. intros [Hrep Hm].
  cbn [fst snd] in Hrep, Hm. unfold replace_all.
  induction s as [|c s IH]; intros H.
  - cbn [has_match] in H.
    destruct (exec_at m []) as [[n cap]|] eqn:E; [|discriminate].
    apply Hm in E. cbn [length] in E. lia.
  - cbn [has_match] in H. cbn [scan].
    destruct (exec_at m (c :: s)) as [[n cap]|] eqn:E.
    + apply Hm in E. cbn [length] in E.
      cbn [flat_map]. rewrite length_app.
      pose proof (@scan_replace_length m rep s Hrep (n - 1)).
      cbn [length]. lia.
    + cbn [flat_map app length]. specialize (IH H). lia.
Qed.

Lemma replace_each_length steps :
  Forall shortening steps ->
  forall s, length (replace_each steps s) <= length s.
Proof.
  unfold replace_each.
  induction steps as [|step steps IH]; intros Hs s; [apply Nat.le_refl|].
  apply Forall_cons_iff in Hs. destruct Hs as [Hstep Hs].
  cbn [fold_left]. eapply Nat.le_trans; [apply IH, Hs|].
  apply replace_all_length, Hstep.
Qed.

Lemma replace_each_fixed steps s :
  Forall (fun step => has_match (fst step) s = false) steps ->
  replace_each steps s = s.
Proof.
  unfold replace_each.
  induction steps as [|step steps IH]; intros Hs; [reflexivity|].
  apply Forall_cons_iff in Hs. destruct Hs as [Hstep Hs].
  cbn [fold_left]. rewrite (@replace_all_no_match _ (snd step) _ Hstep). apply IH, Hs.
Qed.

(** Replacements that shorten the text leave its length only when none of
    them finds a match. *)
Lemma replace_each_full_length steps s :
  Forall shortening steps ->
  length s <= length (replace_each steps s) ->
  Forall (fun step => has_match (fst step) s = false) steps.
Proof.
  induction steps as [|step steps IH]; intros Hs Hlen; [constructor|].
  apply Forall_cons_iff in Hs. destruct Hs as [Hstep Hs].
  destruct (has_match (fst step) s) eqn:E.
  - exfalso.
    pose proof (@replace_all_shorter step s Hstep E) as H1.
    pose proof (@replace_each_length steps Hs
                  (replace_all (fst step) (snd step) s)) as H2.
    change (replace_each (step :: steps) s)
      with (replace_each steps (replace_all (fst step) (snd step) s))
      in Hlen.
    lia.
  - constructor; [exact E|]. apply IH; [exact Hs|].
    change (replace_each (step :: steps) s)
      with (replace_each steps (replace_all (fst step) (snd step) s))
      in Hlen.
    rewrite (@replace_all_no_match _ (snd step) _ E) in Hlen. exact Hlen.
Qed.

Lemma exec_at_inv (m : matcher) s n cap :
  exec_at m s = Some (n, cap) -> exists c, m s 0 (None, None) = Some (n, c).
Proof.
  unfold exec_at. destruct (m s 0 (None, None)) as [[n' [[a|] [b|]]]|];
    intros H; try discriminate; injection H as <- _; eauto.
Qed.

Lemma exec_at_some (m : matcher) s r :
  m s 0 (None, None) = Some r -> exec_at m s <> None.
Proof.
  unfold exec_at. intros ->. destruct r as [n [[a|] [b|]]]; discriminate.
Qed.

Lemma shortening_lit p rep :
  length rep <= 1 -> length rep < length p -> shortening (lit p done, rep).
Proof.
  intros H1 Hp. split; [exact H1|]. cbn [fst snd]. intros s n cap H.
  apply exec_at_inv in H. destruct H as [c H].
  apply lit_inv in H. destruct H as [s' [-> H]].
  unfold done in H. injection H as <- _. rewrite length_app. lia.
Qed.

Lemma shortening_either a b rep :
  length rep <= 1 -> length rep < length a -> length rep < length b ->
  shortening (re_either a b, rep).
Proof.
  intros H1 Ha Hb. split; [exact H1|]. cbn [fst snd]. intros s n cap H.
  apply exec_at_inv in H. destruct H as [c H].
  unfold re_either, alt in H.
  destruct (lit a done s 0 (None, None)) as [r|] eqn:E.
  - injection H as ->. apply lit_inv in E. destruct E as [s' [-> E]].
    unfold done in E. injection E as <- _. rewrite length_app. lia.
  - apply lit_inv in H. destruct H as [s' [-> H]].
    unfold done in H. injection H as <- _. rewrite length_app. lia.
Qed.

(** A match of [prefix class+ ;] removed altogether. *)
Lemma shortening_run p f q :
  shortening (lit p (plus f (lit q done)), []).
Proof.
  split; [cbn [snd length]; lia|]. cbn [fst snd]. intros s n cap H.
  apply exec_at_inv in H. destruct H as [c H].
  apply lit_inv in H. destruct H as [s1 [-> H]].
  unfold plus in H. apply chr_inv in H. destruct H as [x [s2 [-> [_ H]]]].
  apply star_inv in H. destruct H as [u [s3 [-> [_ H]]]].
  apply lit_inv in H. destruct H as [s4 [-> H]].
  unfold done in H. injection H as <- _.
  cbn [length]. rewrite !length_app. cbn [length]. rewrite !length_app.
  lia.
Qed.

Lemma markup_replacements_shortening :
  Forall shortening markup_replacements.
Proof.
  unfold markup_replacements.
  repeat (apply Forall_cons;
          [first [apply shortening_run
                 |apply shortening_lit; cbn; lia
                 |apply shortening_either; cbn; lia]|]).
  apply Forall_nil.
Qed.

Lemma has_match_false m s :
  has_match m s = false <-> (forall a b, s = a ++ b -> exec_at m b = None).
Proof.
  induction s as [|c s IH]; cbn [has_match].
  - split.
    + intros H a b Hab. symmetry in Hab. apply app_eq_nil in Hab.
      destruct Hab as [_ ->]. destruct (exec_at m []); congruence.
    + intros H. rewrite (H [] [] eq_refl). reflexivity.
  - split.
    + intros H a b Hab.
      destruct (exec_at m (c :: s)) as [r|] eqn:E; [discriminate|].
      destruct a as [|x a].
      * cbn [app] in Hab. subst b. exact E.
      * cbn [app] in Hab. injection Hab as _ Hab.
        apply (proj1 IH H a b Hab).
    + intros H. rewrite (H [] (c :: s) eq_refl). apply IH.
      intros a b Hab. apply (H (c :: a) b). rewrite Hab. reflexivity.
Qed.

Lemma lit_match_inv p b :
  exec_at (lit p done) b <> None -> exists rest, b = p ++ rest.
Proof.
  unfold exec_at, lit. destruct (startsWith b p) eqn:E.
  - intros _. apply startsWith_iff, E.
  - intros H. exfalso. apply H. reflexivity.
Qed.

Lemma either_match_inv p q b :
  exec_at (re_either p q) b <> None ->
  exists rest, b = p ++ rest \/ b = q ++ rest.
Proof.
  intros H.
  destruct (startsWith b p) eqn:Ep.
  - apply startsWith_iff in Ep. destruct Ep as [rest ->]. eauto.
  - destruct (startsWith b q) eqn:Eq.
    + apply startsWith_iff in Eq. destruct Eq as [rest ->]. eauto.
    + exfalso. apply H. unfold exec_at, re_either, alt, lit.
      rewrite Ep, Eq. reflexivity.
Qed.

(** The entities the normaliser decodes are numeric or named entities. *)
Lemma markup_free_no_match s :
  markup_free s ->
  Forall (fun step => has_match (fst step) s = false) markup_replacements.
Proof.
  intros [Htag [Hnum Hnamed]].
  assert (Hlit : forall p,
             (forall rest, exec_at re_named (p ++ rest) <> None) ->
             has_match (lit p done) s = false).
  { intros p Hp. apply has_match_false. intros a b Hab.
    destruct (exec_at (lit p done) b) as [r|] eqn:E; [|reflexivity].
    exfalso.
    destruct (@lit_match_inv p b) as [rest ->]; [rewrite E; discriminate|].
    apply (Hp rest). apply (proj1 (has_match_false _ _) Hnamed a _ Hab). }
  assert (Heither : forall p q,
             (forall rest, exec_at re_numeric (p ++ rest) <> None) ->
             (forall rest, exec_at re_named (q ++ rest) <> None) ->
             has_match (re_either p q) s = false).
  { intros p q Hp Hq. apply has_match_false. intros a b Hab.
    destruct (exec_at (re_either p q) b) as [r|] eqn:E; [|reflexivity].
    exfalso.
    destruct (@either_match_inv p q b) as [rest [-> | ->]];
      [rewrite E; discriminate| |].
    - apply (Hp rest). apply (proj1 (has_match_false _ _) Hnum a _ Hab).
    - apply (Hq rest). apply (proj1 (has_match_false _ _) Hnamed a _ Hab). }
  unfold markup_replacements.
  repeat (apply Forall_cons;
          [cbn [fst];
           first [ assumption
                 | apply Hlit; intros rest; destruct rest; vm_compute; discriminate
                 | apply Heither; intros rest; destruct rest; vm_compute; discriminate ]
          |]).
  apply Forall_nil.
Qed.

(** C4, amended. The normaliser is idempotent exactly on the inputs whose
    normalised text holds no markup, that is no tag [<...>], no numeric
    entity [&#digits;] and no named entity [&letters;]: on these a second
    pass leaves the text as it is, and on every other input it changes
    it.  A [<] or [&] that stands by itself does no harm. *)
Theorem stripHtml_idempotent_iff :
  forall x : jsstring,
    stripHtml (stripHtml x) = stripHtml x <-> markup_free (stripHtml x).
Proof.
  intros x. destruct (stripHtml_collapsed x) as [Hc Ht].
  set (y := stripHtml x) in *. split.
  - intros Hfix.
    assert (Hlen : length y
                   <= length (replace_each markup_replacements y)).
    { rewrite <- Hfix at 1. rewrite stripHtml_replacements. unfold trim.
      eapply Nat.le_trans; [apply trimEnd_length|].
      eapply Nat.le_trans; [apply dropWhile_length|].
      apply replace_all_length. cbn. lia. }
    pose proof (@replace_each_full_length _ _
                  markup_replacements_shortening Hlen) as Hno.
    unfold markup_replacements in Hno.
    repeat split.
    + apply Forall_inv in Hno. exact Hno.
    + do 12 apply Forall_inv_tail in Hno. apply Forall_inv in Hno.
      exact Hno.
    + do 13 apply Forall_inv_tail in Hno. apply Forall_inv in Hno.
      exact Hno.
  - intros Hfree. rewrite stripHtml_replacements.
    rewrite (@replace_each_fixed _ _ (markup_free_no_match Hfree)).
    rewrite (@collapse_fixed _ Hc). exact Ht.
Qed.


(** C4 as stated, for every input, fails: an escaped tag is decoded by the
    first pass and stripped by the second. *)
Lemma stripHtml_not_idempotent :
  stripHtml (stripHtml (str "&lt;b&gt;")) <> stripHtml (str "&lt;b&gt;").
Proof. vm_compute. discriminate. Qed.

(** ** The slug date parser *)

Lemma split_char_plain c s : ~ In c s -> split_char c s = [s].
Proof.
  induction s as [|x s IH]; intros Hn; [reflexivity|]. simpl.
  destruct (N.eqb_spec x c) as [E|_]; [exfalso; apply Hn; left; exact E|].
  rewrite IH; [reflexivity|]. intros H. apply Hn. right. exact H.
Qed.

Lemma split_char_app c a b :
  ~ In c a -> split_char c (a ++ c :: b) = a :: split_char c b.
Proof.
  induction a as [|x a IH]; intros Hn.
  - simpl. rewrite N.eqb_refl. reflexivity.
  - simpl. destruct (N.eqb_spec x c) as [E|_];
      [exfalso; apply Hn; left; exact E|].
    rewrite IH; [reflexivity|]. intros H. apply Hn. right. exact H.
Qed.

Lemma all_digits_no_hyphen s : all_digits s -> ~ In 45%N s.
Proof.
  intros Hd Hin. unfold all_digits in Hd. rewrite Forall_forall in Hd.
  specialize (Hd _ Hin). discriminate.
Qed.

Lemma re_year_digits y1 y2 y3 y4 :
  all_digits [y1; y2; y3; y4] ->
  test_anchored re_year [y1; y2; y3; y4] = true.
Proof.
  intros H. unfold all_digits in H. rewrite Forall_forall in H.
  assert (H1 := H y1 (or_introl eq_refl)).
  assert (H2 := H y2 (or_intror (or_introl eq_refl))).
  assert (H3 := H y3 (or_intror (or_intror (or_introl eq_refl)))).
  assert (H4 := H y4 (or_intror (or_intror (or_intror (or_introl eq_refl))))).
  unfold test_anchored, exec_at, re_year, chr, eos, done.
  rewrite H1, H2, H3, H4. reflexivity.
Qed.

Lemma re_day_digits day :
  all_digits day -> 1 <= length day <= 2 ->
  test_anchored re_day day = true.
Proof.
  intros H Hlen.
  destruct day as [|d1 [|d2 [|d3 day]]]; simpl in Hlen; try lia.
  - assert (H1 : is_digit d1 = true) by (inversion H; assumption).
    unfold test_anchored, exec_at, re_day, opt, chr, eos, done.
    rewrite H1. reflexivity.
  - assert (H1 : is_digit d1 = true) by (inversion H; assumption).
    assert (H2 : is_digit d2 = true).
    { inversion H as [|? ? _ H0]. inversion H0. assumption. }
    unfold test_anchored, exec_at, re_day, opt, chr, eos, done.
    rewrite H1, H2. reflexivity.
Qed.

(** The first half of C3: a slug made of a month of the table, a day of
    one or two digits and a year of four digits parses to the year, the
    number of the month and the day, the last two padded to two digits. *)
Lemma parseDateFromSlug_well_formed :
  forall (monthName : jsstring) (month : N) (day year : jsstring),
    In (monthName, month) MONTHS_own ->
    all_digits day -> 1 <= length day <= 2 ->
    all_digits year -> length year = 4 ->
    parseDateFromSlug (monthName ++ str "-" ++ day ++ str "-" ++ year)
    = Some (year ++ str "-" ++ padStart0 2 (String_of_N month) ++ str "-"
                 ++ padStart0 2 (String_of_N (parseInt_digits day))).
Proof.
  intros monthName month day year Hm Hday Hdlen Hyear Hylen.
  assert (Hname : ~ In 45%N monthName
                  /\ MONTHS_get monthName = JNumber month
                  /\ truthy (JNumber month) = true).
  { simpl in Hm.
    repeat (destruct Hm as [Hm|Hm];
            [inversion Hm; subst; vm_compute; intuition (discriminate || lia)|]).
    destruct Hm. }
  destruct Hname as [Hnohyphen [Hget Htruthy]].
  unfold parseDateFromSlug.
  change (str "-") with [45%N]. cbn [app].
  rewrite split_char_app by exact Hnohyphen.
  rewrite split_char_app by exact (all_digits_no_hyphen Hday).
  rewrite split_char_plain by exact (all_digits_no_hyphen Hyear).
  cbv zeta. cbn [length Nat.ltb Nat.leb Nat.sub nth].
  change (slice [monthName; day; year] 0 (Z.of_nat 3 - 2)) with [monthName].
  cbn [join]. rewrite Hget, Htruthy.
  destruct year as [|y1 [|y2 [|y3 [|y4 [|y5 year]]]]]; try discriminate.
  rewrite (re_year_digits Hyear), (re_day_digits Hday Hdlen).
  reflexivity.
Qed.

(** C3. A slug whose month part is not one of the twelve names is to give
    null.  The code misses the names that [MONTHS] inherits from
    [Object.prototype]: on the slug "constructor-1-2026" the lookup
    [MONTHS[monthName]] finds the function [Object], which is not falsy,
    and the parser returns a string that is no date. *)
Theorem parseDateFromSlug_inherited_key :
  parseDateFromSlug (str "constructor-1-2026")
  = Some (str "2026-function Object() { [native code] }-01").
Proof. vm_compute. reflexivity. Qed.

(** ** Dates as strings and as days

    On real calendar days in the form [YYYY-MM-DD], the order of the
    strings, which [sort] and the retention window use, is the order of
    the time values, which the watermark test uses. *)

Lemma DayFromYear_next y :
  DayFromYear (y + 1)
  = (DayFromYear y + if is_leap_year y then 366 else 365)%Z.
Proof.
  unfold DayFromYear, is_leap_year.
  replace (y + 1 - 1970)%Z with (y - 1970 + 1)%Z by lia.
  replace (y + 1 - 1969)%Z with (y - 1968)%Z by lia.
  replace (y + 1 - 1901)%Z with (y - 1900)%Z by lia.
  replace (y + 1 - 1601)%Z with (y - 1600)%Z by lia.
  destruct (Z.eqb_spec (y mod 4) 0) as [H4|H4];
    destruct (Z.eqb_spec (y mod 100) 0) as [H100|H100];
    destruct (Z.eqb_spec (y mod 400) 0) as [H400|H400];
    cbn [andb orb negb]; Z.div_mod_to_equations; lia.
Qed.

Lemma DayFromYear_mono_nat (n : nat) y :
  (DayFromYear y + 365 * Z.of_nat n <= DayFromYear (y + Z.of_nat n))%Z.
Proof.
  induction n as [|n IH].
  - change (Z.of_nat 0) with 0%Z.
    replace (y + 0)%Z with y by lia. lia.
  - replace (y + Z.of_nat (S n))%Z with (y + Z.of_nat n + 1)%Z by lia.
    rewrite DayFromYear_next.
    destruct (is_leap_year (y + Z.of_nat n)); lia.
Qed.

Lemma DayFromYear_later y y' :
  (y < y')%Z -> (DayFromYear (y + 1) <= DayFromYear y')%Z.
Proof.
  intros H.
  pose proof (DayFromYear_mono_nat (Z.to_nat (y' - (y + 1))) (y + 1)) as Hm.
  replace (y + 1 + Z.of_nat (Z.to_nat (y' - (y + 1))))%Z with y' in Hm by lia.
  lia.
Qed.

Lemma days_in_month_bounds y m : (28 <= days_in_month y m <= 31)%Z.
Proof.
  unfold days_in_month.
  destruct (m =? 2)%Z; [destruct (is_leap_year y); lia|].
  destruct ((m =? 4) || (m =? 6) || (m =? 9) || (m =? 11))%Z; lia.
Qed.

Lemma days_before_month_mono y (k k' : nat) :
  k <= k' -> (days_before_month y k <= days_before_month y k')%Z.
Proof.
  induction 1 as [|k' _ IH]; [lia|]. cbn [days_before_month].
  pose proof (days_in_month_bounds y (Z.of_nat (S k'))). lia.
Qed.

Lemma days_before_month_year y :
  days_before_month y 12 = (if is_leap_year y then 366 else 365)%Z.
Proof.
  unfold days_before_month, days_in_month. simpl.
  destruct (is_leap_year y); reflexivity.
Qed.

Lemma day_number_lt y m d y' m' d' :
  (1 <= m <= 12)%Z -> (1 <= d <= days_in_month y m)%Z ->
  (1 <= m' <= 12)%Z -> (1 <= d' <= days_in_month y' m')%Z ->
  ((y * 100 + m) * 100 + d < (y' * 100 + m') * 100 + d')%Z ->
  (day_number y m d < day_number y' m' d')%Z.
Proof.
  intros Hm Hd Hm' Hd' Hlt. unfold day_number.
  pose proof (days_in_month_bounds y m) as Hb.
  pose proof (days_in_month_bounds y' m') as Hb'.
  assert (Hend : (days_before_month y (Z.to_nat m - 1) + d
                  <= days_before_month y (Z.to_nat m))%Z).
  { replace (Z.to_nat m) with (S (Z.to_nat m - 1)) at 2 by lia.
    cbn [days_before_month].
    replace (Z.of_nat (S (Z.to_nat m - 1))) with m by lia. lia. }
  assert (Hpos : (0 <= days_before_month y' (Z.to_nat m' - 1))%Z).
  { apply (days_before_month_mono y' (k := 0)). lia. }
  destruct (Z.lt_trichotomy y y') as [Hy|[Hy|Hy]]; [| |lia].
  - pose proof (DayFromYear_later Hy) as Hl.
    rewrite DayFromYear_next in Hl.
    rewrite <- days_before_month_year in Hl.
    pose proof (days_before_month_mono y (k := Z.to_nat m) (k' := 12)).
    lia.
  - subst y'. destruct (Z.lt_trichotomy m m') as [Hmm|[Hmm|Hmm]]; [| |lia].
    + pose proof (days_before_month_mono y (k := Z.to_nat m)
                                         (k' := Z.to_nat m' - 1)).
      lia.
    + subst m'. lia.
Qed.

Lemma is_digit_value c :
  is_digit c = true -> (0 <= digit_value c <= 9)%Z.
Proof.
  unfold is_digit, digit_value. rewrite andb_true_iff.
  intros [H1 H2]. apply N.leb_le in H1. apply N.leb_le in H2. lia.
Qed.

Lemma str_compare_cons x a y b :
  str_compare (x :: a) (y :: b)
  = match N.compare x y with Eq => str_compare a b | c => c end.
Proof. reflexivity. Qed.

(** What [Date_parse_iso] accepts. *)
Lemma Date_parse_iso_inv s t :
  Date_parse_iso s = Some t ->
  exists y1 y2 y3 y4 m1 m2 d1 d2,
    s = [y1; y2; y3; y4; 45%N; m1; m2; 45%N; d1; d2]
    /\ Forall (fun c => is_digit c = true) [y1; y2; y3; y4; m1; m2; d1; d2]
    /\ let y := (1000 * digit_value y1 + 100 * digit_value y2
                 + 10 * digit_value y3 + digit_value y4)%Z in
       let m := (10 * digit_value m1 + digit_value m2)%Z in
       let d := (10 * digit_value d1 + digit_value d2)%Z in
       (1 <= m <= 12)%Z /\ (1 <= d <= days_in_month y m)%Z
       /\ t = (day_number y m d * 86400000)%Z.
Proof.
  unfold Date_parse_iso.
  destruct s as [|y1 [|y2 [|y3 [|y4 [|h1 [|m1 [|m2 [|h2 [|d1 [|d2 [|x s]]]]]]]]]]];
    try discriminate.
  destruct (forallb is_digit [y1; y2; y3; y4; m1; m2; d1; d2]) eqn:Hdig;
    [|discriminate].
  destruct (N.eqb_spec h1 45) as [-> |]; [|discriminate].
  destruct (N.eqb_spec h2 45) as [-> |]; [|discriminate].
  cbn [andb].
  match goal with
  | |- (if ?c then _ else _) = _ -> _ => destruct c eqn:Hrange
  end; [|discriminate].
  intros Ht. injection Ht as <-.
  exists y1, y2, y3, y4, m1, m2, d1, d2.
  split; [reflexivity|]. split.
  - apply Forall_forall. rewrite forallb_forall in Hdig. exact Hdig.
  - cbv zeta. rewrite !andb_true_iff in Hrange.
    destruct Hrange as [[[H1 H2] H3] H4].
    apply Z.leb_le in H1, H2, H3, H4. repeat split; assumption.
Qed.

Lemma Date_parse_iso_lt a b ta tb :
  Date_parse_iso a = Some ta -> Date_parse_iso b = Some tb ->
  str_compare a b = Lt -> (ta < tb)%Z.
Proof.
  intros Ha Hb.
  destruct (Date_parse_iso_inv _ Ha)
    as [y1 [y2 [y3 [y4 [m1 [m2 [d1 [d2 [-> [Hda [Hm [Hd ->]]]]]]]]]]]].
  destruct (Date_parse_iso_inv _ Hb)
    as [z1 [z2 [z3 [z4 [n1 [n2 [e1 [e2 [-> [Hdb [Hn [He ->]]]]]]]]]]]].
  rewrite Forall_forall in Hda, Hdb.
  assert (Hy1 := is_digit_value _ (Hda y1 ltac:(simpl; tauto))).
  assert (Hy2 := is_digit_value _ (Hda y2 ltac:(simpl; tauto))).
  assert (Hy3 := is_digit_value _ (Hda y3 ltac:(simpl; tauto))).
  assert (Hy4 := is_digit_value _ (Hda y4 ltac:(simpl; tauto))).
  assert (Hm1 := is_digit_value _ (Hda m1 ltac:(simpl; tauto))).
  assert (Hm2 := is_digit_value _ (Hda m2 ltac:(simpl; tauto))).
  assert (Hd1 := is_digit_value _ (Hda d1 ltac:(simpl; tauto))).
  assert (Hd2 := is_digit_value _ (Hda d2 ltac:(simpl; tauto))).
  assert (Hz1 := is_digit_value _ (Hdb z1 ltac:(simpl; tauto))).
  assert (Hz2 := is_digit_value _ (Hdb z2 ltac:(simpl; tauto))).
  assert (Hz3 := is_digit_value _ (Hdb z3 ltac:(simpl; tauto))).
  assert (Hz4 := is_digit_value _ (Hdb z4 ltac:(simpl; tauto))).
  assert (Hn1 := is_digit_value _ (Hdb n1 ltac:(simpl; tauto))).
  assert (Hn2 := is_digit_value _ (Hdb n2 ltac:(simpl; tauto))).
  assert (He1 := is_digit_value _ (Hdb e1 ltac:(simpl; tauto))).
  assert (He2 := is_digit_value _ (Hdb e2 ltac:(simpl; tauto))).
  clear Hda Hdb Ha Hb. intros Hcmp.
  apply Z.mul_lt_mono_pos_r; [lia|].
  apply day_number_lt; try assumption.
  revert Hcmp. unfold digit_value in *.
  repeat (rewrite str_compare_cons;
          match goal with
          | |- context [N.compare ?x ?y] =>
              destruct (N.compare_spec x y) as [?|?|?];
              [subst|intros _; lia|discriminate]
          end).
  discriminate.
Qed.

(** On real calendar days, the later string is the later day. *)
Lemma Date_parse_iso_order a b ta tb :
  Date_parse_iso a = Some ta -> Date_parse_iso b = Some tb ->
  (str_ltb a b = true <-> (ta < tb)%Z).
Proof.
  intros Ha Hb. unfold str_ltb. split.
  - destruct (str_compare a b) eqn:E; try discriminate. intros _.
    exact (Date_parse_iso_lt _ _ Ha Hb E).
  - intros Hlt. destruct (str_compare a b) eqn:E; [| reflexivity |].
    + apply str_compare_eq in E. subst b. rewrite Ha in Hb.
      injection Hb as <-. lia.
    + pose proof (str_compare_antisym a b) as Hanti. rewrite E in Hanti.
      simpl in Hanti.
      pose proof (Date_parse_iso_lt _ _ Hb Ha Hanti). lia.
Qed.

(** So the watermark test is the comparison of the date strings. *)
Lemma Date_gt_iso date lastUpdated t t' :
  Date_parse_iso date = Some t -> Date_parse_iso lastUpdated = Some t' ->
  Date_gt (Date_parse_iso date) (Date_parse_iso lastUpdated)
  = str_ltb lastUpdated date.
Proof.
  intros Hd Hl. rewrite Hd, Hl. unfold Date_gt.
  pose proof (Date_parse_iso_order _ _ Hl Hd) as Hiff.
  destruct (Z.ltb_spec t' t) as [H|H];
    destruct (str_ltb lastUpdated date); try reflexivity.
  - apply Hiff in H. discriminate.
  - assert (t' < t)%Z by (apply Hiff; reflexivity). lia.
Qed.

(** ** The properties at work on the examples *)

Ltac not_in_list :=
  let H := fresh "H" in
  intros H; vm_compute in H;
  repeat (destruct H as [H|H]; [discriminate H|]); exact H.

Lemma merge_retention_and_watermark_witness :
  latest_date (Store.lastUpdated (merge Example.state Example.newQuotes))
              (Store.quotes Example.state ++ Example.newQuotes)
  /\ Store.lastUpdated (merge Example.state Example.newQuotes)
     = str "2026-02-22".
Proof.
  split; [|reflexivity].
  apply (merge_retention_and_watermark Example.state Example.newQuotes).
  discriminate.
Defined.

Lemma run_preserves_invariant_witness :
  exists existing newQuotes output,
    load_state Example.JSON_parse None 0 = (inr existing, 0)
    /\ output = merge existing newQuotes
    /\ Example.first_written = Example.JSON_stringify output
    /\ (Store.quotes output <> [] ->
        latest_date (Store.lastUpdated output) (Store.quotes output))
    /\ (Store.quotes output = [] ->
        Store.lastUpdated output = Store.lastUpdated existing)
    /\ length (distinct_dates (Store.quotes output)) <= 12
    /\ (forall q, In q (Store.quotes output) ->
                  among_latest 12 (Quote.date q)
                               (Store.quotes existing ++ newQuotes)).
Proof.
  apply (@run_preserves_invariant nat Example.https_get Date_parse_iso
           Example.JSON_parse Example.JSON_stringify None 0
           Example.first_written 4).
  vm_compute. reflexivity.
Defined.

Lemma state_after_invariant : store_invariant Example.state_after.
Proof.
  split.
  - intros _. split; [vm_compute; tauto|].
    intros d' Hd'. vm_compute in Hd'.
    repeat (destruct Hd' as [<-|Hd']; [vm_compute; reflexivity|]).
    destruct Hd'.
  - vm_compute. lia.
Qed.

Lemma rerun_without_new_articles_witness :
  merge Example.state_after [] = Example.state_after
  /\ run Example.quiet_get Date_parse_iso Example.JSON_parse
         Example.JSON_stringify
         (Some (Example.JSON_stringify Example.state_after)) 0
     = ((0%Z, Some (Example.JSON_stringify Example.state_after)), 1).
Proof.
  destruct (@rerun_without_new_articles nat Example.quiet_get Date_parse_iso
              Example.JSON_parse Example.JSON_stringify
              (Example.JSON_stringify Example.state_after)
              Example.state_after Example.old_index 0 1)
    as [Hmerge [_ Hrun]].
  - vm_compute. reflexivity.
  - exact state_after_invariant.
  - vm_compute. reflexivity.
  - vm_compute. reflexivity.
  - split; [exact Hmerge|]. apply Hrun. reflexivity.
Defined.

Lemma load_failure_shapes_witness :
  run Example.https_get Date_parse_iso Example.JSON_parse
      Example.JSON_stringify (Some (str "{ lastUpdated: ")) 0
  = ((1%Z, Some (str "{ lastUpdated: ")), 0).
Proof.
  apply (@load_failure_shapes nat Example.https_get Date_parse_iso
           Example.JSON_parse Example.JSON_stringify).
  vm_compute. reflexivity.
Defined.

Lemma scrape_html_items_witness :
  scrape_html Example.page (str "2026-02-22") (str "Brain Food")
  = [quote_of_group (str "2026-02-22") (str "Brain Food") Example.group1;
     quote_of_group (str "2026-02-22") (str "Brain Food") Example.group2;
     quote_of_group (str "2026-02-22") (str "Brain Food") Example.group3]
  /\ contributes Example.short_group = false.
Proof.
  destruct (scrape_html_items (str "2026-02-22") (str "Brain Food"))
    as [_ [_ [Hthree [Hshort _]]]].
  split.
  - apply (Hthree Example.page Example.section Example.group1 Example.group2
                  Example.group3 Example.group4 []).
    + vm_compute. reflexivity.
    + vm_compute. reflexivity.
    + vm_compute. discriminate.
    + vm_compute. discriminate.
    + vm_compute. discriminate.
  - apply Hshort. intros fragment Hin. vm_compute in Hin.
    repeat (destruct Hin as [<-|Hin]; [vm_compute; lia|]).
    destruct Hin.
Defined.

Lemma fetchUrl_redirect_budget_witness :
  fetchUrl (Example.redirecting 4) index_url 0 0
  = (inr (str "<html>Brain Food</html>"), 5)
  /\ fetchUrl Example.looping index_url 0 0 = (inl TooManyRedirects, 6).
Proof.
  split.
  - apply (proj1 (fetchUrl_redirect_budget (Example.redirecting 4)))
      with (n := 4) (url' := index_url) (w' := 4) (location := None).
    + lia.
    + repeat (eapply through_hop;
              [reflexivity|lia|discriminate|]).
      apply through_none.
    + reflexivity.
  - apply (proj2 (fetchUrl_redirect_budget Example.looping))
      with (url6 := index_url).
    repeat (eapply through_hop; [reflexivity|lia|discriminate|]).
    apply through_none.
Defined.

Lemma fetchUrl_resolves_any_status_witness :
  fetchUrl Example.https_get (str "https://fs.blog/brain-food/may-5-2026/")
           0 7
  = (inr (str "<h1>Not found</h1>"), 8).
Proof.
  apply (@fetchUrl_resolves_any_status nat Example.https_get
           (str "https://fs.blog/brain-food/may-5-2026/") 0 7 404 None).
  - lia.
  - reflexivity.
  - intros [Hstatus _]. lia.
Defined.

Lemma articles_to_process_spec_witness :
  In (Article.mk (str "https://fs.blog/brain-food/february-22-2026/")
                 (str "2026-02-22") (str "february-22-2026"))
     (articles_to_process Date_parse_iso (str "2026-02-15")
                          (article_links Example.index)).
Proof.
  apply (articles_to_process_spec Date_parse_iso (str "2026-02-15")
           (article_links Example.index)).
  repeat split.
  vm_compute. tauto.
Defined.

Lemma stripHtml_idempotent_iff_witness :
  stripHtml (str " <p>AT&amp;T:&nbsp; a &lt; b</p> ") = str "AT&T: a < b"
  /\ stripHtml (stripHtml (str " <p>AT&amp;T:&nbsp; a &lt; b</p> "))
     = stripHtml (str " <p>AT&amp;T:&nbsp; a &lt; b</p> ").
Proof.
  split; [vm_compute; reflexivity|].
  apply (proj2 (stripHtml_idempotent_iff
                  (str " <p>AT&amp;T:&nbsp; a &lt; b</p> "))).
  vm_compute. repeat split.
Defined.

(** The first run on the example site: three quotes of one edition, after
    four requests. *)
Example first_run :
  run Example.https_get Date_parse_iso Example.JSON_parse
      Example.JSON_stringify None 0
  = ((0%Z,
      Some (Example.JSON_stringify
              (Store.mk (str "2026-02-22")
                 (map (fun text =>
                         Quote.mk (str text)
                           (str "Brain Food " ++ [8211%N]
                              ++ str " February 22, 2026")
                           (str "2026-02-22"))
                      ["What you avoid grows. Face it early.";
                       "Patience is a form of action.";
                       "Read less, reread more."]%string)))),
     4).
Proof. vm_compute. reflexivity. Qed.

(** The parser on the slug of the comment in the source, and on slugs it
    rejects. *)
Example parse_february_22 :
  parseDateFromSlug (str "february-22-2026") = Some (str "2026-02-22").
Proof. vm_compute. reflexivity. Qed.

Example parse_pads_the_day :
  parseDateFromSlug (str "may-5-2026") = Some (str "2026-05-05").
Proof. vm_compute. reflexivity. Qed.

Example parse_rejects :
  map parseDateFromSlug
      [str "2026"; str "may-2026"; str "may-5-26"; str "may-123-2026";
       str "May-5-2026"; str "best-of-may-5-2026"; str "mai-5-2026"]
  = [None; None; None; None; None; None; None].
Proof. vm_compute. reflexivity. Qed.

(** The link pattern gives back the hyphen and year it first runs over;
    the set keeps the first occurrence of an address. *)
Example links_of_the_index :
  article_links Example.index
  = [str "https://fs.blog/brain-food/february-22-2026/";
     str "https://fs.blog/brain-food/february-15-2026/";
     str "https://fs.blog/brain-food/february-8-2026/"].
Proof. vm_compute. reflexivity. Qed.

Example normalised_text :
  stripHtml (str " <p class='x'>Tom &amp; Jerry&nbsp;&#8212; &lt;3
      <br/>&hellip;</p> ")
  = str "Tom & Jerry " ++ [8212%N] ++ str " <3".
Proof. vm_compute. reflexivity. Qed.

Example edition_label :
  edition_of_slug (str "february-22-2026")
  = str "Brain Food " ++ [8211%N] ++ str " February 22, 2026".
Proof. vm_compute. reflexivity. Qed.

(** * Further properties of the script *)

(** ** Retention *)

Lemma merge_recent_dates existing newQuotes d :
  In d (dates (Store.quotes (merge existing newQuotes)))
  <-> In d (skipn (length (sort str_leb
                            (Set_of (map Quote.date
                                       (Store.quotes existing ++ newQuotes))))
                   - 12)
                  (sort str_leb
                     (Set_of (map Quote.date
                                (Store.quotes existing ++ newQuotes))))).
Proof.
  set (U := sort str_leb
              (Set_of (map Quote.date (Store.quotes existing ++ newQuotes)))).
  unfold dates, merge. cbv zeta. simpl Store.quotes at 1. fold U.
  rewrite slice_last_12, in_map_iff. split.
  - intros [q [<- Hq]]. apply filter_In in Hq. apply Set_has_In, Hq.
  - intros Hd.
    assert (HdU : In d U).
    { rewrite <- (firstn_skipn (length U - 12) U). apply in_or_app. auto. }
    apply uniqueDates_In in HdU. unfold dates in HdU.
    apply in_map_iff in HdU. destruct HdU as [q [<- Hq]].
    exists q. split; [reflexivity|]. apply filter_In. split; [exact Hq|].
    apply Set_has_In, Hd.
Qed.

(** X1. Retention keeps exactly the twelve latest editions: the number of
    distinct dates after a merge is 12, or the number before when that is
    smaller. *)
Theorem merge_distinct_count :
  forall (existing : Store.t) (newQuotes : list Quote.t),
    length (distinct_dates (Store.quotes (merge existing newQuotes)))
    = Nat.min 12 (length (distinct_dates
                            (Store.quotes existing ++ newQuotes))).
Proof.
  intros existing newQuotes.
  set (U := sort str_leb
              (Set_of (map Quote.date (Store.quotes existing ++ newQuotes)))).
  rewrite <- (Permutation_length (uniqueDates_distinct existing newQuotes)).
  fold U.
  transitivity (length (skipn (length U - 12) U)).
  - apply Permutation_length, NoDup_Permutation.
    + apply NoDup_nodup.
    + rewrite <- (firstn_skipn (length U - 12) U) at 2.
      pose proof (uniqueDates_NoDup existing newQuotes) as Hnd. fold U in Hnd.
      rewrite <- (firstn_skipn (length U - 12) U) in Hnd.
      apply NoDup_app_remove_l in Hnd. 
      rewrite firstn_skipn. exact Hnd.
    + intros d. unfold distinct_dates. rewrite nodup_In.
      apply merge_recent_dates.
  - rewrite length_skipn. lia.
Qed.

(** X2. While the store holds at most twelve editions no quote is dropped:
    the merged sequence is the old quotes followed by the new ones. *)
Theorem merge_keeps_all :
  forall (existing : Store.t) (newQuotes : list Quote.t),
    length (distinct_dates (Store.quotes existing ++ newQuotes)) <= 12 ->
    Store.quotes (merge existing newQuotes)
    = Store.quotes existing ++ newQuotes.
Proof.
  intros existing newQuotes Hfew.
  unfold merge. cbv zeta. simpl Store.quotes at 1.
  rewrite slice_last_12.
  set (U := sort str_leb
              (Set_of (map Quote.date (Store.quotes existing ++ newQuotes)))).
  pose proof (uniqueDates_distinct existing newQuotes) as HU. fold U in HU.
  replace (length U - 12) with 0 by (rewrite (Permutation_length HU); lia).
  cbn [skipn].
  rewrite (filter_ext_in _ (fun _ => true)); [apply filter_true|].
  intros q Hq. apply Set_has_In.
  apply (uniqueDates_In existing newQuotes). apply in_map, Hq.
Qed.

(** X3. Retention is by edition: two quotes of the same date are kept or
    dropped together, and the quotes of the latest date are always
    kept. *)
Theorem merge_by_edition :
  forall (existing : Store.t) (newQuotes : list Quote.t) (q : Quote.t),
    In q (Store.quotes existing ++ newQuotes) ->
    (forall q',
        In q' (Store.quotes existing ++ newQuotes) ->
        Quote.date q' = Quote.date q ->
        (In q' (Store.quotes (merge existing newQuotes))
         <-> In q (Store.quotes (merge existing newQuotes))))
    /\ (Quote.date q = Store.lastUpdated (merge existing newQuotes) ->
        In q (Store.quotes (merge existing newQuotes))).
Proof.
  intros existing newQuotes q Hq. split.
  - intros q' Hq' Hdate. rewrite !merge_quotes_iff, Hdate. tauto.
  - intros Hlast. apply merge_quotes_iff. split; [exact Hq|].
    split; [apply in_map, Hq|].
    rewrite Hlast, (@latest_date_no_later _ (Store.quotes existing ++ newQuotes)).
    + simpl. lia.
    + apply merge_lastUpdated_latest. intros E. rewrite E in Hq. destruct Hq.
Qed.

(** X4. Merging is idempotent: merging nothing into the result of a merge
    gives that result again. *)
Theorem merge_idempotent :
  forall (existing : Store.t) (newQuotes : list Quote.t),
    merge (merge existing newQuotes) [] = merge existing newQuotes.
Proof.
  intros existing newQuotes. apply merge_nothing.
  apply merge_invariant.
Qed.

(** X5. The watermark never moves back: when the watermark of the store is
    the latest date of its quotes, the watermark after a merge is that
    date or a later one. *)
Theorem merge_watermark_monotone :
  forall (existing : Store.t) (newQuotes : list Quote.t),
    latest_date (Store.lastUpdated existing) (Store.quotes existing) ->
    str_leb (Store.lastUpdated existing)
            (Store.lastUpdated (merge existing newQuotes)) = true.
Proof.
  intros existing newQuotes [Hin _].
  assert (Hne : Store.quotes existing ++ newQuotes <> []).
  { intros E. apply app_eq_nil in E. destruct E as [E _].
    rewrite E in Hin. destruct Hin. }
  apply (merge_lastUpdated_latest existing newQuotes Hne).
  unfold dates in *. rewrite map_app. apply in_or_app. left. exact Hin.
Qed.

(** ** The slug date parser, both ways *)

Lemma split_char_nonempty c s : split_char c s <> [].
Proof.
  destruct s as [|x s]; simpl; [discriminate|].
  destruct (N.eqb x c); [discriminate|].
  destruct (split_char c s); discriminate.
Qed.

Lemma join_split_char c s : join [c] (split_char c s) = s.
Proof.
  induction s as [|x s IH]; [reflexivity|]. simpl split_char.
  pose proof (split_char_nonempty c s) as Hne.
  destruct (N.eqb_spec x c) as [-> |_].
  - destruct (split_char c s) as [|p ps]; [congruence|].
    change (join [c] ([] :: p :: ps)) with (c :: join [c] (p :: ps)).
    rewrite IH. reflexivity.
  - destruct (split_char c s) as [|p ps]; [congruence|].
    destruct ps as [|p' ps]; simpl in *; rewrite <- IH; reflexivity.
Qed.

Lemma split_char_parts c s p : In p (split_char c s) -> ~ In c p.
Proof.
  revert p. induction s as [|x s IH]; intros p Hp.
  - simpl in Hp. destruct Hp as [<-|[]]. intros [].
  - simpl in Hp. destruct (N.eqb_spec x c) as [-> |Hx].
    + destruct Hp as [<-|Hp]; [intros []|apply IH, Hp].
    + destruct (split_char c s) as [|p0 ps] eqn:E.
      * destruct Hp as [<-|[]]. intros [H|[]]. congruence.
      * destruct Hp as [<-|Hp].
        -- intros [H|H]; [congruence|]. apply (IH p0); [left; reflexivity|exact H].
        -- apply IH. right. exact Hp.
Qed.

(** The last two of at least three parts, and what comes before them. *)
Lemma last_two_parts (parts : list jsstring) :
  3 <= length parts ->
  parts = slice parts 0 (Z.of_nat (length parts) - 2)
            ++ [nth (length parts - 2) parts [];
                nth (length parts - 1) parts []]
  /\ slice parts 0 (Z.of_nat (length parts) - 2) <> [].
Proof.
  intros Hlen.
  assert (Hs : slice parts 0 (Z.of_nat (length parts) - 2)
               = firstn (length parts - 2) parts).
  { unfold slice, slice_index.
    destruct (Z.ltb_spec 0 0) as [H|_]; [lia|].
    destruct (Z.ltb_spec (Z.of_nat (length parts) - 2) 0) as [H|_]; [lia|].
    rewrite Z.min_l by lia. rewrite Z.min_l by lia.
    cbn [Z.to_nat skipn]. f_equal. lia. }
  rewrite Hs. split.
  - rewrite <- (firstn_skipn (length parts - 2) parts) at 1. f_equal.
    assert (Hl : length (skipn (length parts - 2) parts) = 2)
      by (rewrite length_skipn; lia).
    destruct (skipn (length parts - 2) parts) as [|a [|b [|c r]]] eqn:E;
      simpl in Hl; try lia.
    rewrite <- (firstn_skipn (length parts - 2) parts) at 2 4.
    rewrite E.
    rewrite !app_nth2 by (rewrite length_firstn; lia).
    rewrite length_firstn.
    replace (length parts - 2 - Nat.min (length parts - 2) (length parts))
      with 0 by lia.
    replace (length parts - 1 - Nat.min (length parts - 2) (length parts))
      with 1 by lia.
    reflexivity.
  - intros E. apply (f_equal (@length _)) in E.
    rewrite length_firstn in E. simpl in E. lia.
Qed.

Lemma join_snoc2 sep (init : list jsstring) a b :
  init <> [] ->
  join sep (init ++ [a; b]) = join sep init ++ sep ++ a ++ sep ++ b.
Proof.
  induction init as [|p init IH]; intros Hne; [congruence|].
  destruct init as [|p' init].
  - reflexivity.
  - change (join sep ((p :: p' :: init) ++ [a; b]))
      with (p ++ sep ++ join sep ((p' :: init) ++ [a; b])).
    rewrite IH by discriminate.
    change (join sep (p :: p' :: init)) with (p ++ sep ++ join sep (p' :: init)).
    rewrite <- !app_assoc. reflexivity.
Qed.

Lemma re_year_inv year :
  test_anchored re_year year = true -> all_digits year /\ length year = 4.
Proof.
  unfold test_anchored, exec_at, re_year, chr, eos, done.
  destruct year as [|y1 [|y2 [|y3 [|y4 [|y5 year]]]]];
    try discriminate;
    try (destruct (is_digit y1); discriminate);
    try (destruct (is_digit y1), (is_digit y2); discriminate);
    try (destruct (is_digit y1), (is_digit y2), (is_digit y3); discriminate).
  - destruct (is_digit y1) eqn:H1, (is_digit y2) eqn:H2,
      (is_digit y3) eqn:H3, (is_digit y4) eqn:H4; try discriminate.
    intros _. split; [|reflexivity]. repeat constructor; assumption.
  - destruct (is_digit y1), (is_digit y2), (is_digit y3), (is_digit y4);
      discriminate.
Qed.

Lemma re_day_inv day :
  test_anchored re_day day = true ->
  all_digits day /\ 1 <= length day <= 2.
Proof.
  unfold test_anchored, exec_at, re_day, opt, chr, eos, done.
  destruct day as [|d1 [|d2 [|d3 day]]]; try discriminate.
  - destruct (is_digit d1) eqn:H1; [|discriminate].
    intros _. split; [repeat constructor; assumption|simpl; lia].
  - destruct (is_digit d1) eqn:H1; [|discriminate].
    destruct (is_digit d2) eqn:H2; [|discriminate].
    intros _. split; [repeat constructor; assumption|simpl; lia].
  - destruct (is_digit d1); [|discriminate].
    destruct (is_digit d2); discriminate.
Qed.

(** No key that [MONTHS] answers to holds a hyphen. *)
Lemma own_property_In table key n :
  own_property table key = Some n -> In (key, n) table.
Proof.
  induction table as [|[k v] rest IH]; simpl; [discriminate|].
  destruct (streq k key) eqn:E.
  - apply streq_true in E. intros H. injection H as <-. left. congruence.
  - intros H. right. apply IH, H.
Qed.

Lemma truthy_key_no_hyphen key :
  truthy (MONTHS_get key) = true -> ~ In 45%N key.
Proof.
  unfold MONTHS_get.
  destruct (own_property MONTHS_own key) as [n|] eqn:E.
  - intros _. apply own_property_In in E. simpl in E.
    repeat (destruct E as [E|E];
            [injection E as <- _; vm_compute; intuition discriminate|]).
    destruct E.
  - unfold Object_prototype_get.
    destruct (streq key (str "constructor")) eqn:E1.
    { apply streq_true in E1. subst key. intros _.
      vm_compute. intuition discriminate. }
    destruct (existsb (streq key) Object_prototype_methods) eqn:E2.
    { apply existsb_exists in E2. destruct E2 as [k [Hk Ek]].
      apply streq_true in Ek. subst k. intros _. simpl in Hk.
      repeat (destruct Hk as [Hk|Hk];
              [subst key; vm_compute; intuition discriminate|]).
      destruct Hk. }
    destruct (streq key (str "__proto__")) eqn:E3.
    { apply streq_true in E3. subst key. intros _.
      vm_compute. intuition discriminate. }
    discriminate.
Qed.

(** X6. The parser returns a date exactly for the slugs made of a key that
    [MONTHS] answers to, a day of one or two digits and a year of four
    digits, joined by hyphens; every other slug (fewer than three parts,
    another year or day, a month part with a hyphen or an unknown name)
    gives null. *)
Theorem parseDateFromSlug_accepts :
  forall slug date : jsstring,
    parseDateFromSlug slug = Some date
    <-> exists monthName day year,
          slug = monthName ++ str "-" ++ day ++ str "-" ++ year
          /\ truthy (MONTHS_get monthName) = true
          /\ all_digits day /\ 1 <= length day <= 2
          /\ all_digits year /\ length year = 4
          /\ date = year ++ str "-"
                      ++ padStart0 2 (String_of_value (MONTHS_get monthName))
                      ++ str "-"
                      ++ padStart0 2 (String_of_N (parseInt_digits day)).
Proof.
  intros slug date. split.
  - unfold parseDateFromSlug. cbv zeta.
    destruct (Nat.ltb_spec (length (split_char 45 slug)) 3) as [|Hlen];
      [discriminate|].
    destruct (last_two_parts (split_char 45 slug) Hlen) as [Hparts Hinit].
    set (parts := split_char 45 slug) in *.
    set (year := nth (length parts - 1) parts []) in *.
    set (day := nth (length parts - 2) parts []) in *.
    set (init := slice parts 0 (Z.of_nat (length parts) - 2)) in *.
    destruct (truthy (MONTHS_get (join (str "-") init))) eqn:Hm;
      [|discriminate].
    destruct (test_anchored re_year year) eqn:Hy; [|discriminate].
    destruct (test_anchored re_day day) eqn:Hd; [|discriminate].
    cbn [negb orb]. intros H. injection H as <-.
    exists (join (str "-") init), day, year.
    apply re_year_inv in Hy. apply re_day_inv in Hd.
    repeat split; try tauto.
    rewrite <- (join_split_char 45 slug). fold parts.
    rewrite Hparts at 1. apply (join_snoc2 [45%N] day year Hinit).
  - intros [monthName [day [year [-> [Hm [Hd [Hdl [Hy [Hyl ->]]]]]]]]].
    unfold parseDateFromSlug.
    change (str "-") with [45%N]. cbn [app].
    rewrite split_char_app by exact (truthy_key_no_hyphen _ Hm).
    rewrite split_char_app by exact (all_digits_no_hyphen Hd).
    rewrite split_char_plain by exact (all_digits_no_hyphen Hy).
    cbv zeta. cbn [length Nat.ltb Nat.leb Nat.sub nth].
    change (slice [monthName; day; year] 0 (Z.of_nat 3 - 2)) with [monthName].
    cbn [join]. rewrite Hm.
    destruct year as [|y1 [|y2 [|y3 [|y4 [|y5 year]]]]]; try discriminate.
    rewrite (re_year_digits Hy), (re_day_digits Hd Hdl).
    reflexivity.
Qed.

(** X7. The edition label of an article, whose slug is a key that [MONTHS]
    answers to, a day of one or two digits and a year: the month with a
    capital first letter, the day as a number without leading zero, and
    the year. *)
Theorem edition_of_slug_label :
  forall monthName day year : jsstring,
    truthy (MONTHS_get monthName) = true ->
    all_digits day -> 1 <= length day <= 2 -> all_digits year ->
    edition_of_slug (monthName ++ str "-" ++ day ++ str "-" ++ year)
    = str "Brain Food " ++ [8211%N] ++ str " " ++ capitalised monthName
        ++ str " " ++ String_of_N (parseInt_digits day) ++ str ", " ++ year.
Proof.
  intros monthName day year Hm Hd _ Hy. apply truthy_key_no_hyphen in Hm.
  unfold edition_of_slug.
  change (str "-") with [45%N]. cbn [app].
  rewrite split_char_app by exact Hm.
  rewrite split_char_app by exact (all_digits_no_hyphen Hd).
  rewrite split_char_plain by exact (all_digits_no_hyphen Hy).
  cbv zeta. cbn [length Nat.sub nth].
  change (slice [monthName; day; year] 0 (Z.of_nat 3 - 2)) with [monthName].
  cbn [join].
  destruct monthName as [|c rest]; reflexivity.
Qed.

Lemma edition_of_slug_label_witness :
  edition_of_slug (str "march-08-2026")
  = str "Brain Food " ++ [8211%N] ++ str " March 8, 2026".
Proof.
  apply (@edition_of_slug_label (str "march") (str "08") (str "2026")).
  - reflexivity.
  - repeat constructor.
  - simpl. lia.
  - repeat constructor.
Defined.

(** ** The shape of normalised text *)

Lemma collapsed_In s c :
  collapsed s -> In c s -> is_space c = true -> c = 32%N.
Proof.
  induction s as [|x s IH]; intros Hs Hin Hc; [destruct Hin|].
  destruct Hs as [Hx Hs]. destruct Hin as [<-|Hin].
  - apply Hx, Hc.
  - apply IH; assumption.
Qed.

Lemma collapsed_adjacent a c1 c2 b :
  collapsed (a ++ c1 :: c2 :: b) -> is_space c1 = true -> is_space c2 = false.
Proof.
  induction a as [|x a IH]; intros Hs Hc.
  - destruct Hs as [Hx _]. apply Hx, Hc.
  - destruct Hs as [_ Hs]. apply IH; assumption.
Qed.

Lemma trim_first s c r : trim s = c :: r -> is_space c = false.
Proof.
  unfold trim. pose proof (dropWhile_head is_space s) as H.
  destruct (dropWhile is_space s) as [|x u]; [discriminate|].
  rewrite (@trimEnd_head _ _ H). intros E. injection E as <- _. exact H.
Qed.

Lemma trimEnd_last s :
  forall r c, trimEnd s = r ++ [c] -> is_space c = false.
Proof.
  induction s as [|x s IH]; intros r c E.
  - destruct r; discriminate.
  - simpl in E. destruct (trimEnd s) as [|y t] eqn:Et.
    + destruct (is_space x) eqn:Ex; [destruct r; discriminate|].
      destruct r as [|z r]; [injection E as <-; exact Ex|].
      destruct r; discriminate.
    + destruct r as [|z r]; [discriminate|].
      injection E as _ E. apply (IH r c). exact E.
Qed.

(** X8. The text the normaliser returns has no white space but single
    spaces between other characters: every white-space unit is a space,
    no two follow each other, and the text neither starts nor ends with
    one. *)
Theorem stripHtml_shape :
  forall x : jsstring,
    (forall c, In c (stripHtml x) -> is_space c = true -> c = 32%N)
    /\ (forall a c1 c2 b,
           stripHtml x = a ++ c1 :: c2 :: b ->
           is_space c1 = true -> is_space c2 = false)
    /\ (forall c r, stripHtml x = c :: r -> is_space c = false)
    /\ (forall r c, stripHtml x = r ++ [c] -> is_space c = false).
Proof.
  intros x.
  assert (Hc : collapsed (stripHtml x)).
  { unfold stripHtml. cbv zeta. apply collapsed_trim, collapse_collapsed. }
  split; [intros c; apply collapsed_In, Hc|].
  split; [intros a c1 c2 b E; rewrite E in Hc;
          apply (collapsed_adjacent _ _ _ _ Hc)|].
  split.
  - unfold stripHtml. cbv zeta. intros c r. apply trim_first.
  - unfold stripHtml, trim. cbv zeta. intros r c. apply trimEnd_last.
Qed.

(** ** The length of normalised text *)

(** X9. The normaliser never returns a text longer than its input. *)
Theorem stripHtml_length :
  forall x : jsstring, length (stripHtml x) <= length x.
Proof.
  intros x. unfold stripHtml, trim. cbv zeta.
  eapply Nat.le_trans; [apply trimEnd_length|].
  eapply Nat.le_trans; [apply dropWhile_length|].
  repeat (eapply Nat.le_trans;
          [apply replace_all_length; simpl; lia|]).
  apply Nat.le_refl.
Qed.

(** X10. Clean text passes through the normaliser unchanged: a text without
    [<] and [&] whose white space is collapsed and trimmed is returned as
    it is. *)
Theorem stripHtml_clean :
  forall y : jsstring,
    ~ In 60%N y -> ~ In 38%N y -> collapsed y -> trim y = y ->
    stripHtml y = y.
Proof.
  intros y Hlt Hamp Hc Ht.
  rewrite (@stripHtml_plain _ Hlt Hamp), (@collapse_fixed _ Hc). exact Ht.
Qed.

Lemma stripHtml_clean_witness :
  stripHtml (str "Patience is a form of action.")
  = str "Patience is a form of action.".
Proof.
  apply stripHtml_clean; try not_in_list.
  - vm_compute. intuition discriminate.
  - reflexivity.
Defined.

(** ** Searching a text *)

(** [indexOf_aux] finds the first occurrence, or none when there is
    none. *)
Lemma indexOf_aux_spec p :
  forall s pos,
    (indexOf_aux s p pos = (-1)%Z /\ ~ occurs_in p s)
    \/ (exists a b,
           s = a ++ p ++ b
           /\ indexOf_aux s p pos = (pos + Z.of_nat (length a))%Z
           /\ forall a' b', s = a' ++ p ++ b' -> length a <= length a').
Proof.
  induction s as [|x s IH]; intros pos.
  - cbn [indexOf_aux]. destruct (startsWith [] p) eqn:E.
    + right. apply startsWith_iff in E. destruct E as [b Hb].
      exists [], b. split; [exact Hb|]. split; [cbn [length]; lia|].
      intros; cbn [length]; lia.
    + left. split; [reflexivity|]. intros [a [b Hab]].
      destruct a; [|discriminate]. simpl in Hab.
      assert (startsWith [] p = true) by (apply startsWith_iff; eauto).
      congruence.
  - cbn [indexOf_aux]. destruct (startsWith (x :: s) p) eqn:E.
    + right. apply startsWith_iff in E. destruct E as [b Hb].
      exists [], b. split; [exact Hb|]. split; [cbn [length]; lia|].
      intros; cbn [length]; lia.
    + assert (Hnot0 : forall b', x :: s <> p ++ b').
      { intros b' Hb'.
        assert (startsWith (x :: s) p = true) by (apply startsWith_iff; eauto).
        congruence. }
      destruct (IH (pos + 1)%Z) as [[Hnone Hno]|[a [b [Hs [Hidx Hmin]]]]].
      * left. split; [exact Hnone|]. intros [a' [b' Hab]].
        destruct a' as [|y a']; [exact (Hnot0 _ Hab)|].
        injection Hab as _ Hab. apply Hno. exists a', b'. exact Hab.
      * right. exists (x :: a), b. split; [simpl; congruence|].
        split; [rewrite Hidx; cbn [length]; lia|].
        intros a' b' Hab. destruct a' as [|y a']; [destruct (Hnot0 _ Hab)|].
        injection Hab as _ Hab. specialize (Hmin _ _ Hab). simpl. lia.
Qed.

Lemma indexOf_from_start s p :
  indexOf s p 0 = indexOf_aux s p 0.
Proof.
  unfold indexOf. rewrite Z.max_id.
  replace (Z.to_nat (Z.min 0 (Z.of_nat (length s)))) with 0 by lia.
  reflexivity.
Qed.

(** ** The section of the page *)

(** X11. A page yields quotes only if it carries the anchor: the section is
    looked for exactly when the attribute [id="h-tiny-thoughts"] occurs
    in the page, and without it the extractor returns no quote. *)
Theorem scrape_html_needs_anchor :
  forall html : jsstring,
    (tiny_thoughts_section html = None
     <-> ~ occurs_in anchor_attribute html)
    /\ (~ occurs_in anchor_attribute html ->
        forall date edition, scrape_html html date edition = []).
Proof.
  intros html.
  assert (Hiff : tiny_thoughts_section html = None
                 <-> ~ occurs_in anchor_attribute html).
  { unfold tiny_thoughts_section. cbv zeta. rewrite indexOf_from_start.
    destruct (indexOf_aux_spec anchor_attribute html 0)
      as [[Hnone Hno]|[a [b [Hs [Hidx _]]]]].
    - rewrite Hnone. simpl. tauto.
    - rewrite Hidx.
      destruct (Z.eqb_spec (0 + Z.of_nat (length a)) (-1)) as [H|_]; [lia|].
      split; [discriminate|]. intros Hno. exfalso. apply Hno.
      exists a, b. exact Hs. }
  split; [exact Hiff|].
  intros Hno date edition. unfold scrape_html.
  rewrite (proj2 Hiff Hno). reflexivity.
Qed.

Lemma indexOf_lower s p from : (-1 <= indexOf s p from)%Z.
Proof.
  unfold indexOf.
  destruct (indexOf_aux_spec p
              (skipn (Z.to_nat (Z.min (Z.max from 0) (Z.of_nat (length s)))) s)
              (Z.of_nat (Z.to_nat (Z.min (Z.max from 0)
                                         (Z.of_nat (length s))))))
    as [[H _]|[a [b [_ [H _]]]]]; rewrite H; lia.
Qed.

Lemma indexOf_nonneg s p from :
  (0 <= from)%Z ->
  indexOf s p from
  = indexOf_aux (skipn (Z.to_nat (Z.min from (Z.of_nat (length s)))) s) p
                (Z.min from (Z.of_nat (length s))).
Proof.
  intros H. unfold indexOf. rewrite Z.max_l by lia.
  rewrite Z2Nat.id by lia. reflexivity.
Qed.

Lemma slice_nonneg {A : Type} (l : list A) a b :
  (0 <= a)%Z -> (0 <= b)%Z ->
  slice l a b
  = firstn (Z.to_nat (Z.min b (Z.of_nat (length l))
                      - Z.min a (Z.of_nat (length l))))
           (skipn (Z.to_nat (Z.min a (Z.of_nat (length l)))) l).
Proof.
  intros Ha Hb. unfold slice, slice_index.
  destruct (Z.ltb_spec a 0) as [H|_]; [lia|].
  destruct (Z.ltb_spec b 0) as [H|_]; [lia|].
  reflexivity.
Qed.

Lemma occurs_in_prefix p s n : occurs_in p (firstn n s) -> occurs_in p s.
Proof.
  intros [a [b Hab]]. exists a, (b ++ skipn n s).
  rewrite <- (firstn_skipn n s) at 1. rewrite Hab, <- !app_assoc.
  reflexivity.
Qed.

(** X12. The section is a piece of the page that never reaches into the
    next part: it holds no [<h2]; it ends where the next [<h2] starts,
    or, when none follows, after at most 8000 code units. *)
Theorem tiny_thoughts_section_bounds :
  forall html section : jsstring,
    tiny_thoughts_section html = Some section ->
    exists before after,
      html = before ++ section ++ after
      /\ ~ occurs_in (str "<h2") section
      /\ (startsWith after (str "<h2") = true
          \/ (~ occurs_in (str "<h2") after
              /\ (Z.of_nat (length section) <= 8000)%Z)).
Proof.
  intros html section. unfold tiny_thoughts_section. cbv zeta.
  destruct (indexOf html anchor_attribute 0 =? -1)%Z; [discriminate|].
  pose proof (indexOf_lower html (str "</h2>")
                            (indexOf html anchor_attribute 0)) as Hlow.
  remember (indexOf html (str "</h2>")
                    (indexOf html anchor_attribute 0) + 5)%Z as h2EndIdx
    eqn:Eh.
  assert (H0 : (0 <= h2EndIdx)%Z) by lia. clear Eh Hlow.
  rewrite (indexOf_nonneg html (str "<h2") H0).
  remember (Z.to_nat (Z.min h2EndIdx (Z.of_nat (length html)))) as k eqn:Ek.
  assert (Hk : Z.min h2EndIdx (Z.of_nat (length html)) = Z.of_nat k) by lia.
  rewrite Hk.
  destruct (indexOf_aux_spec (str "<h2") (skipn k html) (Z.of_nat k))
    as [[Hnone Hno]|[a [b [Ht [Hidx Hmin]]]]].
  - rewrite Hnone, Z.eqb_refl. cbn [negb].
    rewrite slice_nonneg by lia. rewrite Hk, Nat2Z.id.
    remember (Z.to_nat (Z.min (h2EndIdx + 8000) (Z.of_nat (length html))
                        - Z.of_nat k)) as n eqn:En.
    intros E. injection E as <-.
    exists (firstn k html), (skipn n (skipn k html)).
    split; [rewrite firstn_skipn, firstn_skipn; reflexivity|].
    split; [intros H; apply Hno; apply occurs_in_prefix in H; exact H|].
    right. split.
    + intros [a' [b' Hab]]. apply Hno.
      exists (firstn n (skipn k html) ++ a'), b'.
      rewrite <- (firstn_skipn n (skipn k html)) at 1.
      rewrite Hab, <- app_assoc. reflexivity.
    + rewrite length_firstn. lia.
  - rewrite Hidx.
    destruct (Z.eqb_spec (Z.of_nat k + Z.of_nat (length a)) (-1)) as [H|_];
      [lia|].
    cbn [negb].
    assert (Hlt : length (skipn k html) = length a + (3 + length b)).
    { rewrite Ht, !length_app. reflexivity. }
    rewrite length_skipn in Hlt.
    rewrite slice_nonneg by lia. rewrite Hk, Nat2Z.id.
    replace (Z.to_nat (Z.min (Z.of_nat k + Z.of_nat (length a))
                             (Z.of_nat (length html))
                       - Z.of_nat k))
      with (length a) by lia.
    intros E. injection E as <-.
    rewrite Ht, firstn_app, firstn_all, Nat.sub_diag. cbn [firstn].
    rewrite app_nil_r.
    exists (firstn k html), (str "<h2" ++ b).
    split; [rewrite <- Ht, firstn_skipn; reflexivity|].
    split.
    + intros [a' [b' Hab]].
      assert (Hle : length a <= length a').
      { apply (Hmin a' (b' ++ str "<h2" ++ b)).
        rewrite Ht, Hab, <- !app_assoc. reflexivity. }
      apply (f_equal (@length _)) in Hab. rewrite !length_app in Hab.
      simpl in Hab. lia.
    + left. apply startsWith_iff. exists b. reflexivity.
Qed.

(** ** The quotes of a page *)

Lemma join_first_length sep p ps :
  length p <= length (join sep (p :: ps)).
Proof.
  destruct ps as [|p' ps]; simpl; [lia|].
  rewrite length_app. lia.
Qed.

Lemma In_firstn {A : Type} (n : nat) (l : list A) (x : A) :
  In x (firstn n l) -> In x l.
Proof.
  intros H. rewrite <- (firstn_skipn n l). apply in_or_app. left. exact H.
Qed.

Lemma group_parts_long group part :
  In part (group_parts group) ->
  5 < length part /\ exists raw, part = stripHtml raw.
Proof.
  unfold group_parts. intros H. apply filter_In in H.
  destruct H as [Hin Hlen]. apply Nat.ltb_lt in Hlen.
  split; [exact Hlen|]. apply in_map_iff in Hin.
  destruct Hin as [raw [<- _]]. exists raw. reflexivity.
Qed.

Lemma scrape_html_from_groups html date edition q :
  In q (scrape_html html date edition) ->
  exists section group,
    tiny_thoughts_section html = Some section
    /\ In group (split re_hr section)
    /\ group_parts group <> []
    /\ q = Quote.mk (join (str " ") (group_parts group)) edition date.
Proof.
  unfold scrape_html.
  destruct (tiny_thoughts_section html) as [section|]; [|intros []].
  rewrite (scrape_groups_take date edition (split re_hr section) []).
  cbn [app]. intros Hq. apply In_firstn in Hq. apply in_map_iff in Hq.
  destruct Hq as [group [<- Hg]]. apply filter_In in Hg.
  destruct Hg as [Hg Hc]. exists section, group.
  split; [reflexivity|]. split; [exact Hg|]. split; [|reflexivity].
  unfold contributes in Hc. destruct (group_parts group); [discriminate|].
  discriminate.
Qed.

(** X13. Every quote the extractor returns carries the date and the edition
    it was given, and a text of more than 5 code units, the surviving
    paragraphs of one group of the section joined by spaces. *)
Theorem scrape_html_quotes :
  forall (html date edition : jsstring) (q : Quote.t),
    In q (scrape_html html date edition) ->
    Quote.date q = date /\ Quote.edition q = edition
    /\ 5 < length (Quote.text q)
    /\ exists section group,
         tiny_thoughts_section html = Some section
         /\ In group (split re_hr section)
         /\ Quote.text q = join (str " ") (group_parts group).
Proof.
  intros html date edition q Hq.
  destruct (scrape_html_from_groups _ _ _ _ Hq)
    as [section [group [Hs [Hg [Hne ->]]]]].
  cbn [Quote.date Quote.edition Quote.text].
  split; [reflexivity|]. split; [reflexivity|]. split.
  - destruct (group_parts group) as [|p ps] eqn:E; [congruence|].
    assert (Hp : 5 < length p).
    { apply (@group_parts_long group p). rewrite E. left. reflexivity. }
    exact (Nat.lt_le_trans _ _ _ Hp (join_first_length (str " ") p ps)).
  - exists section, group. auto.
Qed.

(** ** The number of requests *)

Section RequestFacts.
Variable World : Type.
Variable https_get : jsstring -> World -> outcome * World.

Lemma fetchUrl_rec_counting budget :
  forall url redirects w n,
    exists res w' n',
      fetchUrl_rec (counting https_get) budget url redirects (w, n)
      = (res, (w', n'))
      /\ fetchUrl_rec https_get budget url redirects w = (res, w')
      /\ n <= n' <= n + budget.
Proof.
  induction budget as [|b IH]; intros url r w n.
  - exists (inl TooManyRedirects), w, n.
    rewrite !fetchUrl_rec_0. repeat split; lia.
  - rewrite !fetchUrl_rec_S. destruct (5 <? r).
    + exists (inl TooManyRedirects), w, n. repeat split; lia.
    + unfold counting at 1. cbn [fst snd].
      destruct (https_get url w) as [[msg|st loc data] w1].
      * exists (inl (NetworkError msg)), w1, (S n). repeat split; lia.
      * destruct ((300 <=? st)%Z && (st <? 400)%Z && header_truthy loc).
        -- destruct (IH (redirect_target
                           match loc with Some l => l | None => [] end)
                        (r + 1) w1 (S n)) as [res [w' [n' [H1 [H2 H3]]]]].
           exists res, w', n'. repeat split; try assumption; lia.
        -- exists (inr data), w1, (S n). repeat split; lia.
Qed.

(** X14. One call of the fetcher makes at most six requests, whatever the
    servers answer; counting the requests does not change its result. *)
Theorem fetchUrl_request_bound :
  forall (url : jsstring) (redirects : nat) (w : World) (n : nat),
    exists res w' n',
      fetchUrl (counting https_get) url redirects (w, n) = (res, (w', n'))
      /\ fetchUrl https_get url redirects w = (res, w')
      /\ n <= n' <= n + (6 - redirects).
Proof.
  intros url redirects w n. unfold fetchUrl.
  apply fetchUrl_rec_counting.
Qed.




End RequestFacts.

(** ** What a run can end in *)

Section OutcomeFacts.
Variable World : Type.
Variable https_get : jsstring -> World -> outcome * World.
Variable Date_parse : jsstring -> option Z.
Variable JSON_parse : jsstring -> option Store.t.
Variable JSON_stringify : Store.t -> jsstring.

Lemma scrapeArticle_quotes url date edition w quotes w' :
  scrapeArticle https_get url date edition w = (inr quotes, w') ->
  length quotes <= 3
  /\ forall q, In q quotes ->
               Quote.date q = date /\ Quote.edition q = edition.
Proof.
  unfold scrapeArticle, await.
  destruct (fetchUrl https_get url 0 w) as [[e|html] w1]; [discriminate|].
  unfold resolve. intros H. injection H as <- _. split.
  - unfold scrape_html. destruct (tiny_thoughts_section html); [|simpl; lia].
    rewrite scrape_groups_take. cbn [app]. rewrite length_firstn. lia.
  - intros q Hq.
    destruct (scrape_html_from_groups _ _ _ _ Hq)
      as [section [group [_ [_ [_ ->]]]]].
    split; reflexivity.
Qed.

(** X16. With a state file that is absent or holds a store, a run fails in
    two ways only, a state file that [JSON.parse] rejects and an index
    page that cannot be fetched; it then exits with status 1 and leaves
    the state file as it was.  In every other case, whatever happens to
    the article pages, it exits with status 0 and has written a merge of
    the loaded state. *)
Theorem run_outcomes :
  forall (file : option jsstring) (w : World),
    match load_state JSON_parse file w with
    | (inl _, _) =>
        run https_get Date_parse JSON_parse JSON_stringify file w
        = ((1%Z, file), w)
    | (inr existing, _) =>
        match fetchUrl https_get index_url 0 w with
        | (inl _, w1) =>
            run https_get Date_parse JSON_parse JSON_stringify file w
            = ((1%Z, file), w1)
        | (inr indexHtml, w1) =>
            exists newQuotes w',
              scrape_all https_get
                (articles_to_process Date_parse (Store.lastUpdated existing)
                                     (article_links indexHtml))
                [] w1 = (newQuotes, w')
              /\ run https_get Date_parse JSON_parse JSON_stringify file w
                 = ((0%Z, Some (JSON_stringify (merge existing newQuotes))),
                    w')
        end
    end.
Proof.
  intros file w. unfold run, main, await.
  assert (Hload : snd (load_state JSON_parse file w) = w).
  { unfold load_state, resolve, reject.
    destruct file as [content|]; [destruct (JSON_parse content)|];
      reflexivity. }
  destruct (load_state JSON_parse file w) as [[e|existing] w0];
    simpl in Hload; subst w0; [reflexivity|].
  unfold main_from, await.
  destruct (fetchUrl https_get index_url 0 w) as [[e|indexHtml] w1];
    [reflexivity|].
  destruct (scrape_all https_get _ [] w1) as [newQuotes w'].
  exists newQuotes, w'. split; reflexivity.
Qed.

End OutcomeFacts.

(** ** The quotes a run gathers *)

Lemma StronglySorted_app_le (l1 l2 : list jsstring) :
  StronglySorted (fun a b => str_leb a b = true) l1 ->
  StronglySorted (fun a b => str_leb a b = true) l2 ->
  (forall a b, In a l1 -> In b l2 -> str_leb a b = true) ->
  StronglySorted (fun a b => str_leb a b = true) (l1 ++ l2).
Proof.
  induction l1 as [|x l1 IH]; intros H1 H2 H12; [exact H2|].
  apply StronglySorted_inv in H1. destruct H1 as [H1 Hx].
  cbn [app]. constructor.
  - apply IH; [exact H1|exact H2|].
    intros a b Ha Hb. apply H12; [right; exact Ha|exact Hb].
  - rewrite Forall_forall in *. intros y Hy. apply in_app_or in Hy.
    destruct Hy as [Hy|Hy]; [apply Hx, Hy|].
    apply H12; [left; reflexivity|exact Hy].
Qed.

Lemma StronglySorted_constant (d : jsstring) (l : list jsstring) :
  (forall x, In x l -> x = d) ->
  StronglySorted (fun a b => str_leb a b = true) l.
Proof.
  induction l as [|x l IH]; intros H; [constructor|].
  constructor.
  - apply IH. intros y Hy. apply H. right. exact Hy.
  - rewrite Forall_forall. intros y Hy.
    rewrite (H x (or_introl eq_refl)), (H y (or_intror Hy)).
    apply str_leb_refl.
Qed.

Section GatherFacts.
Variable World : Type.
Variable https_get : jsstring -> World -> outcome * World.

Lemma scrape_all_spec articles :
  forall newQuotes w,
    exists added,
      fst (scrape_all https_get articles newQuotes w) = newQuotes ++ added
      /\ length added <= 3 * length articles
      /\ (forall q, In q added ->
            exists a, In a articles
                      /\ Quote.date q = Article.date a
                      /\ Quote.edition q = edition_of_slug (Article.slug a))
      /\ (StronglySorted (fun a b => str_leb a b = true)
                         (map Article.date articles) ->
          StronglySorted (fun a b => str_leb a b = true)
                         (map Quote.date added)).
Proof.
  induction articles as [|a rest IH]; intros newQuotes w.
  - exists []. simpl. rewrite app_nil_r.
    repeat split; [lia|intros q []|constructor].
  - cbn [scrape_all].
    destruct (scrapeArticle https_get (Article.url a) (Article.date a)
                (edition_of_slug (Article.slug a)) w)
      as [[e|quotes] w1] eqn:Ea.
    + destruct (IH newQuotes w1) as [added [H1 [H2 [H3 H4]]]].
      exists added. split; [exact H1|]. split; [cbn [length]; lia|].
      split.
      * intros q Hq. destruct (H3 q Hq) as [a' [Ha' Hd]].
        exists a'. split; [right; exact Ha'|exact Hd].
      * intros Hs. apply H4. cbn [map] in Hs.
        apply StronglySorted_inv in Hs. apply Hs.
    + destruct (scrapeArticle_quotes _ _ _ _ _ Ea) as [Hlen Hq].
      destruct (length quotes =? 0) eqn:E0.
      * apply Nat.eqb_eq in E0.
        destruct quotes; [|discriminate].
        destruct (IH newQuotes w1) as [added [H1 [H2 [H3 H4]]]].
        exists added. split; [exact H1|]. split; [cbn [length]; lia|].
        split.
        -- intros q Hq'. destruct (H3 q Hq') as [a' [Ha' Hd]].
           exists a'. split; [right; exact Ha'|exact Hd].
        -- intros Hs. apply H4. cbn [map] in Hs.
           apply StronglySorted_inv in Hs. apply Hs.
      * destruct (IH (newQuotes ++ quotes) w1) as [added [H1 [H2 [H3 H4]]]].
        exists (quotes ++ added).
        split; [rewrite H1, app_assoc; reflexivity|].
        split; [rewrite length_app; cbn [length]; lia|].
        split.
        -- intros q Hq'. apply in_app_or in Hq'.
           destruct Hq' as [Hq'|Hq'].
           ++ exists a. split; [left; reflexivity|]. apply Hq, Hq'.
           ++ destruct (H3 q Hq') as [a' [Ha' Hd]].
              exists a'. split; [right; exact Ha'|exact Hd].
        -- intros Hs. cbn [map] in Hs.
           apply StronglySorted_inv in Hs. destruct Hs as [Hs Ha].
           rewrite map_app. apply StronglySorted_app_le.
           ++ apply (@StronglySorted_constant (Article.date a)).
              intros x Hx. apply in_map_iff in Hx.
              destruct Hx as [q [<- Hq']]. apply Hq, Hq'.
           ++ apply H4, Hs.
           ++ intros x y Hx Hy. apply in_map_iff in Hx, Hy.
              destruct Hx as [q [<- Hq1]]. destruct Hy as [q' [<- Hq2]].
              destruct (Hq q Hq1) as [-> _].
              destruct (H3 q' Hq2) as [a' [Ha' [-> _]]].
              rewrite Forall_forall in Ha. apply Ha.
              apply in_map, Ha'.
Qed.

Lemma scrape_html_bounds html date edition :
  length (scrape_html html date edition) <= 3
  /\ forall q, In q (scrape_html html date edition) ->
               Quote.date q = date /\ Quote.edition q = edition.
Proof.
  split.
  - unfold scrape_html. destruct (tiny_thoughts_section html); [|simpl; lia].
    rewrite scrape_groups_take. cbn [app]. rewrite length_firstn. lia.
  - intros q Hq.
    destruct (scrape_html_from_groups _ _ _ _ Hq)
      as [section [group [_ [_ [_ ->]]]]].
    split; reflexivity.
Qed.

Lemma fetch_each_articles articles :
  forall w, map fst (fst (fetch_each https_get articles w)) = articles.
Proof.
  induction articles as [|a rest IH]; intros w; [reflexivity|].
  cbn [fetch_each].
  destruct (fetchUrl https_get (Article.url a) 0 w) as [page w1].
  specialize (IH w1).
  destruct (fetch_each https_get rest w1) as [pages w2].
  cbn [fst map] in *. rewrite IH. reflexivity.
Qed.

(** X17. The loop over the articles returns the quotes gathered so far
    followed, in the order of the articles, by the quotes of the pages
    that could be fetched, and by nothing else: an article whose page
    fails to load adds no quote, a page without quotes adds none, and no
    quote gathered before is lost.  Each page adds at most three quotes,
    with the date and the edition label of its article. *)
Theorem scrape_all_adds :
  forall (articles : list Article.t) (newQuotes : list Quote.t) (w : World),
    let pages := fst (fetch_each https_get articles w) in
    let quotes_of := fun p : Article.t * (error + jsstring) =>
      match snd p with
      | inl _ => []
      | inr html =>
          scrape_html html (Article.date (fst p))
                      (edition_of_slug (Article.slug (fst p)))
      end in
    scrape_all https_get articles newQuotes w
    = (newQuotes ++ flat_map quotes_of pages,
       snd (fetch_each https_get articles w))
    /\ map fst pages = articles
    /\ forall p, In p pages ->
         length (quotes_of p) <= 3
         /\ forall q, In q (quotes_of p) ->
              Quote.date q = Article.date (fst p)
              /\ Quote.edition q = edition_of_slug (Article.slug (fst p)).
Proof.
  intros articles newQuotes w pages quotes_of. split; [|split].
  - unfold pages. clear pages. revert newQuotes w.
    induction articles as [|a rest IH]; intros newQuotes w.
    + cbn [scrape_all fetch_each fst snd flat_map]. rewrite app_nil_r.
      reflexivity.
    + cbn [scrape_all fetch_each]. unfold scrapeArticle, await.
      destruct (fetchUrl https_get (Article.url a) 0 w) as [[e|html] w1].
      * rewrite IH.
        destruct (fetch_each https_get rest w1) as [pages w2].
        cbn [fst snd flat_map]. unfold quotes_of at 2. cbn [fst snd app].
        reflexivity.
      * unfold resolve.
        set (quotes := scrape_html html (Article.date a)
                         (edition_of_slug (Article.slug a))).
        assert (Hstep :
                  (if length quotes =? 0
                   then scrape_all https_get rest newQuotes w1
                   else scrape_all https_get rest (newQuotes ++ quotes) w1)
                  = scrape_all https_get rest (newQuotes ++ quotes) w1).
        { destruct (length quotes =? 0) eqn:E0; [|reflexivity].
          apply Nat.eqb_eq in E0. destruct quotes; [|discriminate].
          rewrite app_nil_r. reflexivity. }
        rewrite Hstep, IH.
        destruct (fetch_each https_get rest w1) as [pages w2].
        cbn [fst snd flat_map]. unfold quotes_of at 2. cbn [fst snd].
        fold quotes. rewrite app_assoc. reflexivity.
  - apply fetch_each_articles.
  - intros p Hp. unfold quotes_of. destruct (snd p) as [e|html].
    + split; [simpl; lia|intros q []].
    + apply scrape_html_bounds.
Qed.

(** X18. The quotes a run gathers are in ascending order of date, oldest
    first, and each has the date of a link of the index page whose slug
    parses to that date and that is after the watermark. *)
Theorem gathered_quotes_ascending :
  forall (Date_parse : jsstring -> option Z) (lastUpdated : jsstring)
         (urlSet : list jsstring) (w : World),
    let newQuotes :=
      fst (scrape_all https_get
             (articles_to_process Date_parse lastUpdated urlSet) [] w) in
    StronglySorted (fun a b => str_leb a b = true) (map Quote.date newQuotes)
    /\ forall q, In q newQuotes ->
          exists url, In url urlSet
                      /\ parseDateFromSlug (slug_of_url url)
                         = Some (Quote.date q)
                      /\ Date_gt (Date_parse (Quote.date q))
                                 (Date_parse lastUpdated) = true.
Proof.
  intros Date_parse lastUpdated urlSet w newQuotes.
  set (articles := articles_to_process Date_parse lastUpdated urlSet) in *.
  destruct (scrape_all_spec articles [] w) as [added [H1 [_ [H3 H4]]]].
  cbn [app] in H1. unfold newQuotes. rewrite H1. split.
  - apply H4. unfold articles, articles_to_process.
    assert (Hs := @sort_sorted _ article_le
                    (fun a b => str_leb_total (Article.date a) (Article.date b))
                    (fun a b c => @str_leb_trans (Article.date a)
                                    (Article.date b) (Article.date c))
                    (newer_articles Date_parse (Date_parse lastUpdated)
                                    urlSet)).
    induction Hs as [|a l Hl IH Ha]; [constructor|].
    cbn [map]. constructor; [exact IH|].
    rewrite Forall_forall in *. intros d Hd. apply in_map_iff in Hd.
    destruct Hd as [b [<- Hb]]. apply (Ha b Hb).
  - intros q Hq. destruct (H3 q Hq) as [a [Ha [Hd _]]].
    unfold articles, articles_to_process in Ha.
    apply (Permutation_in _ (sort_perm _ _)) in Ha.
    rewrite newer_articles_filter in Ha. apply in_map_iff in Ha.
    destruct Ha as [url [<- Hurl]]. apply filter_In in Hurl.
    destruct Hurl as [Hurl Hkeep]. exists url. split; [exact Hurl|].
    unfold newer_than_watermark in Hkeep. rewrite Hd.
    unfold article_of_url. cbn [Article.date].
    destruct (parseDateFromSlug (slug_of_url url)) as [date|];
      [|discriminate].
    split; [reflexivity|exact Hkeep].
Qed.

End GatherFacts.

(** ** Article addresses and slugs *)

Lemma exec_at_lit_done p rest :
  exec_at (lit p done) (p ++ rest) = Some (length p, None).
Proof.
  unfold exec_at, lit, done.
  replace (startsWith (p ++ rest) p) with true
    by (symmetry; apply startsWith_iff; eauto).
  reflexivity.
Qed.

Lemma replace_first_prefix p rest :
  replace_first (lit p done) [] (p ++ rest) = rest.
Proof.
  destruct p as [|c p].
  - destruct rest; reflexivity.
  - cbn [app replace_first].
    change (c :: p ++ rest) with ((c :: p) ++ rest).
    rewrite exec_at_lit_done.
    rewrite skipn_app, skipn_all, Nat.sub_diag. reflexivity.
Qed.

Lemma replace_first_trailing_slash s :
  replace_first re_trailing_slash [] (s ++ str "/") = s.
Proof.
  induction s as [|c s IH]; [reflexivity|].
  cbn [app replace_first].
  assert (Hnone : exec_at re_trailing_slash (c :: s ++ str "/") = None).
  { unfold exec_at, re_trailing_slash, lit, eos.
    change (str "/") with [47%N].
    cbn [startsWith length skipn].
    destruct (N.eqb 47 c); [|reflexivity]. cbn [andb].
    destruct s; reflexivity. }
  rewrite Hnone, IH. reflexivity.
Qed.

(** X19. The slug of an article address is what stands between the address
    of the index and the final slash, whatever it is. *)
Theorem slug_of_url_address :
  forall slug : jsstring,
    slug_of_url (index_url ++ slug ++ str "/") = slug.
Proof.
  intros slug. unfold slug_of_url, index_url.
  rewrite replace_first_prefix. apply replace_first_trailing_slash.
Qed.

Lemma capture_text (s before text rest : jsstring) (a b : nat) :
  s = before ++ text ++ rest ->
  a = length before -> b = length before + length text ->
  firstn (b - a) (skipn a s) = text.
Proof.
  intros -> -> ->.
  rewrite skipn_app, skipn_all, Nat.sub_diag. cbn [skipn app].
  replace (length before + length text - length before) with (length text)
    by lia.
  rewrite firstn_app, firstn_all, Nat.sub_diag. cbn [firstn].
  apply app_nil_r.
Qed.

(** The capture of a match of a pattern of the form of the link pattern,
    for any literals and classes. *)
Lemma link_pattern_capture (H P Sep Slash Q : jsstring)
    (fl fs fd : N -> bool) t n cap :
  exec_at
    (lit H
       (gopen
          (lit P
             (chr fl
                (plus fs
                   (lit Sep
                      (chr fd
                         (chr fd
                            (chr fd
                               (chr fd
                                  (lit Slash
                                     (gclose (lit Q done)))))))))))))
    t
  = Some (n, cap) ->
  exists x body year,
    cap = Some (P ++ (x :: body ++ Sep ++ year) ++ Slash)
    /\ fl x = true /\ body <> []
    /\ Forall (fun c => fs c = true) body
    /\ Forall (fun c => fd c = true) year /\ length year = 4.
Proof.
  unfold exec_at.
  match goal with
  | |- match ?m with _ => _ end = _ -> _ =>
      destruct m as [[n' [ca cb]]|] eqn:E; [|discriminate]
  end.
  apply lit_inv in E. destruct E as [t1 [Et E]].
  unfold gopen in E. cbn [snd] in E.
  apply lit_inv in E. destruct E as [t2 [-> E]].
  apply chr_inv in E. destruct E as [x [t3 [-> [Hx E]]]].
  unfold plus in E.
  apply chr_inv in E. destruct E as [u0 [t4 [-> [Hu0 E]]]].
  apply star_inv in E. destruct E as [u [t5 [-> [Hu E]]]].
  apply lit_inv in E. destruct E as [t6 [-> E]].
  apply chr_inv in E. destruct E as [d1 [t7 [-> [Hd1 E]]]].
  apply chr_inv in E. destruct E as [d2 [t8 [-> [Hd2 E]]]].
  apply chr_inv in E. destruct E as [d3 [t9 [-> [Hd3 E]]]].
  apply chr_inv in E. destruct E as [d4 [t10 [-> [Hd4 E]]]].
  apply lit_inv in E. destruct E as [t11 [-> E]].
  unfold gclose in E. cbn [fst] in E.
  apply lit_inv in E. destruct E as [t12 [-> E]].
  unfold done in E.
  match type of E with
  | Some (_, (Some ?a, Some ?b)) = _ =>
      remember b as b0 eqn:Eb; remember a as a0 eqn:Ea
  end.
  injection E as <- <- <-.
  intros Hc. injection Hc as <- <-.
  exists x, (u0 :: u), [d1; d2; d3; d4].
  split.
  - f_equal.
    apply capture_text with (before := H) (rest := Q ++ t12).
    + rewrite Et. cbn [app]. rewrite <- !app_assoc. cbn [app].
      rewrite <- !app_assoc. reflexivity.
    + lia.
    + rewrite Eb, Ea, !length_app. cbn [length]. rewrite !length_app.
      cbn [length]. lia.
  - split; [exact Hx|]. split; [discriminate|].
    split; [constructor; assumption|].
    split; [repeat constructor; assumption|reflexivity].
Qed.

(** The capture of a match of the link pattern. *)
Lemma linkRegex_capture t n cap :
  exec_at linkRegex t = Some (n, cap) ->
  exists slug, link_slug slug /\ cap = Some (index_url ++ slug ++ str "/").
Proof.
  unfold linkRegex. intros E. apply link_pattern_capture in E.
  destruct E as [x [body [year [-> [Hx [Hb [Hbody [Hyear Hlen]]]]]]]].
  exists (x :: body ++ str "-" ++ year). split; [|reflexivity].
  exists x, body, year. repeat split; assumption.
Qed.

Lemma captures_scan m s :
  forall k cap,
    In cap (captures (scan m k s)) ->
    exists t n c,
      exec_at m t = Some (n, c)
      /\ cap = match c with Some x => x | None => [] end.
Proof.
  induction s as [|x s IH]; intros k cap Hin; [destruct Hin|].
  destruct k as [|k]; cbn [scan] in Hin.
  - destruct (exec_at m (x :: s)) as [[n c]|] eqn:E.
    + assert (Hcase : cap = match c with Some y => y | None => [] end
                      \/ In cap (captures (scan m (n - 1) s))).
      { destruct c as [y|]; cbn [captures] in Hin;
          destruct Hin as [<-|Hin]; auto. }
      destruct Hcase as [->|Hrest].
      * exists (x :: s), n, c. auto.
      * apply (IH _ _ Hrest).
    + cbn [captures] in Hin. apply (IH _ _ Hin).
  - apply (IH _ _ Hin).
Qed.

(** X20. The article links of an index page are distinct, and each is the
    address of the index followed by a slug and a slash, where the slug
    is a lower-case letter, letters, digits or hyphens, a hyphen and four
    digits; the slug the orchestrator derives from the link is that
    slug. *)
Theorem article_links_shape :
  forall indexHtml : jsstring,
    NoDup (article_links indexHtml)
    /\ forall url,
         In url (article_links indexHtml) ->
         exists slug,
           link_slug slug
           /\ url = index_url ++ slug ++ str "/"
           /\ slug_of_url url = slug.
Proof.
  intros indexHtml. unfold article_links. split; [apply Set_of_NoDup|].
  intros url Hin. apply (proj1 (Set_of_In _ _)) in Hin.
  unfold exec_all in Hin.
  apply captures_scan in Hin. destruct Hin as [t [n [c [E ->]]]].
  apply linkRegex_capture in E. destruct E as [slug [Hslug ->]].
  exists slug. split; [exact Hslug|]. split; [reflexivity|].
  unfold slug_of_url, index_url.
  rewrite replace_first_prefix. apply replace_first_trailing_slash.
Qed.

(** ** Zero padding *)

Lemma padStart0_two_digits n :
  (n < 100)%N ->
  padStart0 2 (String_of_N n) = [(48 + n / 10)%N; (48 + n mod 10)%N].
Proof.
  intros Hn.
  assert (Hall : forallb
                   (fun k =>
                      streq (padStart0 2 (String_of_N (N.of_nat k)))
                            [(48 + N.of_nat k / 10)%N;
                             (48 + N.of_nat k mod 10)%N])
                   (seq 0 100) = true) by (vm_compute; reflexivity).
  rewrite forallb_forall in Hall.
  specialize (Hall (N.to_nat n)).
  rewrite N2Nat.id in Hall. apply streq_true, Hall.
  apply in_seq. lia.
Qed.

Lemma parseInt_digits_small day :
  all_digits day -> 1 <= length day <= 2 ->
  (parseInt_digits day < 100)%N.
Proof.
  intros Hd Hlen. unfold all_digits in Hd. rewrite Forall_forall in Hd.
  assert (Hb : forall c, In c day -> (48 <= c <= 57)%N).
  { intros c Hc. specialize (Hd c Hc). unfold is_digit in Hd.
    apply andb_true_iff in Hd. destruct Hd as [H1 H2].
    apply N.leb_le in H1, H2. lia. }
  destruct day as [|d1 [|d2 [|d3 day]]]; simpl in Hlen; try lia.
  - specialize (Hb d1 (or_introl eq_refl)).
    unfold parseInt_digits. cbn [fold_left]. lia.
  - pose proof (Hb d1 (or_introl eq_refl)).
    pose proof (Hb d2 (or_intror (or_introl eq_refl))).
    unfold parseInt_digits. cbn [fold_left]. lia.
Qed.

(** X21. The date of a slug made of a month of the table, a day of one or
    two digits and a year of four digits is zero-padded: the year, a
    hyphen, the two digits of the number of the month, a hyphen and the
    two digits of the number of the day. *)
Theorem parseDateFromSlug_zero_padded :
  forall (monthName : jsstring) (month : N) (day year : jsstring),
    In (monthName, month) MONTHS_own ->
    all_digits day -> 1 <= length day <= 2 ->
    all_digits year -> length year = 4 ->
    (1 <= month <= 12)%N
    /\ parseDateFromSlug (monthName ++ str "-" ++ day ++ str "-" ++ year)
       = Some (year ++ str "-"
                    ++ [(48 + month / 10)%N; (48 + month mod 10)%N]
                    ++ str "-"
                    ++ [(48 + parseInt_digits day / 10)%N;
                        (48 + parseInt_digits day mod 10)%N]).
Proof.
  intros monthName month day year Hm Hd Hdl Hy Hyl.
  assert (Hmonth : (1 <= month <= 12)%N).
  { simpl in Hm.
    repeat (destruct Hm as [Hm|Hm]; [injection Hm as _ <-; lia|]).
    destruct Hm. }
  split; [exact Hmonth|].
  rewrite (@parseDateFromSlug_well_formed monthName month day year
             Hm Hd Hdl Hy Hyl).
  rewrite (@padStart0_two_digits month) by lia.
  rewrite (@padStart0_two_digits (parseInt_digits day))
    by (apply parseInt_digits_small; assumption).
  reflexivity.
Qed.

Lemma parseDateFromSlug_zero_padded_witness :
  parseDateFromSlug (str "march-8-2026") = Some (str "2026-03-08").
Proof.
  apply (@parseDateFromSlug_zero_padded (str "march") 3%N (str "8")
           (str "2026")).
  - vm_compute. tauto.
  - repeat constructor.
  - simpl. lia.
  - repeat constructor.
  - reflexivity.
Defined.

(** ** The reader of the Goodreads feeds *)

Module BooksFacts.
Import Books.

Lemma occurs_in_tail p x s : ~ occurs_in p (x :: s) -> ~ occurs_in p s.
Proof.
  intros H [a [b Hab]]. apply H. exists (x :: a), b. rewrite Hab. reflexivity.
Qed.

Lemma not_occurs_startsWith p s :
  ~ occurs_in p s -> startsWith s p = false.
Proof.
  intros H. destruct (startsWith s p) eqn:E; [|reflexivity].
  apply startsWith_iff in E. destruct E as [b Hb].
  exfalso. apply H. exists [], b. exact Hb.
Qed.

Lemma not_occurs_suffix p a s : ~ occurs_in p (a ++ s) -> ~ occurs_in p s.
Proof.
  induction a as [|x a IH]; intros H; [exact H|].
  apply IH. apply (@occurs_in_tail _ x _ H).
Qed.

Lemma match_first_none m s :
  (forall a b, s = a ++ b -> exec_at m b = None) ->
  match_first m s = None.
Proof.
  induction s as [|x s IH]; intros H.
  - simpl. rewrite (H [] [] eq_refl). reflexivity.
  - cbn [match_first]. rewrite (H [] (x :: s) eq_refl).
    apply IH. intros a b Hab. apply (H (x :: a) b). rewrite Hab. reflexivity.
Qed.

Lemma exec_at_none (m : matcher) s :
  m s 0 (None, None) = None -> exec_at m s = None.
Proof. unfold exec_at. intros ->. reflexivity. Qed.

Lemma lit_fails p k s pos c :
  startsWith s p = false -> lit p k s pos c = None.
Proof. unfold lit. intros ->. reflexivity. Qed.

(** Without the closing tag ahead, the lazy part never finds its end. *)
Lemma lazy_star_no_close tag s :
  ~ occurs_in (close_tag tag) s ->
  forall pos c,
    lazy_star any_unit
      (gclose (opt_lit cdata_close (lit (close_tag tag) done))) s pos c
    = None.
Proof.
  induction s as [|x s IH]; intros Hno pos c.
  - cbn [lazy_star]. unfold gclose, opt_lit.
    rewrite (lit_fails cdata_close) by reflexivity.
    rewrite lit_fails; [reflexivity|]. apply not_occurs_startsWith, Hno.
  - cbn [lazy_star]. unfold gclose at 1, opt_lit at 1.
    assert (H1 : lit cdata_close (lit (close_tag tag) done) (x :: s) pos
                     (fst c, Some pos) = None).
    { unfold lit at 1. destruct (startsWith (x :: s) cdata_close) eqn:E;
        [|reflexivity].
      apply lit_fails, not_occurs_startsWith.
      apply startsWith_iff in E. destruct E as [b Hb].
      rewrite Hb, skipn_app, skipn_all, Nat.sub_diag. cbn [skipn app].
      rewrite Hb in Hno. apply (@not_occurs_suffix _ _ _ Hno). }
    rewrite H1.
    rewrite lit_fails by (apply not_occurs_startsWith, Hno).
    unfold any_unit at 1. apply IH. apply (@occurs_in_tail _ _ _ Hno).
Qed.

Lemma tag_pattern_fails tag s :
  ~ occurs_in (open_tag tag) s \/ ~ occurs_in (close_tag tag) s ->
  forall a b, s = a ++ b -> exec_at (tag_pattern tag) b = None.
Proof.
  intros Hno a b ->. apply exec_at_none. unfold tag_pattern.
  destruct Hno as [Hno|Hno].
  - apply lit_fails, not_occurs_startsWith, (@not_occurs_suffix _ _ _ Hno).
  - assert (Hb : ~ occurs_in (close_tag tag) b)
      by apply (@not_occurs_suffix _ _ _ Hno).
    unfold lit at 1. destruct (startsWith b (open_tag tag)) eqn:E;
      [|reflexivity].
    apply startsWith_iff in E. destruct E as [r Hr].
    rewrite Hr, skipn_app, skipn_all, Nat.sub_diag. cbn [skipn app].
    rewrite Hr in Hb. apply not_occurs_suffix in Hb.
    unfold opt_lit at 1.
    assert (H1 : forall t pos c,
               ~ occurs_in (close_tag tag) t ->
               gopen (lazy_star any_unit
                        (gclose (opt_lit cdata_close
                                   (lit (close_tag tag) done)))) t pos c
               = None).
    { intros t pos c Ht. unfold gopen. apply lazy_star_no_close, Ht. }
    unfold lit at 1. destruct (startsWith r cdata_open) eqn:Ec.
    + apply startsWith_iff in Ec. destruct Ec as [r' Hr'].
      rewrite Hr', skipn_app, skipn_all, Nat.sub_diag. cbn [skipn app].
      rewrite H1; [|rewrite Hr' in Hb; apply (@not_occurs_suffix _ _ _ Hb)].
      rewrite <- Hr'. apply H1, Hb.
    + apply H1, Hb.
Qed.

Lemma tag_name_no_lt tag : tag_name tag -> ~ In 60%N tag.
Proof.
  intros Hn Hin. unfold tag_name in Hn. rewrite Forall_forall in Hn.
  specialize (Hn _ Hin). vm_compute in Hn. discriminate Hn.
Qed.

(** X22. [getTag] answers the empty string when the element is not there:
    when the text holds no opening tag, or no closing tag, of that
    name. *)
Theorem getTag_missing :
  forall xml tag : jsstring,
    tag_name tag ->
    ~ occurs_in (open_tag tag) xml \/ ~ occurs_in (close_tag tag) xml ->
    getTag xml tag = [].
Proof.
  intros xml tag _ Hno. unfold getTag.
  rewrite match_first_none; [reflexivity|].
  apply tag_pattern_fails, Hno.
Qed.

(** The lazy part runs over a text at no point of which the rest of the
    pattern matches, and stops where it does. *)
Lemma lazy_star_skip (k : matcher) v :
  forall rest pos c r,
    (forall a b, v = a ++ b -> b <> [] ->
                 k (b ++ rest) (pos + length a) c = None) ->
    k rest (pos + length v) c = Some r ->
    lazy_star any_unit k (v ++ rest) pos c = Some r.
Proof.
  induction v as [|x v IH]; intros rest pos c r Hfail Hend.
  - cbn [app length] in *. rewrite Nat.add_0_r in Hend.
    destruct rest; cbn [lazy_star]; rewrite Hend; reflexivity.
  - cbn [app lazy_star].
    pose proof (Hfail [] (x :: v) eq_refl ltac:(discriminate)) as H0.
    cbn [length app] in H0. rewrite Nat.add_0_r in H0. rewrite H0.
    unfold any_unit at 1. apply IH.
    + intros a b Hab Hb.
      specialize (Hfail (x :: a) b). cbn [length] in Hfail.
      replace (S pos + length a) with (pos + S (length a)) by lia.
      apply Hfail; [rewrite Hab; reflexivity|exact Hb].
    + cbn [length] in Hend.
      replace (S pos + length v) with (pos + S (length v)) by lia.
      exact Hend.
Qed.

Lemma prefix_before_unit (m l1 : jsstring) c l2 z :
  l1 ++ c :: l2 = m ++ z -> ~ In c m -> exists l1', l1 = m ++ l1'.
Proof.
  revert l1. induction m as [|y m IH]; intros l1 H Hc.
  - exists l1. reflexivity.
  - destruct l1 as [|x l1].
    + cbn [app] in H. injection H as -> _. exfalso. apply Hc. left. reflexivity.
    + cbn [app] in H. injection H as -> H.
      destruct (IH l1 H) as [l1' ->].
      * intros Hin. apply Hc. right. exact Hin.
      * exists l1'. reflexivity.
Qed.

(** An opening tag that does not occur in [pre] does not start in it. *)
Lemma open_tag_not_before tag pre rest :
  ~ In 60%N tag -> ~ occurs_in (open_tag tag) pre ->
  forall a b, pre = a ++ b -> b <> [] ->
              startsWith (b ++ open_tag tag ++ rest) (open_tag tag) = false.
Proof.
  intros Htag Hno a b -> Hb.
  destruct (startsWith (b ++ open_tag tag ++ rest) (open_tag tag)) eqn:E;
    [|reflexivity].
  exfalso. apply startsWith_iff in E. destruct E as [z Hz].
  destruct b as [|x b]; [congruence|].
  assert (Hopen : open_tag tag = 60%N :: (tag ++ [62%N])) by reflexivity.
  rewrite Hopen in Hz. cbn [app] in Hz. injection Hz as -> Hz.
  apply prefix_before_unit in Hz.
  - destruct Hz as [b' ->]. apply Hno. exists a, b'.
    rewrite Hopen. cbn [app]. rewrite <- !app_assoc. reflexivity.
  - intros Hin. apply in_app_or in Hin. destruct Hin as [Hin|Hin];
      [exact (Htag Hin)|].
    cbn in Hin. destruct Hin as [Hin|[]]. discriminate.
Qed.

Lemma match_first_at m pre s cap n :
  (forall a b, pre = a ++ b -> b <> [] -> exec_at m (b ++ s) = None) ->
  exec_at m s = Some (n, cap) ->
  match_first m (pre ++ s) = Some cap.
Proof.
  intros Hfail Hs. induction pre as [|x pre IH].
  - cbn [app]. destruct s; cbn [match_first]; rewrite Hs; reflexivity.
  - pose proof (Hfail [] (x :: pre) eq_refl ltac:(discriminate)) as H0.
    cbn [app] in H0. cbn [app match_first]. rewrite H0.
    apply IH. intros a b Hab Hb. apply (Hfail (x :: a) b); [|exact Hb].
    rewrite Hab. reflexivity.
Qed.

Lemma lit_app p k rest pos c :
  lit p k (p ++ rest) pos c = k rest (pos + length p) c.
Proof.
  unfold lit.
  replace (startsWith (p ++ rest) p) with true
    by (symmetry; apply startsWith_iff; eauto).
  rewrite skipn_app, skipn_all, Nat.sub_diag. reflexivity.
Qed.

Lemma close_tag_cons tag :
  close_tag tag = 60%N :: 47%N :: (tag ++ [62%N]).
Proof. reflexivity. Qed.

(** In a CDATA section without [</], the closing tag starts nowhere
    before the end of the section. *)
Lemma close_not_in_cdata tag v :
  ~ occurs_in (str "</") v ->
  forall a s2 rest,
    v ++ cdata_close = a ++ s2 -> s2 <> [] ->
    startsWith (s2 ++ rest) (close_tag tag) = false.
Proof.
  intros Hno a s2 rest Hsplit Hs2.
  destruct s2 as [|x s2]; [congruence|].
  rewrite close_tag_cons. cbn [app startsWith].
  destruct (N.eqb_spec 60 x) as [<-|_]; [|reflexivity].
  cbn [andb].
  apply app_eq_app in Hsplit. destruct Hsplit as [l [[Hv Hs]|[Ha Hc]]].
  - (* the suffix starts in [v] *)
    destruct l as [|y l].
    + cbn [app] in Hs. discriminate.
    + cbn [app] in Hs. injection Hs as <- Hs. subst s2.
      destruct l as [|y l].
      * reflexivity.
      * cbn [app startsWith].
        destruct (N.eqb_spec 47 y) as [<-|_]; [|reflexivity].
        exfalso. apply Hno. exists a, l. rewrite Hv. reflexivity.
  - (* the suffix starts in the end of the section *)
    exfalso. unfold cdata_close in Hc.
    assert (Hin : In 60%N (str "]]>")).
    { rewrite Hc. apply in_or_app. right. left. reflexivity. }
    cbn in Hin. intuition discriminate.
Qed.

Lemma tag_end_fails_cdata tag v post :
  ~ occurs_in (str "</") v ->
  forall a b pos c,
    v = a ++ b -> b <> [] ->
    gclose (opt_lit cdata_close (lit (close_tag tag) done))
           (b ++ cdata_close ++ close_tag tag ++ post) pos c
    = None.
Proof.
  intros Hno a b pos c Hv Hb. unfold gclose, opt_lit.
  assert (Hlen : 1 <= length b) by (destruct b; [congruence|simpl; lia]).
  assert (H1 : lit cdata_close (lit (close_tag tag) done)
                   (b ++ cdata_close ++ close_tag tag ++ post) pos
                   (fst c, Some pos) = None).
  { unfold lit at 1.
    destruct (startsWith (b ++ cdata_close ++ close_tag tag ++ post)
                         cdata_close); [|reflexivity].
    apply lit_fails.
    rewrite app_assoc, skipn_app.
    replace (length cdata_close - length (b ++ cdata_close)) with 0
      by (rewrite length_app; lia).
    cbn [skipn].
    apply (@close_not_in_cdata tag v Hno
             (a ++ firstn (length cdata_close) (b ++ cdata_close))).
    - rewrite <- app_assoc, firstn_skipn, Hv, <- app_assoc. reflexivity.
    - intros E. apply (f_equal (@length _)) in E.
      rewrite length_skipn, length_app in E. cbn [length] in E.
      change (length cdata_close) with 3 in E. lia. }
  rewrite H1. apply lit_fails. rewrite app_assoc.
  apply (@close_not_in_cdata tag v Hno a).
  - rewrite Hv, <- app_assoc. reflexivity.
  - destruct b; [congruence|discriminate].
Qed.

(** X23. [getTag] unwraps a CDATA section: for the first element of the
    name in the text, with a CDATA section without [</] as content, it
    answers the content of the section, trimmed. *)
Theorem getTag_cdata :
  forall pre tag v post : jsstring,
    tag_name tag ->
    ~ occurs_in (open_tag tag) pre ->
    ~ occurs_in (str "</") v ->
    getTag (pre ++ open_tag tag ++ cdata_open ++ v ++ cdata_close
                ++ close_tag tag ++ post) tag
    = trim v.
Proof.
  intros pre tag v post Htag Hpre Hv. apply tag_name_no_lt in Htag.
  unfold getTag.
  set (s := open_tag tag ++ cdata_open ++ v ++ cdata_close
                     ++ close_tag tag ++ post).
  assert (Hs : exists n, exec_at (tag_pattern tag) s = Some (n, Some v)).
  { unfold exec_at, tag_pattern, s. rewrite lit_app.
    unfold opt_lit at 1. rewrite lit_app. unfold gopen. cbn [snd].
    erewrite lazy_star_skip.
    2:{ intros a b Hab Hb. apply (@tag_end_fails_cdata tag v post Hv a b);
          assumption. }
    2:{ unfold gclose, opt_lit at 1. rewrite lit_app, lit_app.
        unfold done. reflexivity. }
    cbn [fst]. eexists. apply f_equal. apply f_equal2; [reflexivity|].
    apply f_equal.
    apply capture_text
      with (before := open_tag tag ++ cdata_open)
           (rest := cdata_close ++ close_tag tag ++ post).
    - rewrite <- !app_assoc. reflexivity.
    - rewrite length_app. lia.
    - rewrite length_app. lia. }
  destruct Hs as [n Hs].
  rewrite (@match_first_at (tag_pattern tag) pre s (Some v) n);
    [reflexivity| |exact Hs].
  intros a b Hab Hb. apply exec_at_none. unfold tag_pattern, s.
  apply lit_fails.
  apply (@open_tag_not_before tag pre _ Htag Hpre a b Hab Hb).
Qed.

Lemma tag_end_fails_plain tag v post :
  ~ In 60%N v -> (forall a, v <> a ++ cdata_close) ->
  forall a b pos c,
    v = a ++ b -> b <> [] ->
    gclose (opt_lit cdata_close (lit (close_tag tag) done))
           (b ++ close_tag tag ++ post) pos c
    = None.
Proof.
  intros Hv Hend a b pos c Hab Hb. unfold gclose, opt_lit.
  assert (Hin : forall x, In x b -> N.eqb 60 x = false).
  { intros x Hx. destruct (N.eqb_spec 60 x) as [<-|]; [|reflexivity].
    exfalso. apply Hv. rewrite Hab. apply in_or_app. right. exact Hx. }
  assert (Hclose : forall t rest,
             t <> [] -> (forall x, In x t -> In x b) ->
             startsWith (t ++ rest) (close_tag tag) = false).
  { intros t rest Ht Hsub. destruct t as [|x t]; [congruence|].
    rewrite close_tag_cons. cbn [app startsWith].
    rewrite (Hin x) by (apply Hsub; left; reflexivity). reflexivity. }
  assert (H1 : lit cdata_close (lit (close_tag tag) done)
                   (b ++ close_tag tag ++ post) pos (fst c, Some pos)
               = None).
  { unfold lit at 1.
    destruct (startsWith (b ++ close_tag tag ++ post) cdata_close) eqn:E;
      [|reflexivity].
    apply lit_fails.
    destruct b as [|x [|y [|z [|u b]]]]; [congruence| | | |].
    - rewrite close_tag_cons in E.
      change cdata_close with [93%N; 93%N; 62%N] in E.
      cbn [app startsWith] in E.
      rewrite !andb_true_iff in E. destruct E as [_ [E2 _]].
      discriminate E2.
    - rewrite close_tag_cons in E.
      change cdata_close with [93%N; 93%N; 62%N] in E.
      cbn [app startsWith] in E.
      rewrite !andb_true_iff in E. destruct E as [_ [_ [E3 _]]].
      discriminate E3.
    - exfalso. apply (Hend a). rewrite Hab. f_equal.
      change cdata_close with [93%N; 93%N; 62%N] in *.
      cbn [app startsWith] in E.
      rewrite !andb_true_iff in E. destruct E as [E1 [E2 [E3 _]]].
      apply N.eqb_eq in E1, E2, E3. subst. reflexivity.
    - change (skipn (length cdata_close)
                ((x :: y :: z :: u :: b) ++ close_tag tag ++ post))
        with ((u :: b) ++ close_tag tag ++ post).
      apply Hclose; [discriminate|].
      intros w Hw. right. right. right. exact Hw. }
  rewrite H1. apply lit_fails. apply Hclose; [exact Hb|auto].
Qed.

(** X24. [getTag] reads the first element of the name in the text: when
    its content holds no [<] and does not end in "]]>", the answer
    is that content, trimmed. *)
Theorem getTag_plain :
  forall pre tag v post : jsstring,
    tag_name tag ->
    ~ occurs_in (open_tag tag) pre ->
    ~ In 60%N v -> (forall a, v <> a ++ cdata_close) ->
    getTag (pre ++ open_tag tag ++ v ++ close_tag tag ++ post) tag = trim v.
Proof.
  intros pre tag v post Htag Hpre Hv Hend. apply tag_name_no_lt in Htag.
  unfold getTag.
  set (s := open_tag tag ++ v ++ close_tag tag ++ post).
  assert (Hs : exists n, exec_at (tag_pattern tag) s = Some (n, Some v)).
  { unfold exec_at, tag_pattern, s. rewrite lit_app.
    unfold opt_lit at 1.
    rewrite (@lit_fails cdata_open).
    2:{ destruct v as [|x v].
        - rewrite close_tag_cons. reflexivity.
        - change cdata_open with (60%N :: str "![CDATA[").
          cbn [app startsWith].
          destruct (N.eqb_spec 60 x) as [<-|]; [|reflexivity].
          exfalso. apply Hv. left. reflexivity. }
    unfold gopen. cbn [snd].
    erewrite lazy_star_skip.
    2:{ intros a b Hab Hb.
        apply (@tag_end_fails_plain tag v post Hv Hend a b); assumption. }
    2:{ unfold gclose, opt_lit at 1.
        rewrite (@lit_fails cdata_close)
          by (rewrite close_tag_cons; reflexivity).
        rewrite lit_app. unfold done. reflexivity. }
    cbn [fst]. eexists. apply f_equal. apply f_equal2; [reflexivity|].
    apply f_equal.
    apply capture_text
      with (before := open_tag tag) (rest := close_tag tag ++ post).
    - reflexivity.
    - lia.
    - lia. }
  destruct Hs as [n Hs].
  rewrite (@match_first_at (tag_pattern tag) pre s (Some v) n);
    [reflexivity| |exact Hs].
  intros a b Hab Hb. apply exec_at_none. unfold tag_pattern, s.
  apply lit_fails.
  apply (@open_tag_not_before tag pre _ Htag Hpre a b Hab Hb).
Qed.

Section ParseItemsFacts.
Variable number : Type.
Variable parseInt : jsstring -> number.
Variable falsy : number -> bool.
Variable zero : number.

(** X25. [parseItems] lists at most one book for each [<item>] block of
    the feed, and every book it lists is complete: its title and author
    are those of a block and not empty, its address is the address of
    Goodreads books followed by the book id of the block, which is not
    empty, and its rating is that of the block, or 0 when that is
    missing, not a number or 0. *)
Theorem parseItems_complete :
  forall xml : jsstring,
    length (parseItems parseInt falsy zero xml)
    <= length (exec_all item_pattern xml)
    /\ forall item,
         In item (parseItems parseInt falsy zero xml) ->
         exists block,
           In block (exec_all item_pattern xml)
           /\ title item = getTag block (str "title")
           /\ title item <> []
           /\ author item = getTag block (str "author_name")
           /\ author item <> []
           /\ url item = book_url (getTag block (str "book_id"))
           /\ getTag block (str "book_id") <> []
           /\ (falsy (parseInt (getTag block (str "user_rating"))) = true ->
               rating item = zero)
           /\ (falsy (parseInt (getTag block (str "user_rating"))) = false ->
               rating item = parseInt (getTag block (str "user_rating"))).
Proof.
  intros xml. unfold parseItems. split.
  - induction (exec_all item_pattern xml) as [|block blocks IH];
      [simpl; lia|].
    cbn [flat_map]. rewrite length_app. cbn [length].
    assert (length (parseItem parseInt falsy zero block) <= 1).
    { unfold parseItem. cbv zeta.
      destruct (_ && _ && _); simpl; lia. }
    lia.
  - intros item Hin. apply in_flat_map in Hin.
    destruct Hin as [block [Hblock Hitem]]. exists block.
    split; [exact Hblock|].
    unfold parseItem in Hitem. cbv zeta in Hitem.
    destruct (getTag block (str "title")) as [|t1 t] eqn:Et;
      [destruct Hitem|].
    destruct (getTag block (str "author_name")) as [|a1 a] eqn:Ea;
      [destruct Hitem|].
    destruct (getTag block (str "book_id")) as [|b1 b] eqn:Eb;
      [destruct Hitem|].
    cbn [nonempty andb] in Hitem. destruct Hitem as [<-|[]].
    cbn [title author url rating].
    repeat split; try discriminate.
    + intros ->. reflexivity.
    + intros ->. reflexivity.
Qed.

End ParseItemsFacts.

End BooksFacts.

(** ** The further properties at work on the examples *)

Lemma not_occurs_by_search (p s : jsstring) :
  indexOf_aux s p 0 = (-1)%Z -> ~ occurs_in p s.
Proof.
  intros H. destruct (indexOf_aux_spec p s 0) as [[_ Hno]|[a [b [_ [Hi _]]]]];
    [exact Hno|].
  rewrite Hi in H. lia.
Qed.

Lemma merge_keeps_all_witness :
  Store.quotes (merge Example.state Example.newQuotes)
  = Store.quotes Example.state ++ Example.newQuotes.
Proof.
  apply (merge_keeps_all Example.state Example.newQuotes).
  vm_compute. lia.
Defined.

Lemma merge_by_edition_witness :
  In (Example.thought (str "2026-02-22"))
     (Store.quotes (merge Example.state Example.newQuotes)).
Proof.
  apply (@merge_by_edition Example.state Example.newQuotes
           (Example.thought (str "2026-02-22"))).
  - vm_compute. tauto.
  - reflexivity.
Defined.

Lemma merge_watermark_monotone_witness :
  str_leb (str "2026-02-15")
          (Store.lastUpdated (merge Example.state Example.newQuotes)) = true.
Proof.
  apply (merge_watermark_monotone Example.state Example.newQuotes).
  split.
  - vm_compute. tauto.
  - intros d' Hd'. vm_compute in Hd'.
    repeat (destruct Hd' as [<-|Hd']; [vm_compute; reflexivity|]).
    destruct Hd'.
Defined.

Lemma scrape_html_needs_anchor_witness :
  scrape_html Example2.plain_page (str "2026-02-22") (str "Brain Food") = [].
Proof.
  destruct (scrape_html_needs_anchor Example2.plain_page) as [Hiff Hnone].
  apply Hnone. apply Hiff. vm_compute. reflexivity.
Defined.

Lemma tiny_thoughts_section_bounds_witness :
  exists before after,
    Example.page = before ++ Example.section ++ after
    /\ ~ occurs_in (str "<h2") Example.section
    /\ (startsWith after (str "<h2") = true
        \/ (~ occurs_in (str "<h2") after
            /\ (Z.of_nat (length Example.section) <= 8000)%Z)).
Proof.
  apply (@tiny_thoughts_section_bounds Example.page Example.section).
  vm_compute. reflexivity.
Defined.

Lemma scrape_html_quotes_witness :
  Quote.date (quote_of_group (str "2026-02-22") (str "Brain Food")
                             Example.group2) = str "2026-02-22"
  /\ 5 < length (Quote.text (quote_of_group (str "2026-02-22")
                               (str "Brain Food") Example.group2)).
Proof.
  destruct (@scrape_html_quotes Example.page (str "2026-02-22")
              (str "Brain Food")
              (quote_of_group (str "2026-02-22") (str "Brain Food")
                              Example.group2))
    as [Hd [_ [Hl _]]].
  - vm_compute. tauto.
  - split; [exact Hd|exact Hl].
Defined.

Lemma getTag_missing_witness :
  Books.getTag Example2.feed_item (str "isbn") = [].
Proof.
  apply BooksFacts.getTag_missing; [repeat constructor|]. left.
  apply not_occurs_by_search. vm_compute. reflexivity.
Defined.

Lemma getTag_cdata_witness :
  Books.getTag Example2.feed_item (str "title") = str "East of <Eden>".
Proof.
  apply (@BooksFacts.getTag_cdata Example2.feed_before_title (str "title")
           (str "East of <Eden>") Example2.feed_after_title).
  - repeat constructor.
  - apply not_occurs_by_search. vm_compute. reflexivity.
  - apply not_occurs_by_search. vm_compute. reflexivity.
Defined.

Lemma getTag_plain_witness :
  Books.getTag Example2.feed_item (str "book_id") = str "4406".
Proof.
  apply (@BooksFacts.getTag_plain Example2.feed_before_id (str "book_id")
           (str " 4406 ") Example2.feed_after_id).
  - repeat constructor.
  - apply not_occurs_by_search. vm_compute. reflexivity.
  - not_in_list.
  - intros a H. apply (f_equal (@rev _)) in H.
    rewrite rev_app_distr in H. vm_compute in H. discriminate H.
Defined.
